(** * Range sync of the beacon node: batches, sync chains, chain selection

    A shallow embedding of
    - [packages/lodestar/src/sync/asStateMachine/batch.ts] and [chain.ts],
    - [packages/lodestar/src/sync/range/chain.ts],
    - [packages/lodestar/src/sync/range/utils/updateChains.ts] and the batch
      ordering helpers that follow it ([validateBatchesStatus],
      [getNextBatchToProcess], [toBeProcessedStartEpoch],
      [toBeDownloadedStartEpoch]),
    and the properties of the range sync specification stated over it.

    Conventions.  Epochs and slots are JavaScript numbers holding integers:
    they are [Z].  An object mutated through its methods is a state that the
    method transforms; a method that can throw returns a [result] next to the
    state it leaves behind, because a throw does not undo the writes made
    before it.  A JavaScript [Map] is an association list in insertion
    order. *)

From Stdlib Require Import ZArith List String Bool Lia.
From Stdlib Require Import Sorting.Permutation Sorting.Sorted.
From Stdlib Require Import Strings.Byte.
Import ListNotations.

Local Open Scope string_scope.
Local Open Scope list_scope.
Local Open Scope Z_scope.

(* ------------------------------------------------------------------------- *)
(** ** Base types *)

Definition Epoch := Z.
Definition Slot := Z.

(** A [PeerId] object.  range/chain.ts looks at a peer through its base58
    string ([toB58String]: the comparison of [advanceChain], the keys of the
    peer map), and a value of this type is that string there.
    asStateMachine/ never looks inside a [PeerId]: it compares the objects
    themselves ([Array.includes], the keys of a [WeakMap]), and a value of
    this type stands there for one object, so that two objects made for the
    same peer are two values. *)
Definition PeerId := string.

Definition Root := list byte.

Record SignedBeaconBlock := { blockSlot : Slot; blockRoot : Root }.

Record BeaconBlocksByRangeRequest :=
  { startSlot : Slot; count : Z; step : Z }.

(** Modelled from the spec: [byteArrayEquals] of [util/bytes] is not among the
    sources; section 4.4 has [advanceChain] report the failed attempts with a
    different hash than the winning one: the two arrays hold the same
    bytes. *)
Fixpoint byteArrayEquals (a b : Root) : bool :=
  match a, b with
  | [], [] => true
  | x :: a', y :: b' => Byte.eqb x y && byteArrayEquals a' b'
  | _, _ => false
  end.

(** The values a [throw] of the sync code can carry. *)
Module BatchErrorCode.
Inductive t :=
| WRONG_STATUS
| MAX_DOWNLOAD_ATTEMPTS
| MAX_PROCESSING_ATTEMPTS.
End BatchErrorCode.

Inductive Error :=
| WrongStateError (msg : string)      (* asStateMachine/batch.ts *)
| BatchError (code : BatchErrorCode.t)  (* range/batch *)
| PlainError (msg : string)           (* throw Error(msg) *)
| SyncChainStartError (msg : string)
| ErrorAborted.

Inductive result (A : Type) :=
| Ok (a : A)
| Throw (e : Error).
Arguments Ok {A} a.
Arguments Throw {A} e.

(** Current state of a batch ([BatchStatus] and [BatchState]). *)
Inductive BatchStatus :=
| AwaitingDownload
| Downloading
| AwaitingProcessing
| Processing
| AwaitingValidation.

Record Attempt := { peer : PeerId; hash : Root }.

Inductive BatchState :=
| StAwaitingDownload
| StDownloading (p : PeerId) (blocks : list SignedBeaconBlock)
| StAwaitingProcessing (p : PeerId) (blocks : list SignedBeaconBlock)
| StProcessing (attempt : Attempt)
| StAwaitingValidation (attempt : Attempt).

Definition statusOf (s : BatchState) : BatchStatus :=
  match s with
  | StAwaitingDownload => AwaitingDownload
  | StDownloading _ _ => Downloading
  | StAwaitingProcessing _ _ => AwaitingProcessing
  | StProcessing _ => Processing
  | StAwaitingValidation _ => AwaitingValidation
  end.

Definition BatchStatus_eqb (a b : BatchStatus) : bool :=
  match a, b with
  | AwaitingDownload, AwaitingDownload
  | Downloading, Downloading
  | AwaitingProcessing, AwaitingProcessing
  | Processing, Processing
  | AwaitingValidation, AwaitingValidation => true
  | _, _ => false
  end.

(** The batch buffer: the batches in Downloading or AwaitingProcessing. *)
Definition inBuffer (s : BatchState) : bool :=
  BatchStatus_eqb (statusOf s) Downloading || BatchStatus_eqb (statusOf s) AwaitingProcessing.

(** Constants: [EPOCHS_PER_BATCH] and [BATCH_BUFFER_SIZE] as
    asStateMachine/chain.ts declares them (range/chain.ts imports the same
    names from [../constants]). *)
Definition EPOCHS_PER_BATCH : Z := 2.
Definition BATCH_BUFFER_SIZE : Z := 5.

(** Modelled from the spec: the modules [sync/constants] and
    [sync/range/constants] are not among the sources; section 4.1 gives
    [BATCH_SLOT_OFFSET = 1]. *)
Definition BATCH_SLOT_OFFSET : Z := 1.

(** Modelled from the spec: section 4.1, [MAX_DOWNLOAD_ATTEMPTS = 5] (the
    constants module is not among the sources). *)
Definition MAX_DOWNLOAD_ATTEMPTS : Z := 5.

(** Modelled from the spec: section 4.1, [MAX_PROCESSING_ATTEMPTS = 3] (the
    constants module is not among the sources). *)
Definition MAX_PROCESSING_ATTEMPTS : Z := 3.

(** Modelled from the spec: section 6, [min_finalized_chain_validated_epochs]
    defaults to 10 (the constants module is not among the sources). *)
Definition MIN_FINALIZED_CHAIN_VALIDATED_EPOCHS : Z := 10.

(** Modelled from the spec: section 6, [parallel_head_chains] defaults to 2
    (the constants module is not among the sources). *)
Definition PARALLEL_HEAD_CHAINS : Z := 2.

(** Modelled from the spec: [computeStartSlotAtEpoch] lives in
    beacon-state-transition/util/epoch, which is not among the sources;
    section 3 has one epoch equal to [SLOTS_PER_EPOCH] slots and
    [startSlot = startEpoch * SLOTS_PER_EPOCH + 1] for a batch. *)
Definition computeStartSlotAtEpoch (SLOTS_PER_EPOCH : Z) (epoch : Epoch) : Slot :=
  epoch * SLOTS_PER_EPOCH.

(** [arr.length] as a JavaScript number. *)
Definition len {A} (l : list A) : Z := Z.of_nat (List.length l).

(* ------------------------------------------------------------------------- *)
(** ** A small regular-expression matcher over batch statuses

    Used to state the ordering pattern of the batches literally. *)

Inductive regex :=
| Eps
| Chr (s : BatchStatus)
| Alt (r1 r2 : regex)
| Seq (r1 r2 : regex)
| Star (r : regex).

Definition Opt (r : regex) : regex := Alt r Eps.

Inductive matches : regex -> list BatchStatus -> Prop :=
| m_eps : matches Eps []
| m_chr s : matches (Chr s) [s]
| m_alt_l r1 r2 l : matches r1 l -> matches (Alt r1 r2) l
| m_alt_r r1 r2 l : matches r2 l -> matches (Alt r1 r2) l
| m_seq r1 r2 l1 l2 :
    matches r1 l1 -> matches r2 l2 -> matches (Seq r1 r2) (l1 ++ l2)
| m_star_nil r : matches (Star r) []
| m_star_cons r l1 l2 :
    matches r l1 -> matches (Star r) l2 -> matches (Star r) (l1 ++ l2).

(** [(AwaitingDownload | Downloading | AwaitingProcessing)] *)
Definition rePreProcessing : regex :=
  Alt (Chr AwaitingDownload) (Alt (Chr Downloading) (Chr AwaitingProcessing)).

(** [AwaitingValidation* Processing? (AwaitingDownload|Downloading|AwaitingProcessing)*] *)
Definition batchesPattern : regex :=
  Seq (Star (Chr AwaitingValidation))
      (Seq (Opt (Chr Processing)) (Star rePreProcessing)).

Definition isPreProcessing (s : BatchStatus) : bool :=
  match s with
  | AwaitingDownload | Downloading | AwaitingProcessing => true
  | _ => false
  end.

(** The pattern read from the left: validated batches, then at most one
    batch in processing, then batches before processing. *)
Fixpoint orderedb (l : list BatchStatus) : bool :=
  match l with
  | AwaitingValidation :: l' => orderedb l'
  | Processing :: l' => forallb isPreProcessing l'
  | _ => forallb isPreProcessing l
  end.

(* ------------------------------------------------------------------------- *)
(** ** [sortBy] *)

(** Modelled from the spec: the comparison [sortBy] sorts with, which is not
    among the sources.  The conditions are compared in their order, the first
    that differs decides, and the lower value goes first (see [sortBy]). *)
Fixpoint compareBy {T} (conditions : list (T -> Z)) (a b : T) : comparison :=
  match conditions with
  | [] => Eq
  | condition :: rest =>
      match condition a ?= condition b with
      | Eq => compareBy rest a b
      | c => c
      end
  end.

(** Modelled from the spec: one insertion of the stable sort of [sortBy]:
    [x] goes before the first element it is not above. *)
Fixpoint insertBy {T} (conditions : list (T -> Z)) (x : T) (l : list T) : list T :=
  match l with
  | [] => [x]
  | y :: l' =>
      match compareBy conditions x y with
      | Gt => y :: insertBy conditions x l'
      | _ => x :: l
      end
  end.

(** Modelled from the spec: [sortBy] ([util/sortBy], and [./utils] of
    asStateMachine) is not among the sources.  It sorts by several conditions,
    the first having priority.  Lower values go first: section 4.2 has the
    retry peer, which is the first element of [sortBy(peers, ...)] with the
    number of active downloads as a condition, be the one with the fewest, and
    the call in asStateMachine/chain.ts documents itself as
    "Sort peers by (1) no failed request (2) less active requests, then pick
    first" with the condition [failedPeers.includes(peer) ? 1 : 0].  The input
    array is not mutated and the sort is stable ([Array.prototype.sort]). *)
Definition sortBy {T} (arr : list T) (conditions : list (T -> Z)) : list T :=
  fold_right (insertBy conditions) [] arr.

(** The first element of a list is not above any element of the list. *)
Definition hdMin {T} (conditions : list (T -> Z)) (l : list T) : Prop :=
  match l with
  | [] => True
  | h :: _ => forall y, In y l -> compareBy conditions h y <> Gt
  end.

(** [a === b] on two [PeerId] objects of asStateMachine/: they are the same
    object. *)
Definition sameObject (a b : PeerId) : bool := String.eqb a b.

(** [arr.includes(x)] on [PeerId] objects: [x] is in [arr] when [arr] holds
    the same object. *)
Definition includes (arr : list PeerId) (x : PeerId) : bool :=
  existsb (sameObject x) arr.

(** [Map.prototype.get], [has], [set] and [delete] on an association list in
    insertion order; [set] on a present key keeps its position. *)
Fixpoint mapGet {V} (m : list (Z * V)) (k : Z) : option V :=
  match m with
  | [] => None
  | (k', v) :: m' => if k' =? k then Some v else mapGet m' k
  end.

Definition mapHas {V} (m : list (Z * V)) (k : Z) : bool :=
  match mapGet m k with Some _ => true | None => false end.

Fixpoint mapSet {V} (m : list (Z * V)) (k : Z) (v : V) : list (Z * V) :=
  match m with
  | [] => [(k, v)]
  | (k', v') :: m' => if k' =? k then (k, v) :: m' else (k', v') :: mapSet m' k v
  end.

Definition mapDelete {V} (m : list (Z * V)) (k : Z) : list (Z * V) :=
  filter (fun kv => negb (fst kv =? k)) m.

Definition mapValues {V} (m : list (Z * V)) : list V := map snd m.

(* ------------------------------------------------------------------------- *)
(** ** State and exceptions

    [M S A]: a computation over a mutable state [S] that returns an [A] or
    throws.  The state is kept on a throw. *)

Definition M (S A : Type) : Type := S -> result A * S.

Definition ret {S A} (a : A) : M S A := fun s => (Ok a, s).

Definition throw {S A} (e : Error) : M S A := fun s => (Throw e, s).

Definition bind {S A B} (m : M S A) (k : A -> M S B) : M S B :=
  fun s =>
    match m s with
    | (Ok a, s') => k a s'
    | (Throw e, s') => (Throw e, s')
    end.

Definition get {S} : M S S := fun s => (Ok s, s).

Definition gets {S A} (f : S -> A) : M S A := fun s => (Ok (f s), s).

Definition modify {S} (f : S -> S) : M S unit := fun s => (Ok tt, f s).

(** [try { m } catch (e) { handler e }] *)
Definition tryCatch {S A} (m : M S A) (handler : Error -> M S A) : M S A :=
  fun s =>
    match m s with
    | (Ok a, s') => (Ok a, s')
    | (Throw e, s') => handler e s'
    end.

Declare Scope monad_scope.
Delimit Scope monad_scope with monad.
Notation "x <- m ;; k" := (bind m (fun x => k))
  (at level 61, m at next level, right associativity) : monad_scope.
Notation "m ;; k" := (bind m (fun _ => k))
  (at level 61, right associativity) : monad_scope.
Local Open Scope monad_scope.

(** [for (const x of l) body(x)] *)
Fixpoint forEach {S T} (l : list T) (body : T -> M S unit) : M S unit :=
  match l with
  | [] => ret tt
  | x :: l' => body x ;; forEach l' body
  end.

(** A [for ... of] loop whose body may [break]: the body returns [false] to
    break and [true] to go on. *)
Fixpoint forEachBreak {S T} (l : list T) (body : T -> M S bool) : M S unit :=
  match l with
  | [] => ret tt
  | x :: l' =>
      go <- body x ;;
      if go then forEachBreak l' body else ret tt
  end.

(** [preserves R m]: whatever [m] returns or throws, the state it leaves is
    related by [R] to the state it started in. *)
Definition preserves {S A} (R : S -> S -> Prop) (m : M S A) : Prop :=
  forall s r s', m s = (r, s') -> R s s'.

(** [throwsOnly P m]: whatever [m] throws satisfies [P]. *)
Definition throwsOnly {S A} (P : Error -> Prop) (m : M S A) : Prop :=
  forall s e s', m s = (Throw e, s') -> P e.

Record preorder {S} (R : S -> S -> Prop) : Prop := {
  po_refl : forall s, R s s;
  po_trans : forall a b c, R a b -> R b c -> R a c
}.

Record IBeaconConfig := { SLOTS_PER_EPOCH : Z }.

(** [a ?? b] on an optional number. *)
Definition nullish (a : option Z) (b : Z) : Z :=
  match a with Some n => n | None => b end.

(** Truthiness of an optional number: [undefined] and [0] are falsy. *)
Definition truthy (a : option Z) : bool :=
  match a with Some n => negb (n =? 0) | None => false end.

(* ------------------------------------------------------------------------- *)
(** ** asStateMachine/batch.ts and asStateMachine/chain.ts *)

Module AsStateMachine.

Module Batch.

Record t := {
  id : Epoch;
  state : BatchState;
  request : BeaconBlocksByRangeRequest;
  failedProcessingAttempts : list Attempt;
  failedDownloadAttempts : list PeerId;
  config : IBeaconConfig
}.

Definition newBatch (config : IBeaconConfig) (startEpoch : Epoch) (numOfEpochs : Z)
  : t :=
  let startSlot := computeStartSlotAtEpoch (SLOTS_PER_EPOCH config) startEpoch + 1 in
  let endSlot := startSlot + numOfEpochs * SLOTS_PER_EPOCH config in
  {| id := startEpoch;
     state := StAwaitingDownload;
     request := {| startSlot := startSlot; count := endSlot - startSlot; step := 1 |};
     failedProcessingAttempts := [];
     failedDownloadAttempts := [];
     config := config |}.

Definition setState (s : BatchState) (this : t) : t :=
  {| id := id this; state := s; request := request this;
     failedProcessingAttempts := failedProcessingAttempts this;
     failedDownloadAttempts := failedDownloadAttempts this;
     config := config this |}.

Definition pushFailedDownloadAttempt (p : PeerId) (this : t) : t :=
  {| id := id this; state := state this; request := request this;
     failedProcessingAttempts := failedProcessingAttempts this;
     failedDownloadAttempts := failedDownloadAttempts this ++ [p];
     config := config this |}.

Definition pushFailedProcessingAttempt (a : Attempt) (this : t) : t :=
  {| id := id this; state := state this; request := request this;
     failedProcessingAttempts := failedProcessingAttempts this ++ [a];
     failedDownloadAttempts := failedDownloadAttempts this;
     config := config this |}.

(** Peers from which this batch has had a failed download or processing
    attempt. *)
Definition getFailedPeers (this : t) : list PeerId :=
  failedDownloadAttempts this ++ map peer (failedProcessingAttempts this).

(** AwaitingDownload -> Downloading *)
Definition startDownloading (p : PeerId) : M t unit :=
  fun this =>
    match state this with
    | StAwaitingDownload => (Ok tt, setState (StDownloading p []) this)
    | _ => (Throw (WrongStateError "Starting download for batch in wrong state"), this)
    end.

(** Downloading -> AwaitingProcessing *)
Definition downloadingSuccess (blocks : list SignedBeaconBlock) : M t unit :=
  fun this =>
    match state this with
    | StDownloading p _ => (Ok tt, setState (StAwaitingProcessing p blocks) this)
    | _ => (Throw (WrongStateError "Download completed for batch in wrong state"), this)
    end.

(** Downloading -> AwaitingDownload *)
Definition downloadingError : M t unit :=
  fun this =>
    match state this with
    | StDownloading p _ =>
        (Ok tt, setState StAwaitingDownload (pushFailedDownloadAttempt p this))
    | _ => (Throw (WrongStateError "Download failed for batch in wrong state"), this)
    end.

Section WithHash.
(** [hashBlocks] of [./utils], which is not among the sources. *)
Variable hashBlocks : IBeaconConfig -> list SignedBeaconBlock -> Root.

(** AwaitingProcessing -> Processing *)
Definition startProcessing : M t (list SignedBeaconBlock) :=
  fun this =>
    match state this with
    | StAwaitingProcessing p blocks =>
        (Ok blocks,
         setState
           (StProcessing {| peer := p; hash := hashBlocks (config this) blocks |})
           this)
    | _ => (Throw (WrongStateError "Starting procesing batch in wrong state"), this)
    end.
End WithHash.

(** Processing -> AwaitingValidation *)
Definition processingSuccess : M t unit :=
  fun this =>
    match state this with
    | StProcessing attempt => (Ok tt, setState (StAwaitingValidation attempt) this)
    | _ => (Throw (WrongStateError "Procesing completed for batch in wrong state"), this)
    end.

(** Processing -> AwaitingDownload *)
Definition processingError : M t unit :=
  fun this =>
    match state this with
    | StProcessing attempt =>
        (Ok tt, setState StAwaitingDownload (pushFailedProcessingAttempt attempt this))
    | _ => (Throw (WrongStateError "Procesing completed for batch in wrong state"), this)
    end.

(** AwaitingValidation -> AwaitingDownload *)
Definition validationError : M t unit :=
  fun this =>
    match state this with
    | StAwaitingValidation attempt =>
        (Ok tt, setState StAwaitingDownload (pushFailedProcessingAttempt attempt this))
    | _ => (Throw (WrongStateError "Procesing completed for batch in wrong state"), this)
    end.

(** [method] is a transition out of the state of status [from]: it returns
    when the batch [this] is in that state, and otherwise throws a
    [WrongStateError] and leaves the batch as it was. *)
Definition onlyFrom {A} (from : BatchStatus) (method : M t A) (this : t) : Prop :=
  (statusOf (state this) = from -> exists a this', method this = (Ok a, this'))
  /\ (statusOf (state this) <> from ->
      exists msg, method this = (Throw (WrongStateError msg), this)).

(** [method] drops no peer from [getFailedPeers]. *)
Definition keepsFailedPeers {A} (method : M t A) (this : t) : Prop :=
  forall p, In p (getFailedPeers this) -> In p (getFailedPeers (snd (method this))).

End Batch.

Record FinalizedCheckpointPeerSet := {
  peers : list PeerId;
  targetEpoch : Epoch
}.

(** The [SyncingChain] fields the downloader reads and writes.  [requests]
    records the calls of [downloadBeaconBlocksByRange] issued so far.  A batch
    is stored in [batches] under its [id], where [sendBatch] mutates it. *)
Record SyncingChain := {
  startEpoch : Epoch;
  downloaderTarget : Epoch;
  processorTarget : Epoch;
  validatedBatches : Z;
  batches : list (Epoch * Batch.t);
  peerSet : option FinalizedCheckpointPeerSet;
  config : IBeaconConfig;
  requests : list (PeerId * BeaconBlocksByRangeRequest)
}.

Definition setBatches (bs : list (Epoch * Batch.t)) (this : SyncingChain) : SyncingChain :=
  {| startEpoch := startEpoch this; downloaderTarget := downloaderTarget this;
     processorTarget := processorTarget this; validatedBatches := validatedBatches this;
     batches := bs; peerSet := peerSet this; config := config this;
     requests := requests this |}.

Definition setDownloaderTarget (e : Epoch) (this : SyncingChain) : SyncingChain :=
  {| startEpoch := startEpoch this; downloaderTarget := e;
     processorTarget := processorTarget this; validatedBatches := validatedBatches this;
     batches := batches this; peerSet := peerSet this; config := config this;
     requests := requests this |}.

Definition setPeerSet (ps : option FinalizedCheckpointPeerSet) (this : SyncingChain)
  : SyncingChain :=
  {| startEpoch := startEpoch this; downloaderTarget := downloaderTarget this;
     processorTarget := processorTarget this; validatedBatches := validatedBatches this;
     batches := batches this; peerSet := ps; config := config this;
     requests := requests this |}.

Definition pushRequest (r : PeerId * BeaconBlocksByRangeRequest) (this : SyncingChain)
  : SyncingChain :=
  {| startEpoch := startEpoch this; downloaderTarget := downloaderTarget this;
     processorTarget := processorTarget this; validatedBatches := validatedBatches this;
     batches := batches this; peerSet := peerSet this; config := config this;
     requests := requests this ++ [r] |}.

Definition newSyncingChain (startEpoch : Epoch) (config : IBeaconConfig) : SyncingChain :=
  {| startEpoch := startEpoch; downloaderTarget := startEpoch;
     processorTarget := startEpoch; validatedBatches := 0;
     batches := []; peerSet := None; config := config; requests := [] |}.

(** A [WeakMap<PeerId, number>]: its keys are [PeerId] objects, and a key is
    found when it is the same object. *)
Fixpoint wmGet (m : list (PeerId * Z)) (k : PeerId) : option Z :=
  match m with
  | [] => None
  | (k', v) :: m' => if sameObject k' k then Some v else wmGet m' k
  end.

Fixpoint wmSet (m : list (PeerId * Z)) (k : PeerId) (v : Z) : list (PeerId * Z) :=
  match m with
  | [] => [(k, v)]
  | (k', v') :: m' =>
      if sameObject k' k then (k, v) :: m' else (k', v') :: wmSet m' k v
  end.

Definition getActiveRequestsByPeer (this : SyncingChain) : list (PeerId * Z) :=
  fold_left
    (fun activeRequestsByPeer batch =>
       match Batch.state batch with
       | StDownloading p _ =>
           wmSet activeRequestsByPeer p (nullish (wmGet activeRequestsByPeer p) 0 + 1)
       | _ => activeRequestsByPeer
       end)
    (mapValues (batches this)) [].

(** The peer [requestBatches] retries a batch with:
    [const [peer] = sortBy(peers, (peer) => (failedPeers.includes(peer) ? 1 : 0),
                                  (peer) => activeRequestsByPeer.get(peer) ?? 0)] *)
Definition retryPeer (peers : list PeerId) (activeRequestsByPeer : list (PeerId * Z))
  (batch : Batch.t) : option PeerId :=
  let failedPeers := Batch.getFailedPeers batch in
  hd_error
    (sortBy peers
       [ (fun peer => if includes failedPeers peer then 1 else 0);
         (fun peer => nullish (wmGet activeRequestsByPeer peer) 0) ]).

(** Creates the next required batch, or returns [null]. *)
Definition includeNextBatch (targetEpoch : Epoch) : M SyncingChain (option Batch.t) :=
  fun this =>
    (* don't request batches beyond the target head slot *)
    if targetEpoch <? downloaderTarget this then (Ok None, this)
    else
      let batchesInBuffer :=
        filter
          (fun batch =>
             BatchStatus_eqb (statusOf (Batch.state batch)) Downloading
             || BatchStatus_eqb (statusOf (Batch.state batch)) AwaitingProcessing)
          (mapValues (batches this)) in
      if BATCH_BUFFER_SIZE <? len batchesInBuffer then (Ok None, this)
      else
        let batchId := downloaderTarget this in
        let batch := Batch.newBatch (config this) batchId EPOCHS_PER_BATCH in
        (Ok (Some batch),
         setDownloaderTarget (downloaderTarget this + EPOCHS_PER_BATCH)
           (setBatches (mapSet (batches this) batchId batch) this)).

(** [sendBatch] up to the call of [downloadBeaconBlocksByRange]; what follows
    runs when the download settles. *)
Definition sendBatch (batch : Batch.t) (p : PeerId) : M SyncingChain unit :=
  fun this =>
    match Batch.startDownloading p batch with
    | (Ok _, batch') =>
        (Ok tt,
         pushRequest (p, Batch.request batch')
           (setBatches (mapSet (batches this) (Batch.id batch) batch') this))
    | (Throw e, _) => (Throw e, this)
    end.

(** The number of batches in the batch buffer. *)
Definition batchesInBuffer (this : SyncingChain) : Z :=
  len (filter (fun batch => inBuffer (Batch.state batch)) (mapValues (batches this))).

(** The batch is being downloaded from [p]. *)
Definition isDownloadingFrom (p : PeerId) (batch : Batch.t) : bool :=
  match Batch.state batch with
  | StDownloading q _ => sameObject q p
  | _ => false
  end.

(** The number of batches that are being downloaded from [p]. *)
Definition downloadsFrom (p : PeerId) (this : SyncingChain) : Z :=
  len (filter (isDownloadingFrom p) (mapValues (batches this))).


Definition setStartEpoch (e : Epoch) (this : SyncingChain) : SyncingChain :=
  {| startEpoch := e; downloaderTarget := downloaderTarget this;
     processorTarget := processorTarget this; validatedBatches := validatedBatches this;
     batches := batches this; peerSet := peerSet this; config := config this;
     requests := requests this |}.

Definition setProcessorTarget (e : Epoch) (this : SyncingChain) : SyncingChain :=
  {| startEpoch := startEpoch this; downloaderTarget := downloaderTarget this;
     processorTarget := e; validatedBatches := validatedBatches this;
     batches := batches this; peerSet := peerSet this; config := config this;
     requests := requests this |}.

Definition setValidatedBatches (n : Z) (this : SyncingChain) : SyncingChain :=
  {| startEpoch := startEpoch this; downloaderTarget := downloaderTarget this;
     processorTarget := processorTarget this; validatedBatches := n;
     batches := batches this; peerSet := peerSet this; config := config this;
     requests := requests this |}.

(** Removes any batches previous to [validatingEpoch] and updates the current
    boundaries of the chain.  The first loop deletes the entry it is visiting
    and keeps it in [removedBatches]; the [switch] of the second loop only
    logs. *)
Definition advanceChain (validatingEpoch : Epoch) : M SyncingChain unit :=
  this <- get ;;
  (* make sure this epoch produces an advancement *)
  if validatingEpoch <=? startEpoch this then ret tt
  else
    (* safety check for batch boundaries *)
    if negb (Z.rem validatingEpoch EPOCHS_PER_BATCH
             =? Z.rem (startEpoch this) EPOCHS_PER_BATCH)
    then throw (PlainError "Validating Epoch is not aligned")
    else
      let removedBatches := filter (fun entry => fst entry <? validatingEpoch) (batches this) in
      forEach (batches this)
        (fun entry =>
           if fst entry <? validatingEpoch
           then modify (fun this => setBatches (mapDelete (batches this) (fst entry)) this)
           else ret tt) ;;
      forEach removedBatches
        (fun _ =>
           modify (fun this => setValidatedBatches (validatedBatches this + 1) this)) ;;
      modify (fun this =>
                setProcessorTarget (Z.max (processorTarget this) validatingEpoch) this) ;;
      modify (setStartEpoch validatingEpoch) ;;
      modify (fun this =>
                setDownloaderTarget (Z.max (downloaderTarget this) validatingEpoch) this) ;;
      this <- get ;;
      if mapHas (batches this) (downloaderTarget this)
      then modify (setDownloaderTarget (downloaderTarget this + EPOCHS_PER_BATCH))
      else ret tt.

(** The epoch [startSyncing] advances the chain to: the aligned epoch that
    produces a batch containing [localFinalizedEpoch]. *)
Definition validatingEpoch (localFinalizedEpoch : Epoch) (this : SyncingChain) : Epoch :=
  startEpoch this
  + (localFinalizedEpoch - startEpoch this) / EPOCHS_PER_BATCH * EPOCHS_PER_BATCH.

Section WithShuffle.
(** [shuffle] of [./utils], which is not among the sources: some reordering
    of its argument. *)
Variable shuffle : list PeerId -> list PeerId.

Definition requestBatches (ps : FinalizedCheckpointPeerSet) : M SyncingChain unit :=
  activeRequestsByPeer <- gets getActiveRequestsByPeer ;;
  (* Retry download of existing batches *)
  bs <- gets (fun this => mapValues (batches this)) ;;
  forEach bs
    (fun batch =>
       if negb (BatchStatus_eqb (statusOf (Batch.state batch)) AwaitingDownload)
       then ret tt
       else
         match retryPeer (peers ps) activeRequestsByPeer batch with
         | Some p => sendBatch batch p
         | None => ret tt
         end) ;;
  (* find the next pending batch and request it from the peer *)
  let idlePeers :=
    shuffle (filter (fun p => negb (truthy (wmGet activeRequestsByPeer p))) (peers ps)) in
  forEachBreak idlePeers
    (fun p =>
       batch <- includeNextBatch (targetEpoch ps) ;;
       match batch with
       | None => ret false
       | Some batch => sendBatch batch p ;; ret true
       end).

Definition triggerBatchDownloader : M SyncingChain unit :=
  fun this =>
    match peerSet this with
    | Some ps => requestBatches ps this
    | None => (Ok tt, this)
    end.

Definition peerSetChanged (ps : option FinalizedCheckpointPeerSet) : M SyncingChain unit :=
  modify (setPeerSet ps) ;; triggerBatchDownloader.

End WithShuffle.

End AsStateMachine.

(* ------------------------------------------------------------------------- *)
(** ** range/: batches, ordering helpers, [SyncChain] *)

Module Range.

(** Modelled from the spec: [BatchOpts] of the missing range/batch.ts;
    range/chain.ts and the helpers read its [epochsPerBatch]. *)
Record BatchOpts := { epochsPerBatch : Z }.

Module Batch.

(** Modelled from the spec: range/batch.ts is not among the sources.  The
    fields are the ones range/chain.ts and the helpers read ([startEpoch],
    [state], [request], [failedProcessingAttempts]); the request is the one of
    section 3; the transitions are the table of section 4.1: every method
    called in another state than its "From" fails with WrongBatchState, the
    three error transitions append to the failed attempts and fail with
    MaxDownloadAttempts or MaxProcessingAttempts "if count reached", and
    [validationSuccess] returns the attempt of an AwaitingValidation batch. *)
Record t := {
  startEpoch : Epoch;
  state : BatchState;
  request : BeaconBlocksByRangeRequest;
  failedProcessingAttempts : list Attempt;
  failedDownloadAttempts : list PeerId;
  config : IBeaconConfig
}.

(** Modelled from the spec: the constructor of range/batch.ts.  Section 3:
    a batch starts AwaitingDownload and covers [epochsPerBatch] epochs from
    [startEpoch]; section 4.1: its request starts at the first slot of
    [startEpoch] plus [BATCH_SLOT_OFFSET]. *)
Definition newBatch (startEpoch : Epoch) (config : IBeaconConfig) (opts : BatchOpts) : t :=
  {| startEpoch := startEpoch;
     state := StAwaitingDownload;
     request :=
       {| startSlot :=
            computeStartSlotAtEpoch (SLOTS_PER_EPOCH config) startEpoch + BATCH_SLOT_OFFSET;
          count := epochsPerBatch opts * SLOTS_PER_EPOCH config;
          step := 1 |};
     failedProcessingAttempts := [];
     failedDownloadAttempts := [];
     config := config |}.

(** Modelled from the spec: the assignment [this.state = s] of the
    transitions of range/batch.ts. *)
Definition setState (s : BatchState) (this : t) : t :=
  {| startEpoch := startEpoch this; state := s; request := request this;
     failedProcessingAttempts := failedProcessingAttempts this;
     failedDownloadAttempts := failedDownloadAttempts this;
     config := config this |}.

(** Modelled from the spec: section 4.1, a download error appends the peer
    to [failedDownloadAttempts]. *)
Definition pushFailedDownloadAttempt (p : PeerId) (this : t) : t :=
  {| startEpoch := startEpoch this; state := state this; request := request this;
     failedProcessingAttempts := failedProcessingAttempts this;
     failedDownloadAttempts := failedDownloadAttempts this ++ [p];
     config := config this |}.

(** Modelled from the spec: section 4.1, a processing or validation error
    appends the attempt to [failedProcessingAttempts]. *)
Definition pushFailedProcessingAttempt (a : Attempt) (this : t) : t :=
  {| startEpoch := startEpoch this; state := state this; request := request this;
     failedProcessingAttempts := failedProcessingAttempts this ++ [a];
     failedDownloadAttempts := failedDownloadAttempts this;
     config := config this |}.

(** Modelled from the spec: [getFailedPeers] of range/batch.ts, which
    section 4.2 names: the peers of the failed download attempts, then those
    of the failed processing attempts, as the method of the same name of
    asStateMachine/batch.ts returns them. *)
Definition getFailedPeers (this : t) : list PeerId :=
  failedDownloadAttempts this ++ map peer (failedProcessingAttempts this).

(** Modelled from the spec: section 4.1, every transition that is not in the
    table fails fast with WrongBatchState. *)
Definition wrongStatus {A} : M t A := throw (BatchError BatchErrorCode.WRONG_STATUS).

(** Modelled from the spec: section 4.1, AwaitingDownload to Downloading,
    recording the peer. *)
Definition startDownloading (p : PeerId) : M t unit :=
  fun this =>
    match state this with
    | StAwaitingDownload => (Ok tt, setState (StDownloading p []) this)
    | _ => wrongStatus this
    end.

(** Modelled from the spec: section 4.1, Downloading to AwaitingProcessing,
    keeping the peer and storing the blocks. *)
Definition downloadingSuccess (blocks : list SignedBeaconBlock) : M t unit :=
  fun this =>
    match state this with
    | StDownloading p _ => (Ok tt, setState (StAwaitingProcessing p blocks) this)
    | _ => wrongStatus this
    end.

(** Modelled from the spec: section 4.1, Downloading to AwaitingDownload; the
    peer joins the failed download attempts, and the call fails with
    MaxDownloadAttempts once their count has reached
    [MAX_DOWNLOAD_ATTEMPTS]. *)
Definition downloadingError : M t unit :=
  fun this =>
    match state this with
    | StDownloading p _ =>
        let this' := pushFailedDownloadAttempt p this in
        if MAX_DOWNLOAD_ATTEMPTS <=? len (failedDownloadAttempts this')
        then (Throw (BatchError BatchErrorCode.MAX_DOWNLOAD_ATTEMPTS), this')
        else (Ok tt, setState StAwaitingDownload this')
    | _ => wrongStatus this
    end.

(** Modelled from the spec: section 4.1, AwaitingProcessing to Processing;
    the attempt keeps the peer and the hash of the blocks, which are
    returned. *)
Definition startProcessing
  (hashBlocks : IBeaconConfig -> list SignedBeaconBlock -> Root)
  : M t (list SignedBeaconBlock) :=
  fun this =>
    match state this with
    | StAwaitingProcessing p blocks =>
        (Ok blocks,
         setState (StProcessing {| peer := p; hash := hashBlocks (config this) blocks |})
           this)
    | _ => wrongStatus this
    end.

(** Modelled from the spec: section 4.1, Processing to AwaitingValidation,
    keeping the attempt. *)
Definition processingSuccess : M t unit :=
  fun this =>
    match state this with
    | StProcessing attempt => (Ok tt, setState (StAwaitingValidation attempt) this)
    | _ => wrongStatus this
    end.

(** Modelled from the spec: the shared end of [processingError] and
    [validationError] in section 4.1: the attempt joins the failed processing
    attempts, and the call fails with MaxProcessingAttempts once their count
    has reached [MAX_PROCESSING_ATTEMPTS]; otherwise the batch is
    AwaitingDownload again. *)
Definition onProcessingError (attempt : Attempt) : M t unit :=
  fun this =>
    let this' := pushFailedProcessingAttempt attempt this in
    if MAX_PROCESSING_ATTEMPTS <=? len (failedProcessingAttempts this')
    then (Throw (BatchError BatchErrorCode.MAX_PROCESSING_ATTEMPTS), this')
    else (Ok tt, setState StAwaitingDownload this').

(** Modelled from the spec: section 4.1, Processing to AwaitingDownload. *)
Definition processingError : M t unit :=
  fun this =>
    match state this with
    | StProcessing attempt => onProcessingError attempt this
    | _ => wrongStatus this
    end.

(** Modelled from the spec: section 4.1, AwaitingValidation to
    AwaitingDownload. *)
Definition validationError : M t unit :=
  fun this =>
    match state this with
    | StAwaitingValidation attempt => onProcessingError attempt this
    | _ => wrongStatus this
    end.

(** Modelled from the spec: section 4.1, [validationSuccess] is called on an
    AwaitingValidation batch and returns its attempt; in any other state it
    fails as every method does. *)
Definition validationSuccess : M t Attempt :=
  fun this =>
    match state this with
    | StAwaitingValidation attempt => (Ok attempt, this)
    | _ => wrongStatus this
    end.

End Batch.

(** *** The helpers of range/utils that follow updateChains.ts *)

(** Validates that the status and ordering of batches is valid:
    [[AwaitingValidation]* [Processing]? [AwaitingDownload,Downloading,AwaitingProcessing]*].
    The [default:] branch of the switch is not reachable from a [BatchStatus]. *)
Fixpoint validateBatchesStatus_from (processing preProcessing : Z) (batches : list Batch.t)
  : result unit :=
  match batches with
  | [] => Ok tt
  | batch :: rest =>
      match statusOf (Batch.state batch) with
      | AwaitingValidation =>
          if 0 <? processing
          then Throw (PlainError "AwaitingValidation state found after Processing")
          else if 0 <? preProcessing
          then Throw (PlainError "AwaitingValidation state found after PreProcessing")
          else validateBatchesStatus_from processing preProcessing rest
      | Processing =>
          if 0 <? preProcessing
          then Throw (PlainError "Processing state found after PreProcessing")
          else if 0 <? processing
          then Throw (PlainError "More than one Processing state found")
          else validateBatchesStatus_from (processing + 1) preProcessing rest
      | AwaitingDownload | Downloading | AwaitingProcessing =>
          validateBatchesStatus_from processing (preProcessing + 1) rest
      end
  end.

Definition validateBatchesStatus (batches : list Batch.t) : result unit :=
  validateBatchesStatus_from 0 0 batches.

(** The statuses of the batches, in the order of the array. *)
Definition statuses (batches : list Batch.t) : list BatchStatus :=
  map (fun batch => statusOf (Batch.state batch)) batches.

(** Return the next batch to process if any. *)
Fixpoint getNextBatchToProcess {B} (stateOf : B -> BatchState) (batches : list B)
  : option B :=
  match batches with
  | [] => None
  | batch :: rest =>
      match statusOf (stateOf batch) with
      | AwaitingValidation => getNextBatchToProcess stateOf rest
      | AwaitingProcessing => Some batch
      | AwaitingDownload | Downloading | Processing => None
      end
  end.

(** [Math.max(...xs)] of a non-empty array. *)
Definition mathMax (xs : list Z) : Z :=
  match xs with
  | [] => 0
  | x :: xs' => fold_left Z.max xs' x
  end.

(** Compute the startEpoch of the next batch to be processed. *)
Definition toBeProcessedStartEpoch (batches : list Batch.t) (startEpoch : Epoch)
  (opts : BatchOpts) : Epoch :=
  let startEpochs :=
    map Batch.startEpoch
      (filter
         (fun batch => BatchStatus_eqb (statusOf (Batch.state batch)) AwaitingValidation)
         batches) in
  if 0 <? len startEpochs then mathMax startEpochs + epochsPerBatch opts else startEpoch.

(** Compute the startEpoch of the next batch to be downloaded. *)
Definition toBeDownloadedStartEpoch (batches : list Batch.t) (startEpoch : Epoch)
  (opts : BatchOpts) : Epoch :=
  match nth_error batches (List.length batches - 1) with
  | Some lastBatch => Batch.startEpoch lastBatch + epochsPerBatch opts
  | None => startEpoch
  end.

(** *** range/chain.ts *)

(** Modelled from the spec: [RangeSyncType] of [sync/utils/remoteSyncType]
    is not among the sources; section 3 has the two kinds of chain. *)
Inductive RangeSyncType := Finalized | Head.

Record ChainTarget := { slot : Slot; root : Root }.

Module SyncChainStatus.
Inductive t := Stopped | Syncing | Synced | Error.
End SyncChainStatus.

(** Modelled from the spec: [PeerAction] of the network module is not among
    the sources; range/chain.ts names [LowToleranceError] only. *)
Inductive PeerAction :=
| Fatal
| LowToleranceError
| MidToleranceError
| HighToleranceError.

(** What the chain does to the outside through [SyncChainFns]. *)
Inductive Event :=
| ReportPeer (p : PeerId) (action : PeerAction) (actionName : string)
| OnEnd (err : option Error)
| DownloadBeaconBlocksByRange (p : PeerId) (request : BeaconBlocksByRangeRequest)
| ProcessChainSegment (blocks : list SignedBeaconBlock).

(** Modelled from the spec: util/itTrigger is not among the sources.  Section
    9 describes it as a channel of unit trigger messages that the processor
    drains, closed by the abort token; range/chain.ts only ever ends it with
    an error, which the [for await] loop of [sync] then throws. *)
Record ItTrigger := { triggered : bool; error : option Error }.

(** A batch object is a cell of [heap]; a [BatchRef] is its address.  A batch
    deleted from [batches] stays reachable from the [sendBatch] or
    [processBatch] call that holds it. *)
Definition BatchRef := nat.

(** Where the promise of [sync()] stands. *)
Inductive SyncLoop :=
| AwaitingTrigger
| AwaitingProcessChainSegment (batch : BatchRef) (blocks : list SignedBeaconBlock)
| Settled.

(** The fields of a [SyncChain], then what surrounds it: the batch objects,
    the suspended [sync()], the batches whose [sendBatch] awaits its download,
    and the calls made through [SyncChainFns] so far. *)
Record SyncChain := {
  syncType : RangeSyncType;
  target : option ChainTarget;
  validatedEpochs : Z;
  startEpoch : Epoch;
  status : SyncChainStatus.t;
  batchProcessor : ItTrigger;
  batches : list (Epoch * BatchRef);
  peerset : list (PeerId * ChainTarget);
  config : IBeaconConfig;
  opts : BatchOpts;
  heap : list Batch.t;
  syncLoop : SyncLoop;
  pendingDownloads : list BatchRef;
  events : list Event
}.

Definition setTarget (v : option ChainTarget) (this : SyncChain) : SyncChain :=
  {| syncType := syncType this; target := v; validatedEpochs := validatedEpochs this;
     startEpoch := startEpoch this; status := status this;
     batchProcessor := batchProcessor this; batches := batches this;
     peerset := peerset this; config := config this; opts := opts this;
     heap := heap this; syncLoop := syncLoop this;
     pendingDownloads := pendingDownloads this; events := events this |}.

Definition setValidatedEpochs (v : Z) (this : SyncChain) : SyncChain :=
  {| syncType := syncType this; target := target this; validatedEpochs := v;
     startEpoch := startEpoch this; status := status this;
     batchProcessor := batchProcessor this; batches := batches this;
     peerset := peerset this; config := config this; opts := opts this;
     heap := heap this; syncLoop := syncLoop this;
     pendingDownloads := pendingDownloads this; events := events this |}.

Definition setStartEpoch (v : Epoch) (this : SyncChain) : SyncChain :=
  {| syncType := syncType this; target := target this;
     validatedEpochs := validatedEpochs this; startEpoch := v; status := status this;
     batchProcessor := batchProcessor this; batches := batches this;
     peerset := peerset this; config := config this; opts := opts this;
     heap := heap this; syncLoop := syncLoop this;
     pendingDownloads := pendingDownloads this; events := events this |}.

Definition setStatus (v : SyncChainStatus.t) (this : SyncChain) : SyncChain :=
  {| syncType := syncType this; target := target this;
     validatedEpochs := validatedEpochs this; startEpoch := startEpoch this;
     status := v; batchProcessor := batchProcessor this; batches := batches this;
     peerset := peerset this; config := config this; opts := opts this;
     heap := heap this; syncLoop := syncLoop this;
     pendingDownloads := pendingDownloads this; events := events this |}.

Definition setBatchProcessor (v : ItTrigger) (this : SyncChain) : SyncChain :=
  {| syncType := syncType this; target := target this;
     validatedEpochs := validatedEpochs this; startEpoch := startEpoch this;
     status := status this; batchProcessor := v; batches := batches this;
     peerset := peerset this; config := config this; opts := opts this;
     heap := heap this; syncLoop := syncLoop this;
     pendingDownloads := pendingDownloads this; events := events this |}.

Definition setBatches (v : list (Epoch * BatchRef)) (this : SyncChain) : SyncChain :=
  {| syncType := syncType this; target := target this;
     validatedEpochs := validatedEpochs this; startEpoch := startEpoch this;
     status := status this; batchProcessor := batchProcessor this; batches := v;
     peerset := peerset this; config := config this; opts := opts this;
     heap := heap this; syncLoop := syncLoop this;
     pendingDownloads := pendingDownloads this; events := events this |}.

Definition setPeerset (v : list (PeerId * ChainTarget)) (this : SyncChain) : SyncChain :=
  {| syncType := syncType this; target := target this;
     validatedEpochs := validatedEpochs this; startEpoch := startEpoch this;
     status := status this; batchProcessor := batchProcessor this;
     batches := batches this; peerset := v; config := config this; opts := opts this;
     heap := heap this; syncLoop := syncLoop this;
     pendingDownloads := pendingDownloads this; events := events this |}.

Definition setHeap (v : list Batch.t) (this : SyncChain) : SyncChain :=
  {| syncType := syncType this; target := target this;
     validatedEpochs := validatedEpochs this; startEpoch := startEpoch this;
     status := status this; batchProcessor := batchProcessor this;
     batches := batches this; peerset := peerset this; config := config this;
     opts := opts this; heap := v; syncLoop := syncLoop this;
     pendingDownloads := pendingDownloads this; events := events this |}.

Definition setSyncLoop (v : SyncLoop) (this : SyncChain) : SyncChain :=
  {| syncType := syncType this; target := target this;
     validatedEpochs := validatedEpochs this; startEpoch := startEpoch this;
     status := status this; batchProcessor := batchProcessor this;
     batches := batches this; peerset := peerset this; config := config this;
     opts := opts this; heap := heap this; syncLoop := v;
     pendingDownloads := pendingDownloads this; events := events this |}.

Definition setPendingDownloads (v : list BatchRef) (this : SyncChain) : SyncChain :=
  {| syncType := syncType this; target := target this;
     validatedEpochs := validatedEpochs this; startEpoch := startEpoch this;
     status := status this; batchProcessor := batchProcessor this;
     batches := batches this; peerset := peerset this; config := config this;
     opts := opts this; heap := heap this; syncLoop := syncLoop this;
     pendingDownloads := v; events := events this |}.

Definition setEvents (v : list Event) (this : SyncChain) : SyncChain :=
  {| syncType := syncType this; target := target this;
     validatedEpochs := validatedEpochs this; startEpoch := startEpoch this;
     status := status this; batchProcessor := batchProcessor this;
     batches := batches this; peerset := peerset this; config := config this;
     opts := opts this; heap := heap this; syncLoop := syncLoop this;
     pendingDownloads := pendingDownloads this; events := v |}.

(** [new SyncChain(startEpoch, syncType, fns, modules, opts)]: the constructor
    starts [sync()], which suspends on the first [next()] of the trigger. *)
Definition newSyncChain (startEpoch : Epoch) (syncType : RangeSyncType)
  (config : IBeaconConfig) (opts : option BatchOpts) : SyncChain :=
  {| syncType := syncType; target := None; validatedEpochs := 0;
     startEpoch := startEpoch; status := SyncChainStatus.Stopped;
     batchProcessor := {| triggered := false; error := None |};
     batches := []; peerset := []; config := config;
     opts :=
       {| epochsPerBatch :=
            match opts with
            | Some o => epochsPerBatch o
            | None => EPOCHS_PER_BATCH
            end |};
     heap := []; syncLoop := AwaitingTrigger; pendingDownloads := []; events := [] |}.

Definition emit (ev : Event) : M SyncChain unit :=
  modify (fun this => setEvents (events this ++ [ev]) this).

Definition reportPeer (p : PeerId) (action : PeerAction) (actionName : string)
  : M SyncChain unit :=
  emit (ReportPeer p action actionName).

(** Batch objects. *)
Definition getBatch (ref : BatchRef) (this : SyncChain) : Batch.t :=
  nth ref (heap this) (Batch.newBatch 0 (config this) (opts this)).

Fixpoint replaceNth {A} (n : nat) (x : A) (l : list A) : list A :=
  match l, n with
  | [], _ => []
  | _ :: l', O => x :: l'
  | y :: l', S n' => y :: replaceNth n' x l'
  end.

Definition putBatch (ref : BatchRef) (b : Batch.t) (this : SyncChain) : SyncChain :=
  setHeap (replaceNth ref b (heap this)) this.

(** [new Batch(...)] *)
Definition allocBatch (b : Batch.t) : M SyncChain BatchRef :=
  fun this => (Ok (List.length (heap this)), setHeap (heap this ++ [b]) this).

(** A method call on the batch object at [ref]. *)
Definition onBatch {A} (ref : BatchRef) (method : M Batch.t A) : M SyncChain A :=
  fun this =>
    let (r, b') := method (getBatch ref this) in
    (r, putBatch ref b' this).

Definition toArr (this : SyncChain) : list Batch.t :=
  map (fun kv => getBatch (snd kv) this) (batches this).

(** A method that leaves the start epoch of the batch as it is. *)
Definition keepsStartEpoch {A} (method : M Batch.t A) : Prop :=
  forall b r b', method b = (r, b') -> Batch.startEpoch b' = Batch.startEpoch b.

(** A method that, besides, changes the state of a batch only from a state
    before processing to a state before processing. *)
Definition pendingOnly {A} (method : M Batch.t A) : Prop :=
  forall b r b',
    method b = (r, b') ->
    Batch.startEpoch b' = Batch.startEpoch b
    /\ (Batch.state b' = Batch.state b
        \/ (isPreProcessing (statusOf (Batch.state b)) = true
            /\ isPreProcessing (statusOf (Batch.state b')) = true)).

(** Modelled from the spec: util/peerMap is not among the sources; section 3
    has [peerset] a map from peer to [ChainTarget].  [set] replaces the value
    of a peer already there and appends a new peer. *)
Fixpoint peerMapSet (m : list (PeerId * ChainTarget)) (k : PeerId) (v : ChainTarget)
  : list (PeerId * ChainTarget) :=
  match m with
  | [] => [(k, v)]
  | (k', v') :: m' =>
      if String.eqb k' k then (k, v) :: m' else (k', v') :: peerMapSet m' k v
  end.

(** Modelled from the spec: [has] of the missing util/peerMap. *)
Definition peerMapHas (m : list (PeerId * ChainTarget)) (k : PeerId) : bool :=
  existsb (fun kv => String.eqb (fst kv) k) m.

(** Modelled from the spec: [delete] of the missing util/peerMap. *)
Definition peerMapDelete (m : list (PeerId * ChainTarget)) (k : PeerId)
  : list (PeerId * ChainTarget) :=
  filter (fun kv => negb (String.eqb (fst kv) k)) m.

(** Modelled from the spec: [keys] of the missing util/peerMap, in insertion
    order. *)
Definition peerMapKeys (m : list (PeerId * ChainTarget)) : list PeerId := map fst m.

(** Modelled from the spec: [values] of the missing util/peerMap, in
    insertion order. *)
Definition peerMapValues (m : list (PeerId * ChainTarget)) : list ChainTarget := map snd m.

(** What range/chain.ts takes from modules that are not among the sources:
    [hashBlocks] and [computeMostCommonTarget] of [./utils], and the two
    selectors of a [ChainPeersBalancer] built from the peers and the batches
    ([idlePeers] shuffles, so it is any function of them). *)
Record Deps := {
  hashBlocks : IBeaconConfig -> list SignedBeaconBlock -> Root;
  computeMostCommonTarget : list ChainTarget -> option ChainTarget;
  bestPeerToRetryBatch : list PeerId -> list Batch.t -> Batch.t -> option PeerId;
  idlePeers : list PeerId -> list Batch.t -> list PeerId
}.

Definition isSyncing (this : SyncChain) : bool :=
  match status this with SyncChainStatus.Syncing => true | _ => false end.

Definition isRemovable (this : SyncChain) : bool :=
  match status this with
  | SyncChainStatus.Error | SyncChainStatus.Synced => true
  | _ => false
  end.

Definition peers (this : SyncChain) : Z := len (peerset this).

Definition getPeers (this : SyncChain) : list PeerId := peerMapKeys (peerset this).

(** Modelled from the spec: [trigger] of the missing util/itTrigger: one
    pending trigger, however often it is called before the loop takes it. *)
Definition batchProcessor_trigger (this : SyncChain) : SyncChain :=
  setBatchProcessor {| triggered := true; error := error (batchProcessor this) |} this.

(** Modelled from the spec: [end(err)] of the missing util/itTrigger: the
    loop that waits on the trigger throws [err]. *)
Definition batchProcessor_end (e : Error) (this : SyncChain) : SyncChain :=
  setBatchProcessor {| triggered := triggered (batchProcessor this); error := Some e |} this.

Definition triggerBatchProcessor : M SyncChain unit := modify batchProcessor_trigger.

(** The innermost body of [advanceChain]: a failed attempt whose hash
    differs from the one of the attempt that was right is reported. *)
Definition advanceChain_penalize (attemptOk attempt : Attempt) : M SyncChain unit :=
  if negb (byteArrayEquals (hash attempt) (hash attemptOk)) then
    if String.eqb (peer attemptOk) (peer attempt)
    then
      (* The same peer corrected its previous attempt *)
      reportPeer (peer attempt) MidToleranceError "SyncChainInvalidBatchSelf"
    else
      (* A different peer sent an bad batch *)
      reportPeer (peer attempt) LowToleranceError "SyncChainInvalidBatchOther"
  else ret tt.

(** The body of the loop of [advanceChain] on one entry of the batch map. *)
Definition advanceChain_visit (newStartEpoch : Epoch) (entry : Epoch * BatchRef)
  : M SyncChain unit :=
  let (batchKey, ref) := entry in
  batch <- gets (getBatch ref) ;;
  if Batch.startEpoch batch <? newStartEpoch then
    modify (fun this => setBatches (mapDelete (batches this) batchKey) this) ;;
    modify (fun this => setValidatedEpochs (validatedEpochs this + EPOCHS_PER_BATCH) this) ;;
    (* The last batch attempt is right, all others are wrong. Penalize other peers *)
    attemptOk <- onBatch ref Batch.validationSuccess ;;
    forEach (Batch.failedProcessingAttempts batch) (advanceChain_penalize attemptOk)
  else ret tt.

(** Drops any batches previous to [newStartEpoch] and updates the chain
    boundaries.  The loop deletes only the entry it is visiting, so it visits
    the entries the map had when it started. *)
Definition advanceChain (newStartEpoch : Epoch) : M SyncChain unit :=
  this <- get ;;
  (* make sure this epoch produces an advancement *)
  if newStartEpoch <=? startEpoch this then ret tt
  else
    forEach (batches this) (advanceChain_visit newStartEpoch) ;;
    modify (setStartEpoch newStartEpoch).

(** What the removal of the batch of an entry reports, when the batch is in
    AwaitingValidation: one report for each failed attempt whose hash differs
    from the hash of the attempt that was right. *)
Definition reportsFor (attemptOk : Attempt) (failed : list Attempt) : list Event :=
  map
    (fun attempt =>
       if String.eqb (peer attemptOk) (peer attempt)
       then ReportPeer (peer attempt) MidToleranceError "SyncChainInvalidBatchSelf"
       else ReportPeer (peer attempt) LowToleranceError "SyncChainInvalidBatchOther")
    (filter (fun attempt => negb (byteArrayEquals (hash attempt) (hash attemptOk))) failed).

(** The entry holds a batch that [advanceChain newStartEpoch] removes. *)
Definition removedBy (newStartEpoch : Epoch) (this : SyncChain) (entry : Epoch * BatchRef)
  : bool :=
  Batch.startEpoch (getBatch (snd entry) this) <? newStartEpoch.

Definition reportsOnRemoval (newStartEpoch : Epoch) (this : SyncChain)
  (entry : Epoch * BatchRef) : list Event :=
  if removedBy newStartEpoch this entry then
    match Batch.state (getBatch (snd entry) this) with
    | StAwaitingValidation attemptOk =>
        reportsFor attemptOk (Batch.failedProcessingAttempts (getBatch (snd entry) this))
    | _ => []
    end
  else [].

(** *** Relations between two states of a chain *)

(** The validated boundary and the count of validated epochs did not go back. *)
Definition advances (this this' : SyncChain) : Prop :=
  startEpoch this <= startEpoch this' /\ validatedEpochs this <= validatedEpochs this'.

Definition keepsStatus (this this' : SyncChain) : Prop := status this' = status this.

Definition isOnEnd (ev : Event) : bool :=
  match ev with OnEnd _ => true | _ => false end.

(** The calls of [onEnd] among the events. *)
Definition onEnds (evs : list Event) : list Event := filter isOnEnd evs.

(** [onEnd] was not called, and [sync()] did not move. *)
Definition keepsLoop (this this' : SyncChain) : Prop :=
  onEnds (events this') = onEnds (events this) /\ syncLoop this' = syncLoop this.

(** What every piece of code outside [sync] keeps. *)
Definition progress (this this' : SyncChain) : Prop :=
  advances this this' /\ keepsLoop this this'.

(** What every piece of code outside [sync] keeps, short of [addPeer] and
    [removePeer]. *)
Definition steady (this this' : SyncChain) : Prop :=
  progress this this' /\ peerset this' = peerset this.

(** What a stretch of [sync] keeps for as long as its promise has not
    settled. *)
Definition running (this this' : SyncChain) : Prop :=
  advances this this'
  /\ onEnds (events this') = onEnds (events this)
  /\ peerset this' = peerset this
  /\ (syncLoop this' <> Settled \/ syncLoop this' = syncLoop this).

(** Everything but the batches, the downloads in flight and the events that
    are not [onEnd] is as it was, up to [le] on the validated boundary and
    on the count of validated epochs. *)
Definition control (le : Z -> Z -> Prop) (this this' : SyncChain) : Prop :=
  le (startEpoch this) (startEpoch this')
  /\ le (validatedEpochs this) (validatedEpochs this')
  /\ syncType this' = syncType this /\ target this' = target this
  /\ status this' = status this /\ batchProcessor this' = batchProcessor this
  /\ peerset this' = peerset this /\ config this' = config this
  /\ opts this' = opts this /\ syncLoop this' = syncLoop this
  /\ onEnds (events this') = onEnds (events this).

(** What the downloader keeps. *)
Definition sameControl : SyncChain -> SyncChain -> Prop := control eq.

(** What [advanceChain] keeps. *)
Definition advancesControl : SyncChain -> SyncChain -> Prop := control Z.le.

(** What the loop of [advanceChain] keeps: it counts validated epochs. *)
Definition countsControl (this this' : SyncChain) : Prop :=
  startEpoch this' = startEpoch this /\ advancesControl this this'.




(** The requests among the events: the calls of [downloadBeaconBlocksByRange]
    and of [processChainSegment]. *)
Definition isRequest (ev : Event) : bool :=
  match ev with
  | DownloadBeaconBlocksByRange _ _ | ProcessChainSegment _ => true
  | _ => false
  end.

Definition requestsOf (evs : list Event) : list Event := filter isRequest evs.

(** From a chain that is not syncing: the chain is still not syncing and no
    request was made. *)
Definition quiet (this this' : SyncChain) : Prop :=
  isSyncing this = false ->
  isSyncing this' = false /\ requestsOf (events this') = requestsOf (events this).

(** *** The layout of the batch map *)

(** The batches of the entries are in a status that satisfies [cls]. *)
Definition allStatus (cls : BatchStatus -> bool) (entries : list (Epoch * BatchRef))
  (this : SyncChain) : Prop :=
  forall k ref, In (k, ref) entries -> cls (statusOf (Batch.state (getBatch ref this))) = true.

Definition isAwaitingValidation (s : BatchStatus) : bool :=
  BatchStatus_eqb s AwaitingValidation.

(** The batch map holds each batch under its start epoch, and its entries
    come by strictly increasing start epoch, as [includeNextBatch] adds
    them. *)
Definition laidOut (this : SyncChain) : Prop :=
  0 < epochsPerBatch (opts this)
  /\ StronglySorted Z.lt (map fst (batches this))
  /\ forall k ref,
      In (k, ref) (batches this) ->
      (ref < List.length (heap this))%nat /\ Batch.startEpoch (getBatch ref this) = k.

(** The statuses of the batches while no batch is given to the processor
    ([None]): batches in AwaitingValidation, then batches before processing;
    and while the processor holds the batch [ref] ([Some ref]): that batch is
    in Processing, between the batches in AwaitingValidation and the batches
    before processing, unless it has been dropped from the map, which then
    holds batches before processing only. *)
Definition inOrder (processing : option BatchRef) (this : SyncChain) : Prop :=
  match processing with
  | None =>
      exists validated pending,
        batches this = validated ++ pending
        /\ allStatus isAwaitingValidation validated this
        /\ allStatus isPreProcessing pending this
  | Some ref =>
      statusOf (Batch.state (getBatch ref this)) = Processing
      /\ ((exists validated k pending,
              batches this = validated ++ (k, ref) :: pending
              /\ allStatus isAwaitingValidation validated this
              /\ allStatus isPreProcessing pending this)
          \/ (~ In ref (map snd (batches this))
              /\ allStatus isPreProcessing (batches this) this))
  end.

(** The batch the processor holds, if any. *)
Definition processingRef (this : SyncChain) : option (option BatchRef) :=
  match syncLoop this with
  | AwaitingTrigger => Some None
  | AwaitingProcessChainSegment ref _ => Some (Some ref)
  | Settled => None
  end.

(** What holds of the batches of every chain whose batches are as wide as
    configured: see [run_ordered]. *)
Definition ordered (this : SyncChain) : Prop :=
  laidOut this
  /\ match processingRef this with
     | Some processing => inOrder processing this
     | None => True
     end.

Definition keepsLayout (this this' : SyncChain) : Prop := laidOut this -> laidOut this'.

Definition keepsOrder (processing : option BatchRef) (this this' : SyncChain) : Prop :=
  laidOut this /\ inOrder processing this -> laidOut this' /\ inOrder processing this'.

(** The trigger holds the error it held. *)
Definition keepsError (this this' : SyncChain) : Prop :=
  error (batchProcessor this') = error (batchProcessor this).

(** The trigger was ended with an error that is not an abort: the loop of
    [sync] throws it when it takes the trigger. *)
Definition failing (this : SyncChain) : Prop :=
  exists e, error (batchProcessor this) = Some e /\ e <> ErrorAborted.

(** The errors of a batch. *)
Definition isBatchError (e : Error) : Prop := exists code, e = BatchError code.

(** Two states that hold the same batch objects. *)
Definition sameHeap (c s : SyncChain) : Prop :=
  heap s = heap c /\ config s = config c /\ opts s = opts c.

(** The number of batches in the batch buffer. *)
Definition batchesInBuffer (this : SyncChain) : Z :=
  len (filter (fun batch => inBuffer (Batch.state batch)) (toArr this)).

(** The start epoch of the batch that [includeNextBatch] would create. *)
Definition nextStartEpoch (this : SyncChain) : Epoch :=
  toBeDownloadedStartEpoch (toArr this) (startEpoch this) (opts this).

(** The first slot requested for that batch is not beyond the target. *)
Definition withinTarget (this : SyncChain) : Prop :=
  match target this with
  | Some t =>
      computeStartSlotAtEpoch (SLOTS_PER_EPOCH (config this)) (nextStartEpoch this)
      + BATCH_SLOT_OFFSET <= slot t
  | None => True
  end.

Section WithDeps.
Variable deps : Deps.

(** Creates the next required batch from the chain, or returns [null]. *)
Definition includeNextBatch : M SyncChain (option BatchRef) :=
  this <- get ;;
  let batches_ := toArr this in
  (* Only request batches up to the buffer size limit *)
  let batchesInBuffer :=
    filter
      (fun batch =>
         BatchStatus_eqb (statusOf (Batch.state batch)) Downloading
         || BatchStatus_eqb (statusOf (Batch.state batch)) AwaitingProcessing)
      batches_ in
  if BATCH_BUFFER_SIZE <? len batchesInBuffer then ret None
  else
    let startEpoch_ := toBeDownloadedStartEpoch batches_ (startEpoch this) (opts this) in
    let toBeDownloadedSlot :=
      computeStartSlotAtEpoch (SLOTS_PER_EPOCH (config this)) startEpoch_
      + BATCH_SLOT_OFFSET in
    (* Don't request batches beyond the target head slot *)
    if match target this with
       | Some t => slot t <? toBeDownloadedSlot
       | None => false
       end
    then ret None
    else if mapHas (batches this) startEpoch_ then ret None
    else
      ref <- allocBatch (Batch.newBatch startEpoch_ (config this) (opts this)) ;;
      modify (fun this => setBatches (mapSet (batches this) startEpoch_ ref) this) ;;
      ret (Some ref).

(** [sendBatch] up to its [await]: [startDownloading], then the call of
    [downloadBeaconBlocksByRange].  When [startDownloading] throws, the
    [catch] ends the trigger and the downloader is triggered at once. *)
Definition sendBatch_start (triggerBatchDownloader : M SyncChain unit)
  (ref : BatchRef) (p : PeerId) : M SyncChain unit :=
  tryCatch
    (onBatch ref (Batch.startDownloading p) ;;
     request <- gets (fun this => Batch.request (getBatch ref this)) ;;
     emit (DownloadBeaconBlocksByRange p request) ;;
     modify (fun this => setPendingDownloads (pendingDownloads this ++ [ref]) this))
    (fun e => modify (batchProcessor_end e) ;; triggerBatchDownloader).

(** The body of the first loop of [requestBatches]: retry the download of
    an existing batch. *)
Definition requestBatches_retry (triggerBatchDownloader : M SyncChain unit)
  (peers_ : list PeerId) (snapshot : list Batch.t) (ref : BatchRef) : M SyncChain unit :=
  batch <- gets (getBatch ref) ;;
  if negb (BatchStatus_eqb (statusOf (Batch.state batch)) AwaitingDownload)
  then ret tt
  else
    match bestPeerToRetryBatch deps peers_ snapshot batch with
    | Some p => sendBatch_start triggerBatchDownloader ref p
    | None => ret tt
    end.

(** The body of its second loop: find the next pending batch and request it
    from the peer; [false] is its [break]. *)
Definition requestBatches_fill (triggerBatchDownloader : M SyncChain unit) (p : PeerId)
  : M SyncChain bool :=
  batch <- includeNextBatch ;;
  match batch with
  | None => ret false
  | Some ref => sendBatch_start triggerBatchDownloader ref p ;; ret true
  end.

(** Attempts to request the next required batches from the peer pool if the
    chain is syncing: the body of [requestBatches], over the
    [triggerBatchDownloader] that the [catch] of [sendBatch] calls. *)
Definition requestBatches_body (triggerBatchDownloader : M SyncChain unit)
  (peers_ : list PeerId) : M SyncChain unit :=
  this <- get ;;
  if negb (isSyncing this) then ret tt
  else
    (* new ChainPeersBalancer(peers, toArr(this.batches)) *)
    let snapshot := toArr this in
    forEach (mapValues (batches this))
      (requestBatches_retry triggerBatchDownloader peers_ snapshot) ;;
    forEachBreak (idlePeers deps peers_ snapshot)
      (requestBatches_fill triggerBatchDownloader).

(** [fuel] bounds the calls of [triggerBatchDownloader] nested through the
    [catch] of [sendBatch]. *)
Fixpoint requestBatches (fuel : nat) (peers_ : list PeerId) : M SyncChain unit :=
  match fuel with
  | O => ret tt
  | S fuel' =>
      requestBatches_body
        (tryCatch
           (ps <- gets getPeers ;; requestBatches fuel' ps)
           (fun e => modify (batchProcessor_end e)))
        peers_
  end.

(** One level of nesting is all a call can use: see [requestBatches_fuel]. *)
Definition triggerBatchDownloader : M SyncChain unit :=
  tryCatch
    (ps <- gets getPeers ;; requestBatches 1 ps)
    (fun e => modify (batchProcessor_end e)).

(** [sendBatch] from the settlement of the download on. *)
Definition sendBatch_resume (ref : BatchRef) (res : option (list SignedBeaconBlock))
  : M SyncChain unit :=
  tryCatch
    (match res with
     | Some blocks =>
         onBatch ref (Batch.downloadingSuccess blocks) ;;
         triggerBatchProcessor
     | None =>
         onBatch ref Batch.downloadingError (* Throws after MAX_DOWNLOAD_ATTEMPTS *)
     end ;;
     triggerBatchDownloader)
    (fun e => modify (batchProcessor_end e)) ;;
  triggerBatchDownloader.

Definition computeTarget : M SyncChain unit :=
  modify
    (fun this => setTarget (computeMostCommonTarget deps (peerMapValues (peerset this))) this).

(** Start syncing a new chain or an old one with an existing peer list. *)
Definition startSyncing (localFinalizedEpoch : Epoch) : M SyncChain unit :=
  this <- get ;;
  match status this with
  | SyncChainStatus.Syncing => ret tt (* Skip, already started *)
  | SyncChainStatus.Error | SyncChainStatus.Synced =>
      throw (SyncChainStartError "Attempted to start an ended SyncChain")
  | SyncChainStatus.Stopped =>
      modify (setStatus SyncChainStatus.Syncing) ;;
      let localFinalizedEpochAligned :=
        startEpoch this
        + (localFinalizedEpoch - startEpoch this) / EPOCHS_PER_BATCH * EPOCHS_PER_BATCH in
      advanceChain localFinalizedEpochAligned ;;
      triggerBatchDownloader ;;
      triggerBatchProcessor
  end.

(** Temporarily stop the chain. *)
Definition stopSyncing : M SyncChain unit :=
  modify (setStatus SyncChainStatus.Stopped).

(** Permanently remove this chain. *)
Definition remove : M SyncChain unit :=
  modify (batchProcessor_end ErrorAborted).

Definition addPeer (p : PeerId) (target_ : ChainTarget) : M SyncChain unit :=
  modify (fun this => setPeerset (peerMapSet (peerset this) p target_) this) ;;
  computeTarget ;;
  triggerBatchDownloader.

Definition removePeer (p : PeerId) : M SyncChain bool :=
  deleted <- gets (fun this => peerMapHas (peerset this) p) ;;
  modify (fun this => setPeerset (peerMapDelete (peerset this) p) this) ;;
  computeTarget ;;
  ret deleted.

(** How a call of [processChainSegment] settles: it returns, or throws a
    [ChainSegmentError] carrying [importedBlocks] (the class is of
    [chain/errors], of which range/chain.ts reads this one field), or throws
    something else. *)
Inductive ProcessResult :=
| Processed
| ChainSegmentError (importedBlocks : Z)
| OtherProcessError.

(** [processBatch] up to its [await]. *)
Definition processBatch_start (ref : BatchRef) : M SyncChain unit :=
  blocks <- onBatch ref (Batch.startProcessing (hashBlocks deps)) ;;
  emit (ProcessChainSegment blocks) ;;
  modify (setSyncLoop (AwaitingProcessChainSegment ref blocks)).

(** [processBatch] from the settlement of [processChainSegment] on. *)
Definition processBatch_resume (ref : BatchRef) (blocks : list SignedBeaconBlock)
  (res : ProcessResult) : M SyncChain unit :=
  batchStartEpoch <- gets (fun this => Batch.startEpoch (getBatch ref this)) ;;
  match res with
  | Processed =>
      onBatch ref Batch.processingSuccess ;;
      (* If the processed batch is not empty, validate previous AwaitingValidation blocks. *)
      (if 0 <? len blocks then advanceChain batchStartEpoch else ret tt) ;;
      (* Potentially process next AwaitingProcessing batch *)
      triggerBatchProcessor
  | _ =>
      onBatch ref Batch.processingError ;; (* Throws after MAX_BATCH_PROCESSING_ATTEMPTS *)
      (* At least one block was successfully verified and imported *)
      match res with
      | ChainSegmentError importedBlocks =>
          if 0 <? importedBlocks then advanceChain batchStartEpoch else ret tt
      | _ => ret tt
      end ;;
      (* All previous batches (AwaitingValidation) are marked for retry. *)
      pending <- gets (fun this => mapValues (batches this)) ;;
      forEach pending
        (fun pendingRef =>
           pendingBatch <- gets (getBatch pendingRef) ;;
           if Batch.startEpoch pendingBatch <? batchStartEpoch
           then onBatch pendingRef Batch.validationError
           else ret tt)
  end ;;
  (* queue has an empty spot to download next batch *)
  triggerBatchDownloader.


(** The [catch] clause of [sync]: it returns on an abort, and otherwise sets
    the status, reports, and throws again. *)
Definition sync_catch (e : Error) : M SyncChain unit :=
  match e with
  | ErrorAborted => ret tt (* Ignore *)
  | _ =>
      modify (setStatus SyncChainStatus.Error) ;;
      match e with
      | BatchError BatchErrorCode.MAX_PROCESSING_ATTEMPTS =>
          ps <- gets getPeers ;;
          forEach ps
            (fun p => reportPeer p LowToleranceError "SyncChainMaxProcessingAttempts")
      | _ => ret tt
      end ;;
      throw e
  end.

(** Modelled from the spec: util/itTrigger is not among the sources.
    [next()] of the trigger as the [for await] of [sync] sees it: it throws
    the error the trigger was ended with, yields when triggered ([true]), and
    otherwise stays pending ([false]). *)
Definition batchProcessor_next : M SyncChain bool :=
  this <- get ;;
  match error (batchProcessor this) with
  | Some e => throw e
  | None =>
      if triggered (batchProcessor this)
      then
        modify (setBatchProcessor {| triggered := false; error := None |}) ;;
        ret true
      else ret false
  end.

(** What one turn of the loop of [sync] leaves to do. *)
Inductive LoopExit := LoopContinue | LoopBreak.

(** The body of the [for await] loop, up to the [await] of [processBatch]. *)
Definition sync_body : M SyncChain LoopExit :=
  this <- get ;;
  if negb (isSyncing this) then ret LoopContinue
  else
    match validateBatchesStatus (toArr this) with
    | Throw e => throw e
    | Ok _ =>
        (* If startEpoch of the next batch to be processed > targetEpoch -> Done *)
        let toBeProcessedEpoch :=
          toBeProcessedStartEpoch (toArr this) (startEpoch this) (opts this) in
        if match target this with
           | Some t =>
               slot t <=? computeStartSlotAtEpoch (SLOTS_PER_EPOCH (config this)) toBeProcessedEpoch
           | None => false
           end
        then ret LoopBreak
        else
          (* Processes the next batch if ready *)
          match
            getNextBatchToProcess (fun ref => Batch.state (getBatch ref this))
              (mapValues (batches this))
          with
          | Some ref => processBatch_start ref ;; ret LoopContinue
          | None => ret LoopContinue
          end
    end.

(** The promise of [sync()] settles: the constructor's [then] calls [onEnd]. *)
Definition sync_settle (r : result unit) : M SyncChain unit :=
  emit (OnEnd match r with Ok _ => None | Throw e => Some e end) ;;
  modify (setSyncLoop Settled).

(** Runs a stretch [m] of [sync] inside its [try]: a [LoopBreak] leaves the
    loop ([Synced]), a throw goes through [sync_catch]; in both cases the
    promise settles.  On [LoopContinue] the loop is back at [next()], unless
    [m] suspended it on [processChainSegment]. *)
Definition sync_run (m : M SyncChain LoopExit) : M SyncChain unit :=
  fun this =>
    match m this with
    | (Ok LoopContinue, this') => (Ok tt, this')
    | (Ok LoopBreak, this') =>
        sync_settle (Ok tt) (setStatus SyncChainStatus.Synced this')
    | (Throw e, this') =>
        let (r, this'') := sync_catch e this' in
        sync_settle r this''
    end.

(** What can happen to a chain: the calls of its public methods, and the
    resumptions of its suspended code. *)
Inductive Label :=
| CallStartSyncing (localFinalizedEpoch : Epoch)
| CallStopSyncing
| CallRemove
| CallAddPeer (p : PeerId) (target_ : ChainTarget)
| CallRemovePeer (p : PeerId)
| TriggerSettles
| DownloadSettles (ref : BatchRef) (res : option (list SignedBeaconBlock))
| ProcessSettles (res : ProcessResult).

Definition hasRef (ref : BatchRef) (l : list BatchRef) : bool := existsb (Nat.eqb ref) l.

Fixpoint removeRef (ref : BatchRef) (l : list BatchRef) : list BatchRef :=
  match l with
  | [] => []
  | x :: l' => if Nat.eqb ref x then l' else x :: removeRef ref l'
  end.

(** [stepChain l this] is [None] when [l] cannot happen in [this]; a throw of a
    public method goes to its caller and the chain keeps the state reached. *)
Definition stepChain (l : Label) (this : SyncChain) : option SyncChain :=
  match l with
  | CallStartSyncing e => Some (snd (startSyncing e this))
  | CallStopSyncing => Some (snd (stopSyncing this))
  | CallRemove => Some (snd (remove this))
  | CallAddPeer p t => Some (snd (addPeer p t this))
  | CallRemovePeer p => Some (snd (removePeer p this))
  | TriggerSettles =>
      match syncLoop this with
      | AwaitingTrigger =>
          match error (batchProcessor this), triggered (batchProcessor this) with
          | None, false => None
          | _, _ =>
              Some (snd (sync_run
                           (yielded <- batchProcessor_next ;;
                            if (yielded : bool) then sync_body else ret LoopContinue)
                           this))
          end
      | _ => None
      end
  | DownloadSettles ref res =>
      if hasRef ref (pendingDownloads this)
      then
        Some (snd (sendBatch_resume ref res
                     (setPendingDownloads (removeRef ref (pendingDownloads this)) this)))
      else None
  | ProcessSettles res =>
      match syncLoop this with
      | AwaitingProcessChainSegment ref blocks =>
          Some (snd (sync_run
                       (processBatch_resume ref blocks res ;; ret LoopContinue)
                       (setSyncLoop AwaitingTrigger this)))
      | _ => None
      end
  end.

Fixpoint run (ls : list Label) (this : SyncChain) : option SyncChain :=
  match ls with
  | [] => Some this
  | l :: ls' =>
      match stepChain l this with
      | Some this' => run ls' this'
      | None => None
      end
  end.

End WithDeps.

(** *** range/utils/updateChains.ts

    A [SyncChain] object in the array is its address and its state: [!==]
    compares addresses. *)

Definition ChainRef := nat.

Record ChainUpdate := { toStart : list ChainRef; toStop : list ChainRef }.

Definition updateFinalizedChains (finalizedChains : list (ChainRef * SyncChain))
  : option ChainUpdate :=
  (* Find the chain with most peers and check if it is already syncing *)
  let preferredSyncChains :=
    sortBy finalizedChains
      [ (fun syncChain => peers (snd syncChain));
        (fun syncChain => if isSyncing (snd syncChain) then 1 else 0) ] in
  match hd_error preferredSyncChains with
  | None => None (* No finalized chain to sync *)
  | Some newSyncChain =>
      match find (fun syncChain => isSyncing (snd syncChain)) finalizedChains with
      | None => Some {| toStart := [fst newSyncChain]; toStop := [] |}
      | Some currentSyncChain =>
          if negb (Nat.eqb (fst newSyncChain) (fst currentSyncChain))
             && (peers (snd currentSyncChain) <? peers (snd newSyncChain))
             && (MIN_FINALIZED_CHAIN_VALIDATED_EPOCHS
                 <? validatedEpochs (snd currentSyncChain))
          then
            (* Switch from currentSyncChain to newSyncChain *)
            Some {| toStart := [fst newSyncChain]; toStop := [fst currentSyncChain] |}
          else
            (* Keep syncing currentSyncChains *)
            Some {| toStart := []; toStop := [] |}
      end
  end.

Definition updateHeadChains (headChains : list (ChainRef * SyncChain)) : ChainUpdate :=
  let preferredSyncChains :=
    sortBy headChains
      [ (fun syncChain => peers (snd syncChain));
        (fun syncChain => if isSyncing (snd syncChain) then 1 else 0) ] in
  fold_left
    (fun acc syncChain =>
       if len (toStart acc) <? PARALLEL_HEAD_CHAINS
       then {| toStart := toStart acc ++ [fst syncChain]; toStop := toStop acc |}
       else {| toStart := toStart acc; toStop := toStop acc ++ [fst syncChain] |})
    preferredSyncChains {| toStart := []; toStop := [] |}.

(** Priotize existing chains based on their target and peer count. *)
Definition updateChains (chains : list (ChainRef * SyncChain)) : ChainUpdate :=
  let finalizedChains :=
    filter (fun c => match syncType (snd c) with Finalized => true | Head => false end)
      chains in
  let headChains :=
    filter (fun c => match syncType (snd c) with Finalized => false | Head => true end)
      chains in
  match updateFinalizedChains finalizedChains with
  | Some u => u
  | None => updateHeadChains headChains
  end.

End Range.


(* ------------------------------------------------------------------------- *)
(** ** Concrete values for examples *)

Module Examples.
Import Range.

Definition config32 : IBeaconConfig := {| SLOTS_PER_EPOCH := 32 |}.

Definition farTarget : ChainTarget := {| slot := 1000; root := [] |}.

Definition block1 : SignedBeaconBlock := {| blockSlot := 1; blockRoot := [Byte.x01] |}.

Definition downloadsOf (p : PeerId) (bs : list Batch.t) : Z :=
  len (filter
         (fun b =>
            match Batch.state b with
            | StDownloading q _ => String.eqb p q
            | _ => false
            end) bs).

(** A peer balancer that retries with the first peer and keeps the idle
    peers in their order, a hash that concatenates the block roots, and the
    first target as the most common one. *)
Definition deps : Deps :=
  {| hashBlocks := fun _ blocks => List.concat (map blockRoot blocks);
     computeMostCommonTarget := fun targets => hd_error targets;
     bestPeerToRetryBatch := fun ps _ _ => hd_error ps;
     idlePeers := fun ps bs => filter (fun p => downloadsOf p bs =? 0) ps |}.

(** A chain of one peer that has started syncing from epoch 0. *)
Definition started : list Label := [CallAddPeer "peer1" farTarget; CallStartSyncing 0].

(** The download of batch 0 fails four times; it is requested a fifth time. *)
Definition fourFailedDownloads : list Label :=
  started ++ repeat (DownloadSettles 0%nat None) 4.

Definition chainAfter (ls : list Label) : SyncChain :=
  let c0 := newSyncChain 0 Finalized config32 None in
  match run deps ls c0 with
  | Some c => c
  | None => c0
  end.

(** A batch of asStateMachine/batch.ts in Downloading with four failed
    download attempts. *)
Definition asBatchFourFailures : AsStateMachine.Batch.t :=
  {| AsStateMachine.Batch.id := 0;
     AsStateMachine.Batch.state := StDownloading "peer1" [];
     AsStateMachine.Batch.request := {| startSlot := 1; count := 64; step := 1 |};
     AsStateMachine.Batch.failedProcessingAttempts := [];
     AsStateMachine.Batch.failedDownloadAttempts := ["peer1"; "peer2"; "peer1"; "peer2"];
     AsStateMachine.Batch.config := config32 |}.

(** The processor is held on batch 0 (its [processChainSegment] does not
    settle) while the downloads of the batches that follow succeed. *)
Definition heldOnBatch0 (downloads : list BatchRef) : list Label :=
  started
  ++ [DownloadSettles 0%nat (Some [block1]); TriggerSettles]
  ++ map (fun ref => DownloadSettles ref (Some [block1])) downloads.

Definition summary (c : SyncChain) : list (Epoch * BatchStatus) :=
  map (fun b => (Batch.startEpoch b, statusOf (Batch.state b))) (toArr c).

(** asStateMachine: batch 0 in Processing, then the batches of [epochs] in
    AwaitingProcessing. *)
Definition asBatchIn (e : Epoch) (st : BatchState) : AsStateMachine.Batch.t :=
  AsStateMachine.Batch.setState st (AsStateMachine.Batch.newBatch config32 e EPOCHS_PER_BATCH).

Definition asHeld (epochs : list Epoch) (next : Epoch) : AsStateMachine.SyncingChain :=
  {| AsStateMachine.startEpoch := 0;
     AsStateMachine.downloaderTarget := next;
     AsStateMachine.processorTarget := 0;
     AsStateMachine.validatedBatches := 0;
     AsStateMachine.batches :=
       (0, asBatchIn 0 (StProcessing {| peer := "peer1"; hash := [] |}))
       :: map (fun e => (e, asBatchIn e (StAwaitingProcessing "peer1" [block1]))) epochs;
     AsStateMachine.peerSet :=
       Some {| AsStateMachine.peers := ["peer1"]; AsStateMachine.targetEpoch := 100 |};
     AsStateMachine.config := config32;
     AsStateMachine.requests := [] |}.

Definition asSummary (c : AsStateMachine.SyncingChain) : list (Epoch * BatchStatus) :=
  map (fun kv => (fst kv, statusOf (AsStateMachine.Batch.state (snd kv))))
    (AsStateMachine.batches c).

Definition block2 : SignedBeaconBlock := {| blockSlot := 2; blockRoot := [Byte.x02] |}.

(** Batch 0 is downloaded from peer1 and fails processing; it is downloaded
    again from peer1 with other blocks and is processed; batch 2 is downloaded
    and given to the processor. *)
Definition selfCorrected : list Label :=
  started
  ++ [DownloadSettles 0%nat (Some [block1]); TriggerSettles; ProcessSettles OtherProcessError;
      DownloadSettles 0%nat (Some [block2]); TriggerSettles; ProcessSettles Processed;
      DownloadSettles 1%nat (Some [block1]); TriggerSettles].

(** The chain is stopped while batch 0 is being downloaded. *)
Definition stoppedWhileDownloading : list Label := started ++ [CallStopSyncing].

(** The chain is stopped when batch 0 is downloaded and batch 2 is being
    downloaded. *)
Definition stoppedBeforeProcessing : list Label :=
  started ++ [DownloadSettles 0%nat (Some [block1]); CallStopSyncing].

(** A chain built with four epochs per batch. *)
Definition chainOfFour : SyncChain :=
  newSyncChain 0 Finalized config32 (Some {| epochsPerBatch := 4 |}).

(** The fifth download of batch 0 fails too and the loop of [sync] takes the
    error: the chain has ended in [Error]. *)
Definition endedInError : list Label :=
  fourFailedDownloads ++ [DownloadSettles 0%nat None; TriggerSettles].

(** Batch 0 fails processing twice and is given to the processor a third
    time. *)
Definition twoFailedProcessings : list Label :=
  started
  ++ [DownloadSettles 0%nat (Some [block1]); TriggerSettles; ProcessSettles OtherProcessError;
      DownloadSettles 0%nat (Some [block1]); TriggerSettles; ProcessSettles OtherProcessError;
      DownloadSettles 0%nat (Some [block1]); TriggerSettles].


(** The processor is held on batch 0 while the download of batch 2 fails
    four times; it is requested a fifth time. *)
Definition fourFailedWhileProcessing : list Label :=
  heldOnBatch0 [] ++ repeat (DownloadSettles 1%nat None) 4.



(** asStateMachine: batches 0 and 2 both wait for a download. *)
Definition asTwoWaiting : AsStateMachine.SyncingChain :=
  {| AsStateMachine.startEpoch := 0;
     AsStateMachine.downloaderTarget := 4;
     AsStateMachine.processorTarget := 0;
     AsStateMachine.validatedBatches := 0;
     AsStateMachine.batches :=
       [(0, AsStateMachine.Batch.newBatch config32 0 EPOCHS_PER_BATCH);
        (2, AsStateMachine.Batch.newBatch config32 2 EPOCHS_PER_BATCH)];
     AsStateMachine.peerSet := None;
     AsStateMachine.config := config32;
     AsStateMachine.requests := [] |}.


(** A finalized chain with the given peers, status and validated epochs. *)
Definition finalizedChain (ps : list PeerId) (st : SyncChainStatus.t) (validated : Z)
  : SyncChain :=
  setValidatedEpochs validated
    (setStatus st
       (setPeerset (map (fun p => (p, farTarget)) ps)
          (newSyncChain 0 Finalized config32 None))).

Definition fivePeers : list PeerId := ["peer1"; "peer2"; "peer3"; "peer4"; "peer5"].

(** A chain whose only peer has its target at slot 0: started at epoch 0, it
    has nothing to download. *)
Definition genesisTarget : ChainTarget := {| slot := 0; root := [] |}.

Definition startedAtTarget : list Label :=
  [CallAddPeer "peer1" genesisTarget; CallStartSyncing 0].

End Examples.
(* ========================================================================= *)
(** * Properties *)

(** ** The ordering pattern of batches *)

Section Pattern.

Lemma isPreProcessing_matches s :
  isPreProcessing s = true -> matches rePreProcessing [s].
Proof.
  destruct s; simpl; intro H; try discriminate; unfold rePreProcessing.
  - apply m_alt_l. constructor.
  - apply m_alt_r, m_alt_l. constructor.
  - apply m_alt_r, m_alt_r. constructor.
Qed.

Lemma matches_rePreProcessing l :
  matches rePreProcessing l -> exists s, l = [s] /\ isPreProcessing s = true.
Proof.
  unfold rePreProcessing. intro H.
  inversion H as [| | ? ? ? H1 | ? ? ? H1 | | |]; subst.
  - inversion H1; subst. eexists; split; reflexivity.
  - inversion H1 as [| | ? ? ? H2 | ? ? ? H2 | | |]; subst;
      inversion H2; subst; eexists; split; reflexivity.
Qed.

Lemma star_pre_forallb l :
  matches (Star rePreProcessing) l <-> forallb isPreProcessing l = true.
Proof.
  split.
  - intro H. remember (Star rePreProcessing) as r eqn:Hr.
    induction H; try discriminate.
    + reflexivity.
    + injection Hr as ->.
      destruct (matches_rePreProcessing _ H) as (s & -> & Hs).
      simpl. rewrite Hs. simpl. auto.
  - induction l as [|s l IH]; simpl; intro H.
    + constructor.
    + apply andb_true_iff in H as [Hs Hl].
      change (s :: l) with ([s] ++ l).
      constructor; auto using isPreProcessing_matches.
Qed.

Lemma star_chr_repeat s l :
  matches (Star (Chr s)) l -> l = repeat s (List.length l).
Proof.
  intro H. remember (Star (Chr s)) as r eqn:Hr.
  induction H; try discriminate.
  - reflexivity.
  - injection Hr as ->. inversion H; subst. simpl. f_equal. auto.
Qed.

Lemma repeat_star_chr s n : matches (Star (Chr s)) (repeat s n).
Proof.
  induction n; simpl.
  - constructor.
  - change (s :: repeat s n) with ([s] ++ repeat s n). constructor; [constructor | auto].
Qed.

Lemma forallb_pre_orderedb l : forallb isPreProcessing l = true -> orderedb l = true.
Proof. destruct l as [|[] l]; simpl; auto; discriminate. Qed.

Lemma matches_batchesPattern_orderedb l :
  matches batchesPattern l <-> orderedb l = true.
Proof.
  unfold batchesPattern. split.
  - intro H.
    inversion H as [| | | | ? ? l1 l23 H1 H23 | |]; subst.
    inversion H23 as [| | | | ? ? l2 l3 H2 H3 | |]; subst.
    apply star_pre_forallb in H3.
    apply star_chr_repeat in H1. rewrite H1.
    generalize (List.length l1). intro n. induction n as [|n IH]; simpl; auto.
    unfold Opt in H2.
    inversion H2 as [| | ? ? ? H2' | ? ? ? H2' | | |]; subst; inversion H2'; subst; simpl.
    + exact H3.
    + apply forallb_pre_orderedb. exact H3.
  - induction l as [|s l IH]; intro H.
    + change (@nil BatchStatus) with (@nil BatchStatus ++ ([] ++ [])).
      constructor; [constructor|]. constructor; [apply m_alt_r; constructor | constructor].
    + assert (Hpre : forallb isPreProcessing (s :: l) = true ->
                     matches (Seq (Star (Chr AwaitingValidation))
                                (Seq (Opt (Chr Processing)) (Star rePreProcessing)))
                       (s :: l)).
      { intro Hp. change (s :: l) with ([] ++ ([] ++ s :: l)).
        constructor; [constructor|].
        constructor; [apply m_alt_r; constructor | apply star_pre_forallb; exact Hp]. }
      destruct s; simpl in H; try (apply Hpre; simpl; exact H).
      * change (Processing :: l) with ([] ++ ([Processing] ++ l)).
        constructor; [constructor|].
        constructor; [apply m_alt_l; constructor | apply star_pre_forallb; exact H].
      * specialize (IH H).
        inversion IH as [| | | | ? ? l1 l23 H1 H23 | |]; subst.
        change (AwaitingValidation :: l1 ++ l23)
          with (([AwaitingValidation] ++ l1) ++ l23).
        constructor; [|exact H23].
        constructor; [constructor | exact H1].
Qed.

End Pattern.

Section ValidateBatchesStatus.
Import Range.

Lemma validateBatchesStatus_from_throws processing preProcessing batches :
  validateBatchesStatus_from processing preProcessing batches = Ok tt
  \/ exists msg,
      validateBatchesStatus_from processing preProcessing batches = Throw (PlainError msg).
Proof.
  revert processing preProcessing.
  induction batches as [|batch rest IH]; intros p q; simpl.
  - left; reflexivity.
  - destruct (statusOf (Batch.state batch)); try apply IH;
      destruct (0 <? p), (0 <? q); try apply IH; right; eexists; reflexivity.
Qed.

(** The loop of [validateBatchesStatus] from counters [processing] and
    [preProcessing]: once one of them is positive only pre-processing
    batches may follow. *)
Lemma validateBatchesStatus_from_spec processing preProcessing batches :
  0 <= processing -> 0 <= preProcessing ->
  validateBatchesStatus_from processing preProcessing batches = Ok tt
  <-> (if (0 <? processing) || (0 <? preProcessing)
       then forallb isPreProcessing (statuses batches)
       else orderedb (statuses batches)) = true.
Proof.
  revert processing preProcessing.
  induction batches as [|batch rest IH]; intros p q Hp Hq; simpl.
  - destruct ((0 <? p) || (0 <? q)); tauto.
  - destruct (statusOf (Batch.state batch)) eqn:Hs; simpl.
    + rewrite IH by lia.
      replace (0 <? q + 1) with true by (symmetry; apply Z.ltb_lt; lia).
      rewrite orb_true_r.
      destruct ((0 <? p) || (0 <? q)); tauto.
    + rewrite IH by lia.
      replace (0 <? q + 1) with true by (symmetry; apply Z.ltb_lt; lia).
      rewrite orb_true_r.
      destruct ((0 <? p) || (0 <? q)); tauto.
    + rewrite IH by lia.
      replace (0 <? q + 1) with true by (symmetry; apply Z.ltb_lt; lia).
      rewrite orb_true_r.
      destruct ((0 <? p) || (0 <? q)); tauto.
    + destruct (0 <? q) eqn:Eq.
      * rewrite orb_true_r. split; discriminate.
      * destruct (0 <? p) eqn:Ep; simpl.
        -- split; discriminate.
        -- rewrite IH by lia.
           replace (0 <? p + 1) with true by (symmetry; apply Z.ltb_lt; lia).
           simpl. tauto.
    + destruct (0 <? p) eqn:Ep; simpl.
      * split; discriminate.
      * destruct (0 <? q) eqn:Eq.
        -- split; discriminate.
        -- rewrite IH by lia. rewrite Ep, Eq. simpl. tauto.
Qed.

(** C1.  [validateBatchesStatus batches] returns without error exactly when
    the statuses of the batches, in the order of the array, match
    [AwaitingValidation* Processing? (AwaitingDownload|Downloading|AwaitingProcessing)*];
    on any other sequence it throws an [Error]. *)
Theorem validateBatchesStatus_iff_pattern (batches : list Batch.t) :
  (validateBatchesStatus batches = Ok tt
   <-> matches batchesPattern (statuses batches))
  /\ (~ matches batchesPattern (statuses batches) ->
      exists msg, validateBatchesStatus batches = Throw (PlainError msg)).
Proof.
  assert (Hiff : validateBatchesStatus batches = Ok tt
                 <-> matches batchesPattern (statuses batches)).
  { unfold validateBatchesStatus.
    rewrite validateBatchesStatus_from_spec by lia. simpl.
    symmetry. apply matches_batchesPattern_orderedb. }
  split; [exact Hiff|].
  intro Hn.
  destruct (validateBatchesStatus_from_throws 0 0 batches) as [Hok | Hthrow].
  - exfalso. apply Hn, Hiff, Hok.
  - exact Hthrow.
Qed.

End ValidateBatchesStatus.

(** ** Reasoning on computations *)

Section Preserves.
Context {S : Type} (R : S -> S -> Prop).

Lemma preserves_ret {A} (a : A) : preorder R -> preserves R (ret a).
Proof. intros HR s r s' H. inversion H; subst. apply (po_refl R HR). Qed.

Lemma preserves_throw {A} e : preorder R -> preserves R (@throw S A e).
Proof. intros HR s r s' H. inversion H; subst. apply (po_refl R HR). Qed.

Lemma preserves_get : preorder R -> preserves R (@get S).
Proof. intros HR s r s' H. inversion H; subst. apply (po_refl R HR). Qed.

Lemma preserves_gets {A} (f : S -> A) : preorder R -> preserves R (gets f).
Proof. intros HR s r s' H. inversion H; subst. apply (po_refl R HR). Qed.

Lemma preserves_modify (f : S -> S) : (forall s, R s (f s)) -> preserves R (modify f).
Proof. intros Hf s r s' H. inversion H; subst. apply Hf. Qed.

Lemma preserves_bind {A B} (m : M S A) (k : A -> M S B) :
  preorder R -> preserves R m -> (forall a, preserves R (k a)) -> preserves R (bind m k).
Proof.
  intros HR Hm Hk s r s' H. unfold bind in H.
  destruct (m s) as [[a|e] s1] eqn:E.
  - eapply (po_trans R HR); [eapply Hm; exact E | eapply Hk; exact H].
  - inversion H; subst. eapply Hm; exact E.
Qed.

Lemma preserves_tryCatch {A} (m : M S A) (handler : Error -> M S A) :
  preorder R -> preserves R m -> (forall e, preserves R (handler e)) ->
  preserves R (tryCatch m handler).
Proof.
  intros HR Hm Hh s r s' H. unfold tryCatch in H.
  destruct (m s) as [[a|e] s1] eqn:E.
  - inversion H; subst. eapply Hm; exact E.
  - eapply (po_trans R HR); [eapply Hm; exact E | eapply Hh; exact H].
Qed.

Lemma preserves_forEach {T} (l : list T) (body : T -> M S unit) :
  preorder R -> (forall x, preserves R (body x)) -> preserves R (forEach l body).
Proof.
  intros HR Hb. induction l as [|x l IH]; simpl.
  - apply preserves_ret, HR.
  - apply preserves_bind; auto.
Qed.

Lemma preserves_forEachBreak {T} (l : list T) (body : T -> M S bool) :
  preorder R -> (forall x, preserves R (body x)) -> preserves R (forEachBreak l body).
Proof.
  intros HR Hb. induction l as [|x l IH]; simpl.
  - apply preserves_ret, HR.
  - apply preserves_bind; auto. intros []; [exact IH | apply preserves_ret, HR].
Qed.

Lemma preserves_snd {A} (m : M S A) s : preserves R m -> R s (snd (m s)).
Proof. intro Hm. destruct (m s) as [r s'] eqn:E. simpl. eapply Hm; exact E. Qed.

End Preserves.

(** Decomposes a goal [preserves R m] along the structure of [m]. *)
Ltac preserves_step HR :=
  match goal with
  | |- preserves _ (bind _ _) => apply preserves_bind; [exact HR | | intro]
  | |- preserves _ (ret _) => apply preserves_ret; exact HR
  | |- preserves _ (throw _) => apply preserves_throw; exact HR
  | |- preserves _ get => apply preserves_get; exact HR
  | |- preserves _ (gets _) => apply preserves_gets; exact HR
  | |- preserves _ (tryCatch _ _) => apply preserves_tryCatch; [exact HR | | intro]
  | |- preserves _ (forEach _ _) => apply preserves_forEach; [exact HR | intro]
  | |- preserves _ (forEachBreak _ _) => apply preserves_forEachBreak; [exact HR | intro]
  | |- preserves _ (modify _) => apply preserves_modify; intro
  | |- preserves _ (if ?b then _ else _) => destruct b
  | |- preserves _ (match ?x with _ => _ end) => destruct x
  end.

(** ** Frames of the chain operations *)

Import Range.

Lemma onEnds_app evs ev :
  onEnds (evs ++ [ev]) = onEnds evs ++ (if isOnEnd ev then [ev] else []).
Proof. unfold onEnds. rewrite filter_app. simpl. destruct (isOnEnd ev); reflexivity. Qed.

Lemma onEnds_app_other evs ev : isOnEnd ev = false -> onEnds (evs ++ [ev]) = onEnds evs.
Proof. intro H. rewrite onEnds_app, H. apply app_nil_r. Qed.

Lemma preorder_advances : preorder advances.
Proof. split; unfold advances; intros; intuition lia. Qed.

Lemma preorder_keepsStatus : preorder keepsStatus.
Proof. split; unfold keepsStatus; intros; congruence. Qed.

Lemma preorder_keepsLoop : preorder keepsLoop.
Proof. split; unfold keepsLoop; intros; intuition congruence. Qed.

Lemma preorder_progress : preorder progress.
Proof.
  split; unfold progress; intros.
  - split; [apply preorder_advances | apply preorder_keepsLoop].
  - split; [eapply (po_trans _ preorder_advances) | eapply (po_trans _ preorder_keepsLoop)];
      intuition eauto.
Qed.

Lemma preorder_steady : preorder steady.
Proof.
  split; unfold steady; intros.
  - split; [apply preorder_progress | reflexivity].
  - split; [eapply (po_trans _ preorder_progress); intuition eauto | intuition congruence].
Qed.

Lemma preorder_running : preorder running.
Proof.
  split; unfold running.
  - intros. split; [apply preorder_advances | auto].
  - intros a b c (Ha & He & Hp & Hl) (Ha' & He' & Hp' & Hl').
    split; [eapply (po_trans _ preorder_advances); eauto|].
    split; [congruence|]. split; [congruence|].
    destruct Hl' as [Hl'|Hl']; [left; exact Hl'|].
    destruct Hl as [Hl|Hl]; [left | right]; congruence.
Qed.

Lemma steady_running s s' : steady s s' -> running s s'.
Proof.
  unfold steady, progress, keepsLoop, running. intros [[? [? ?]] ?]. auto.
Qed.

Lemma preorder_control (le : Z -> Z -> Prop) :
  (forall x, le x x) -> (forall x y z, le x y -> le y z -> le x z) ->
  preorder (control le).
Proof.
  intros Hr Ht. split; unfold control.
  - intros. repeat split; auto.
  - intros a b c Hab Hbc.
    destruct Hab as (?&?&?&?&?&?&?&?&?&?&?), Hbc as (?&?&?&?&?&?&?&?&?&?&?).
    repeat split; try congruence; eauto.
Qed.

Lemma preorder_sameControl : preorder sameControl.
Proof. apply preorder_control; intros; congruence. Qed.

Lemma preorder_advancesControl : preorder advancesControl.
Proof. apply preorder_control; intros; lia. Qed.

Lemma preorder_countsControl : preorder countsControl.
Proof.
  split; unfold countsControl.
  - intros. split; [reflexivity | apply preorder_advancesControl].
  - intros a b c [? ?] [? ?]. split; [congruence|].
    eapply (po_trans _ preorder_advancesControl); eauto.
Qed.

Lemma sameControl_advancesControl s s' : sameControl s s' -> advancesControl s s'.
Proof.
  unfold sameControl, advancesControl, control.
  intros (?&?&?&?&?&?&?&?&?&?&?). repeat split; auto; lia.
Qed.

Lemma advancesControl_steady s s' : advancesControl s s' -> steady s s'.
Proof.
  unfold advancesControl, control, steady, progress, advances, keepsLoop.
  intros (?&?&?&?&?&?&?&?&?&?&?). repeat split; auto.
Qed.

Lemma advancesControl_keepsStatus s s' : advancesControl s s' -> keepsStatus s s'.
Proof. unfold advancesControl, control, keepsStatus. intuition. Qed.

Lemma preserves_weaken {S A} (R R' : S -> S -> Prop) (m : M S A) :
  (forall s s', R s s' -> R' s s') -> preserves R m -> preserves R' m.
Proof. intros H Hm s r s' E. apply H. eapply Hm; exact E. Qed.

(** Closes a goal [R s (f s)] for one of the relations above and a field
    update [f]. *)
Ltac frame_leaf :=
  unfold countsControl, sameControl, advancesControl, control, running, steady, progress,
    advances, keepsLoop, keepsStatus, emit, reportPeer, putBatch, batchProcessor_end,
    batchProcessor_trigger;
  simpl;
  rewrite ?onEnds_app_other by reflexivity;
  repeat split; try reflexivity; try lia;
  try (right; reflexivity); try (left; discriminate).

Lemma preserves_onBatch {A} (R : SyncChain -> SyncChain -> Prop) ref (method : M Batch.t A) :
  (forall s b, R s (putBatch ref b s)) -> preserves R (onBatch ref method).
Proof.
  intros H s r s' E. unfold onBatch in E.
  destruct (method (getBatch ref s)) as [r' b']. inversion E; subst. apply H.
Qed.

Lemma preserves_emit (R : SyncChain -> SyncChain -> Prop) ev :
  (forall s, R s (setEvents (events s ++ [ev]) s)) -> preserves R (emit ev).
Proof. intro H. unfold emit. apply preserves_modify. exact H. Qed.

Lemma advanceChain_visit_countsControl newStartEpoch entry :
  preserves countsControl (advanceChain_visit newStartEpoch entry).
Proof.
  pose proof preorder_countsControl as HR.
  destruct entry as [batchKey ref]. unfold advanceChain_visit, advanceChain_penalize.
  repeat (preserves_step HR); try (apply preserves_onBatch; intros);
    try (apply preserves_emit; intros); try frame_leaf.
  all: unfold EPOCHS_PER_BATCH; lia.
Qed.

Lemma advanceChain_loop_countsControl newStartEpoch entries :
  preserves countsControl (forEach entries (advanceChain_visit newStartEpoch)).
Proof.
  apply preserves_forEach; [exact preorder_countsControl|]. intro.
  apply advanceChain_visit_countsControl.
Qed.

(** [advanceChain] keeps everything but the batches and the events that are
    not [onEnd], and moves the boundary and the count of validated epochs
    forward only. *)
Lemma advanceChain_advancesControl newStartEpoch :
  preserves advancesControl (advanceChain newStartEpoch).
Proof.
  intros s r s' E. unfold advanceChain in E.
  unfold bind at 1 in E. simpl in E.
  destruct (newStartEpoch <=? startEpoch s) eqn:Hle.
  - inversion E; subst. apply preorder_advancesControl.
  - apply Z.leb_gt in Hle. unfold bind at 1 in E.
    match type of E with
    | context [forEach ?l ?f s] =>
        destruct (forEach l f s) as [[[]|e] s1] eqn:Eloop;
        pose proof (advanceChain_loop_countsControl newStartEpoch l _ _ _ Eloop)
          as [Hstart Hctl]
    end.
    + unfold modify in E. inversion E; subst.
      unfold advancesControl, control in *. simpl.
      destruct Hctl as (?&?&?&?&?&?&?&?&?&?&?). repeat split; auto; lia.
    + inversion E; subst. exact Hctl.
Qed.


(** *** The downloader *)

Lemma bind_ext {S A B} (m : M S A) (k1 k2 : A -> M S B) s :
  (forall a s', k1 a s' = k2 a s') -> bind m k1 s = bind m k2 s.
Proof. intro H. unfold bind. destruct (m s) as [[a|e] s1]; auto. Qed.

Lemma forEach_ext {S T} (l : list T) (f g : T -> M S unit) :
  (forall x s, f x s = g x s) -> forall s, forEach l f s = forEach l g s.
Proof.
  intro H. induction l as [|x l IH]; intro s; simpl; auto.
  unfold bind. rewrite H. destruct (g x s) as [[a|e] s1]; auto.
Qed.

Lemma forEach_cons {S T} (x : T) (l : list T) (f : T -> M S unit) s :
  forEach (x :: l) f s
  = match f x s with
    | (Ok _, s') => forEach l f s'
    | (Throw e, s') => (Throw e, s')
    end.
Proof. reflexivity. Qed.

Lemma forEachBreak_ext {S T} (l : list T) (f g : T -> M S bool) :
  (forall x s, f x s = g x s) -> forall s, forEachBreak l f s = forEachBreak l g s.
Proof.
  intro H. induction l as [|x l IH]; intro s; simpl; auto.
  unfold bind. rewrite H. destruct (g x s) as [[[]|e] s1]; auto.
Qed.

Lemma statusOf_AwaitingDownload st :
  BatchStatus_eqb (statusOf st) AwaitingDownload = true -> st = StAwaitingDownload.
Proof. destruct st; simpl; intro H; try discriminate; reflexivity. Qed.

Section Downloader.
Variable deps : Deps.

(** On a batch in AwaitingDownload [startDownloading] does not throw, so
    the [catch] of [sendBatch] is not entered before the download is
    requested. *)
Lemma sendBatch_start_AwaitingDownload trig ref p s :
  Batch.state (getBatch ref s) = StAwaitingDownload ->
  sendBatch_start trig ref p s = sendBatch_start (ret tt) ref p s
  /\ fst (sendBatch_start trig ref p s) = Ok tt
  /\ sameControl s (snd (sendBatch_start trig ref p s)).
Proof.
  intro H.
  unfold sendBatch_start, tryCatch, bind, onBatch, Batch.startDownloading.
  rewrite H. simpl. repeat split; frame_leaf.
Qed.

Lemma requestBatches_retry_indep trig peers_ snapshot ref s :
  requestBatches_retry deps trig peers_ snapshot ref s
  = requestBatches_retry deps (ret tt) peers_ snapshot ref s.
Proof.
  unfold requestBatches_retry, bind, gets.
  destruct (BatchStatus_eqb (statusOf (Batch.state (getBatch ref s))) AwaitingDownload)
    eqn:E; simpl; auto.
  destruct (bestPeerToRetryBatch deps peers_ snapshot (getBatch ref s)); auto.
  apply sendBatch_start_AwaitingDownload, statusOf_AwaitingDownload, E.
Qed.

Lemma requestBatches_retry_sameControl trig peers_ snapshot ref :
  preserves sameControl (requestBatches_retry deps trig peers_ snapshot ref).
Proof.
  intros s r s' E. unfold requestBatches_retry, bind, gets in E.
  destruct (BatchStatus_eqb (statusOf (Batch.state (getBatch ref s))) AwaitingDownload)
    eqn:Est; simpl in E.
  - destruct (bestPeerToRetryBatch deps peers_ snapshot (getBatch ref s)).
    + apply statusOf_AwaitingDownload in Est.
      destruct (sendBatch_start_AwaitingDownload trig ref p s Est) as (_ & _ & H).
      rewrite E in H. exact H.
    + inversion E; subst. apply preorder_sameControl.
  - inversion E; subst. apply preorder_sameControl.
Qed.

Lemma nth_length_app {A} (l : list A) (x d : A) : nth (List.length l) (l ++ [x]) d = x.
Proof. rewrite app_nth2 by lia. rewrite Nat.sub_diag. reflexivity. Qed.

(** [includeNextBatch] does not throw; it keeps the control state, and the
    batch it returns is a new one in AwaitingDownload. *)
Lemma includeNextBatch_spec s :
  exists r,
    fst (includeNextBatch s) = Ok r
    /\ sameControl s (snd (includeNextBatch s))
    /\ forall ref, r = Some ref ->
         Batch.state (getBatch ref (snd (includeNextBatch s))) = StAwaitingDownload.
Proof.
  unfold includeNextBatch, bind, get. simpl.
  destruct (BATCH_BUFFER_SIZE <? _).
  { eexists; repeat split; try apply preorder_sameControl; discriminate. }
  destruct (match target s with Some t => _ | None => false end).
  { eexists; repeat split; try apply preorder_sameControl; discriminate. }
  destruct (mapHas (batches s) _).
  { eexists; repeat split; try apply preorder_sameControl; discriminate. }
  simpl. eexists. split; [reflexivity|]. split; [frame_leaf|].
  intros ref Href. inversion Href; subst.
  unfold getBatch. simpl. rewrite nth_length_app. reflexivity.
Qed.

Lemma requestBatches_fill_indep trig p s :
  requestBatches_fill trig p s = requestBatches_fill (ret tt) p s.
Proof.
  unfold requestBatches_fill, bind.
  destruct (includeNextBatch_spec s) as (r & Hr & _ & Hst).
  destruct (includeNextBatch s) as [r' s1]. simpl in *. subst r'.
  destruct r as [ref|]; auto.
  destruct (sendBatch_start_AwaitingDownload trig ref p s1 (Hst ref eq_refl)) as (-> & _).
  reflexivity.
Qed.

Lemma requestBatches_fill_sameControl trig p :
  preserves sameControl (requestBatches_fill trig p).
Proof.
  intros s r s' E. unfold requestBatches_fill, bind in E.
  destruct (includeNextBatch_spec s) as (x & Hx & Hctl & Hst).
  destruct (includeNextBatch s) as [r' s1]. simpl in *. subst r'.
  destruct x as [ref|].
  - destruct (sendBatch_start_AwaitingDownload trig ref p s1 (Hst ref eq_refl))
      as (_ & Hok & H).
    destruct (sendBatch_start trig ref p s1) as [r1 s2]. simpl in *. subst r1.
    inversion E; subst.
    eapply (po_trans _ preorder_sameControl); eauto.
  - inversion E; subst. exact Hctl.
Qed.

(** The nesting of [triggerBatchDownloader] through the [catch] of
    [sendBatch] is never entered: one unit of fuel is as good as any. *)
Lemma requestBatches_body_indep trig1 trig2 peers_ s :
  requestBatches_body deps trig1 peers_ s = requestBatches_body deps trig2 peers_ s.
Proof.
  unfold requestBatches_body. apply bind_ext. intros this s'.
  destruct (negb (isSyncing this)); auto.
  unfold bind.
  rewrite (forEach_ext _ _ (requestBatches_retry deps trig2 peers_ (toArr this))).
  2:{ intros. rewrite requestBatches_retry_indep.
      symmetry. apply requestBatches_retry_indep. }
  destruct (forEach _ _ s') as [[[]|e] s1]; auto.
  apply forEachBreak_ext. intros. rewrite requestBatches_fill_indep.
  symmetry. apply requestBatches_fill_indep.
Qed.

(** The nesting of [triggerBatchDownloader] through the [catch] of
    [sendBatch] is never entered: one unit of fuel is as good as any. *)
Lemma requestBatches_fuel fuel peers_ s :
  requestBatches deps (S fuel) peers_ s = requestBatches deps 1 peers_ s.
Proof. simpl. apply requestBatches_body_indep. Qed.

Lemma requestBatches_body_sameControl trig peers_ :
  preserves sameControl (requestBatches_body deps trig peers_).
Proof.
  pose proof preorder_sameControl as HR.
  unfold requestBatches_body.
  repeat (preserves_step HR).
  - apply requestBatches_retry_sameControl.
  - apply requestBatches_fill_sameControl.
Qed.

Lemma forEach_returns {S T} (l : list T) (f : T -> M S unit) s :
  (forall x s1, fst (f x s1) = Ok tt) -> fst (forEach l f s) = Ok tt.
Proof.
  revert s. induction l as [|x l IH]; intros s Hf; simpl; auto.
  unfold bind. pose proof (Hf x s) as Hx.
  destruct (f x s) as [[[]|e] s1]; simpl in *; [apply IH; auto | discriminate].
Qed.

Lemma forEachBreak_returns {S T} (l : list T) (f : T -> M S bool) s :
  (forall x s1, exists b, fst (f x s1) = Ok b) -> fst (forEachBreak l f s) = Ok tt.
Proof.
  revert s. induction l as [|x l IH]; intros s Hf; simpl; auto.
  unfold bind. destruct (Hf x s) as [b Hb].
  destruct (f x s) as [[b'|e] s1]; simpl in *; [|discriminate].
  destruct b'; auto.
Qed.

Lemma requestBatches_body_returns trig peers_ s :
  fst (requestBatches_body deps trig peers_ s) = Ok tt.
Proof.
  unfold requestBatches_body, bind at 1, get. simpl.
  destruct (negb (isSyncing s)); auto.
  unfold bind.
  match goal with
  | |- context [forEach ?l ?f s] =>
      pose proof (forEach_returns l f s) as H1; destruct (forEach l f s) as [[[]|e] s1]
  end.
  - apply forEachBreak_returns. intros p s2. unfold requestBatches_fill, bind.
    destruct (includeNextBatch_spec s2) as (x & Hx & _ & Hst).
    destruct (includeNextBatch s2) as [r' s3]. simpl in *. subst r'.
    destruct x as [ref|]; [|eexists; reflexivity].
    destruct (sendBatch_start_AwaitingDownload trig ref p s3 (Hst ref eq_refl))
      as (_ & Hok & _).
    destruct (sendBatch_start trig ref p s3) as [r1 s4].
    simpl in Hok. subst r1. eexists; reflexivity.
  - simpl in H1. exfalso.
    assert (Throw e = Ok tt) as Habs; [|discriminate Habs].
    apply H1. intros ref s2. unfold requestBatches_retry, bind, gets.
    destruct (BatchStatus_eqb _ _) eqn:Est; simpl; auto.
    destruct (bestPeerToRetryBatch _ _ _ _); auto.
    apply sendBatch_start_AwaitingDownload, statusOf_AwaitingDownload, Est.
Qed.

Lemma requestBatches_sameControl fuel peers_ :
  preserves sameControl (requestBatches deps fuel peers_).
Proof.
  destruct fuel as [|fuel]; simpl.
  - apply preserves_ret, preorder_sameControl.
  - apply requestBatches_body_sameControl.
Qed.

Lemma requestBatches_returns fuel peers_ s : fst (requestBatches deps fuel peers_ s) = Ok tt.
Proof. destruct fuel; simpl; auto. apply requestBatches_body_returns. Qed.

Lemma triggerBatchDownloader_sameControl : preserves sameControl (triggerBatchDownloader deps).
Proof.
  intros s r s' E. unfold triggerBatchDownloader, tryCatch, bind, gets in E.
  pose proof (requestBatches_returns 1 (getPeers s) s) as Hok.
  pose proof (requestBatches_sameControl 1 (getPeers s) s) as Hctl.
  destruct (requestBatches deps 1 (getPeers s) s) as [r1 s1]. simpl in Hok. subst r1.
  inversion E; subst. eapply Hctl. reflexivity.
Qed.

Lemma triggerBatchDownloader_returns s : fst (triggerBatchDownloader deps s) = Ok tt.
Proof.
  unfold triggerBatchDownloader, tryCatch, bind, gets.
  pose proof (requestBatches_returns 1 (getPeers s) s) as Hok.
  destruct (requestBatches deps 1 (getPeers s) s) as [r1 s1]. simpl in Hok. subst r1.
  reflexivity.
Qed.

End Downloader.

(** ** Download errors *)

Lemma len_app_one {A} (l : list A) (x : A) : len (l ++ [x]) = len l + 1.
Proof. unfold len. rewrite length_app. simpl. lia. Qed.

Lemma getBatch_setPendingDownloads ref v s :
  getBatch ref (setPendingDownloads v s) = getBatch ref s.
Proof. reflexivity. Qed.

Section DownloadErrors.
Variable deps : Deps.

(** When [downloadingError] throws in [sendBatch], the trigger is ended with
    the error and what the downloader does next leaves it there. *)
Lemma sendBatch_resume_throws ref e s :
  fst (Batch.downloadingError (getBatch ref s)) = Throw e ->
  exists s',
    sendBatch_resume deps ref None s = (Ok tt, s')
    /\ error (batchProcessor s') = Some e
    /\ status s' = status s /\ syncLoop s' = syncLoop s.
Proof.
  intro H. unfold sendBatch_resume.
  unfold bind at 1. unfold tryCatch at 1. unfold bind at 1. unfold onBatch at 1.
  destruct (Batch.downloadingError (getBatch ref s)) as [r b'] eqn:E.
  simpl in H. subst r. unfold modify at 1.
  match goal with
  | |- context [triggerBatchDownloader deps ?s1] =>
      pose proof (triggerBatchDownloader_returns deps s1) as Hok;
      pose proof (triggerBatchDownloader_sameControl deps s1) as Hctl;
      destruct (triggerBatchDownloader deps s1) as [r1 s2]
  end.
  simpl in Hok. subst r1. specialize (Hctl _ _ eq_refl).
  exists s2. split; [reflexivity|].
  unfold sameControl, control in Hctl. simpl in Hctl.
  destruct Hctl as (_&_&_&_&Hst&Hbp&_&_&_&Hloop&_).
  rewrite Hbp, Hst, Hloop. auto.
Qed.

(** An error that is not an abort, thrown by the trigger to the loop of
    [sync] : the chain ends in [Error] and [onEnd] gets the error. *)
Lemma trigger_error_ends_chain e s :
  syncLoop s = AwaitingTrigger ->
  error (batchProcessor s) = Some e ->
  e <> ErrorAborted ->
  e <> BatchError BatchErrorCode.MAX_PROCESSING_ATTEMPTS ->
  exists s',
    stepChain deps TriggerSettles s = Some s'
    /\ status s' = SyncChainStatus.Error
    /\ events s' = events s ++ [OnEnd (Some e)]
    /\ syncLoop s' = Settled.
Proof.
  intros Hloop Herr Hab Hmax. unfold stepChain. rewrite Hloop, Herr.
  eexists. split; [reflexivity|].
  unfold sync_run, batchProcessor_next. unfold bind, get. cbn beta iota. rewrite Herr.
  unfold throw at 1.
  destruct e as [msg|code|msg|msg|]; try contradiction; simpl; auto.
  destruct code; try contradiction; simpl; auto.
Qed.

End DownloadErrors.

(** C2 as stated fails on asStateMachine/batch.ts: the fifth failed download
    of a batch, which makes the number of failed download attempts reach
    [MAX_DOWNLOAD_ATTEMPTS], does not fail; the batch goes back to
    AwaitingDownload. *)
Lemma downloadingError_fifth_failure_does_not_throw :
  statusOf (AsStateMachine.Batch.state Examples.asBatchFourFailures) = Downloading
  /\ len (AsStateMachine.Batch.failedDownloadAttempts Examples.asBatchFourFailures) + 1
     = MAX_DOWNLOAD_ATTEMPTS
  /\ fst (AsStateMachine.Batch.downloadingError Examples.asBatchFourFailures) = Ok tt
  /\ len (AsStateMachine.Batch.failedDownloadAttempts
            (snd (AsStateMachine.Batch.downloadingError Examples.asBatchFourFailures)))
     = MAX_DOWNLOAD_ATTEMPTS
  /\ statusOf (AsStateMachine.Batch.state
                 (snd (AsStateMachine.Batch.downloadingError Examples.asBatchFourFailures)))
     = AwaitingDownload.
Proof. repeat split. Qed.

(** ** The batch buffer *)

Lemma includeNextBatch_full (c : SyncChain) :
  BATCH_BUFFER_SIZE < batchesInBuffer c -> includeNextBatch c = (Ok None, c).
Proof.
  intro H. apply Z.ltb_lt in H. unfold batchesInBuffer, inBuffer in H.
  unfold includeNextBatch, bind, get. cbn beta iota. rewrite H. reflexivity.
Qed.

Lemma includeNextBatch_room (c : SyncChain) :
  batchesInBuffer c <= BATCH_BUFFER_SIZE ->
  withinTarget c ->
  mapHas (batches c) (nextStartEpoch c) = false ->
  includeNextBatch c
  = (Ok (Some (List.length (heap c))),
     setBatches (mapSet (batches c) (nextStartEpoch c) (List.length (heap c)))
       (setHeap (heap c ++ [Batch.newBatch (nextStartEpoch c) (config c) (opts c)]) c)).
Proof.
  intros Hbuf Htgt Hhas. apply Z.ltb_ge in Hbuf.
  unfold batchesInBuffer, inBuffer in Hbuf.
  unfold includeNextBatch, bind, get. cbn beta iota. rewrite Hbuf.
  unfold withinTarget, nextStartEpoch in *.
  replace (match target c with Some t => _ | None => false end) with false.
  - rewrite Hhas. reflexivity.
  - destruct (target c); auto. symmetry. apply Z.ltb_ge. exact Htgt.
Qed.

Lemma asStateMachine_includeNextBatch_full (c : AsStateMachine.SyncingChain) t :
  BATCH_BUFFER_SIZE < AsStateMachine.batchesInBuffer c ->
  AsStateMachine.includeNextBatch t c = (Ok None, c).
Proof.
  intro H. apply Z.ltb_lt in H. unfold AsStateMachine.batchesInBuffer, inBuffer in H.
  unfold AsStateMachine.includeNextBatch. rewrite H.
  destruct (t <? AsStateMachine.downloaderTarget c); reflexivity.
Qed.

Lemma asStateMachine_includeNextBatch_room (c : AsStateMachine.SyncingChain) t :
  AsStateMachine.batchesInBuffer c <= BATCH_BUFFER_SIZE ->
  AsStateMachine.downloaderTarget c <= t ->
  exists batch c',
    AsStateMachine.includeNextBatch t c = (Ok (Some batch), c')
    /\ AsStateMachine.Batch.id batch = AsStateMachine.downloaderTarget c
    /\ AsStateMachine.downloaderTarget c'
       = AsStateMachine.downloaderTarget c + EPOCHS_PER_BATCH.
Proof.
  intros Hbuf Ht. apply Z.ltb_ge in Hbuf, Ht.
  unfold AsStateMachine.batchesInBuffer, inBuffer in Hbuf.
  unfold AsStateMachine.includeNextBatch. rewrite Ht, Hbuf.
  eexists. eexists. split; [reflexivity|]. split; reflexivity.
Qed.

(** C3 (as amended).  [includeNextBatch] returns nothing, and changes
    nothing, when more than [BATCH_BUFFER_SIZE] batches are in Downloading or
    AwaitingProcessing, and creates the next batch when at most
    [BATCH_BUFFER_SIZE] are (the target and the batch map permitting).  With
    [BATCH_BUFFER_SIZE = 5] and two epochs per batch, while the processor is
    held on the batch at epoch 0, the downloader creates the batches up to and
    including start epoch 12: six batches are in the buffer, and from then on
    [includeNextBatch] returns nothing for as long as the six stay there. *)
Theorem includeNextBatch_buffer_gate :
  (forall c : SyncChain,
      BATCH_BUFFER_SIZE < batchesInBuffer c -> includeNextBatch c = (Ok None, c))
  /\ (forall c : SyncChain,
         batchesInBuffer c <= BATCH_BUFFER_SIZE ->
         withinTarget c ->
         mapHas (batches c) (nextStartEpoch c) = false ->
         exists ref c',
           includeNextBatch c = (Ok (Some ref), c')
           /\ getBatch ref c' = Batch.newBatch (nextStartEpoch c) (config c) (opts c)
           /\ batches c' = mapSet (batches c) (nextStartEpoch c) ref)
  /\ (forall (c : AsStateMachine.SyncingChain) t,
         BATCH_BUFFER_SIZE < AsStateMachine.batchesInBuffer c ->
         AsStateMachine.includeNextBatch t c = (Ok None, c))
  /\ (forall (c : AsStateMachine.SyncingChain) t,
         AsStateMachine.batchesInBuffer c <= BATCH_BUFFER_SIZE ->
         AsStateMachine.downloaderTarget c <= t ->
         exists batch c',
           AsStateMachine.includeNextBatch t c = (Ok (Some batch), c')
           /\ AsStateMachine.Batch.id batch = AsStateMachine.downloaderTarget c
           /\ AsStateMachine.downloaderTarget c'
              = AsStateMachine.downloaderTarget c + EPOCHS_PER_BATCH)
  /\ (let held := Examples.chainAfter (Examples.heldOnBatch0 [1; 2; 3; 4; 5; 6]%nat) in
      syncLoop held = AwaitingProcessChainSegment 0%nat [Examples.block1]
      /\ Examples.summary held
         = [(0, Processing); (2, AwaitingProcessing); (4, AwaitingProcessing);
            (6, AwaitingProcessing); (8, AwaitingProcessing); (10, AwaitingProcessing);
            (12, AwaitingProcessing)]
      /\ includeNextBatch held = (Ok None, held))
  /\ (let held := Examples.asHeld [2; 4; 6; 8; 10; 12] 14 in
      AsStateMachine.includeNextBatch 100 held = (Ok None, held)).
Proof.
  split; [exact includeNextBatch_full|].
  split.
  { intros c Hbuf Htgt Hhas. eexists. eexists.
    split; [apply includeNextBatch_room; assumption|].
    split; [|reflexivity].
    unfold getBatch. simpl. apply nth_length_app. }
  split; [exact asStateMachine_includeNextBatch_full|].
  split; [exact asStateMachine_includeNextBatch_room|].
  split.
  - cbv zeta. split; [vm_compute; reflexivity|]. split; [vm_compute; reflexivity|].
    apply includeNextBatch_full. vm_compute. reflexivity.
  - cbv zeta. apply asStateMachine_includeNextBatch_full. vm_compute. reflexivity.
Qed.

Lemma includeNextBatch_buffer_gate_witness :
  (let c := Examples.chainAfter (Examples.heldOnBatch0 [1; 2; 3; 4; 5; 6]%nat) in
   includeNextBatch c = (Ok None, c))
  /\ (let c := Examples.chainAfter (Examples.heldOnBatch0 [1; 2; 3; 4]%nat) in
      exists ref c',
        includeNextBatch c = (Ok (Some ref), c')
        /\ getBatch ref c' = Batch.newBatch 12 Examples.config32 {| epochsPerBatch := 2 |}
        /\ batches c' = mapSet (batches c) 12 ref)
  /\ (let c := Examples.asHeld [2; 4; 6; 8; 10; 12] 14 in
      AsStateMachine.includeNextBatch 100 c = (Ok None, c))
  /\ (let c := Examples.asHeld [2; 4; 6; 8; 10] 12 in
      exists batch c',
        AsStateMachine.includeNextBatch 100 c = (Ok (Some batch), c')
        /\ AsStateMachine.Batch.id batch = 12
        /\ AsStateMachine.downloaderTarget c' = 12 + EPOCHS_PER_BATCH).
Proof.
  pose proof includeNextBatch_buffer_gate as (H1 & H2 & H3 & H4 & _).
  split; [|split; [|split]]; cbv zeta.
  - apply H1. vm_compute. reflexivity.
  - apply (H2 (Examples.chainAfter (Examples.heldOnBatch0 [1; 2; 3; 4]%nat))).
    + vm_compute. intro Hc. discriminate Hc.
    + vm_compute. intro Hc. discriminate Hc.
    + vm_compute. reflexivity.
  - apply H3. vm_compute. reflexivity.
  - apply (H4 (Examples.asHeld [2; 4; 6; 8; 10] 12) 100).
    + vm_compute. intro Hc. discriminate Hc.
    + vm_compute. intro Hc. discriminate Hc.
Defined.

(** C3 as stated fails: with the processor held on batch 0 and five batches
    in AwaitingProcessing, the downloader creates the batch of start epoch 12,
    the sixth of the buffer; in asStateMachine/chain.ts [includeNextBatch]
    returns that batch too. *)
Lemma includeNextBatch_creates_a_sixth_batch :
  (let held := Examples.chainAfter (Examples.heldOnBatch0 [1; 2; 3; 4; 5]%nat) in
   syncLoop held = AwaitingProcessChainSegment 0%nat [Examples.block1]
   /\ Examples.summary held
      = [(0, Processing); (2, AwaitingProcessing); (4, AwaitingProcessing);
         (6, AwaitingProcessing); (8, AwaitingProcessing); (10, AwaitingProcessing);
         (12, Downloading)]
   /\ batchesInBuffer held = 6)
  /\ (let held := Examples.asHeld [2; 4; 6; 8; 10] 12 in
      AsStateMachine.batchesInBuffer held = 5
      /\ Examples.asSummary held
         = [(0, Processing); (2, AwaitingProcessing); (4, AwaitingProcessing);
            (6, AwaitingProcessing); (8, AwaitingProcessing); (10, AwaitingProcessing)]
      /\ exists c',
          AsStateMachine.includeNextBatch 100 held
          = (Ok (Some (AsStateMachine.Batch.newBatch Examples.config32 12 EPOCHS_PER_BATCH)),
             c')).
Proof.
  split; cbv zeta.
  - repeat split; vm_compute; reflexivity.
  - split; [vm_compute; reflexivity|]. split; [vm_compute; reflexivity|].
    eexists. vm_compute. reflexivity.
Qed.

(** ** Advancing the chain *)

Lemma byteArrayEquals_eq a b : byteArrayEquals a b = true <-> a = b.
Proof.
  revert b. induction a as [|x a IH]; intros [|y b]; simpl; split; intro H;
    try reflexivity; try discriminate.
  - apply andb_true_iff in H as [Hxy Hab].
    apply Byte.byte_dec_bl in Hxy. apply IH in Hab. congruence.
  - inversion H; subst. apply andb_true_iff. split.
    + apply Byte.byte_dec_lb. reflexivity.
    + apply IH. reflexivity.
Qed.

Lemma replaceNth_nth {A} n (l : list A) d : replaceNth n (nth n l d) l = l.
Proof.
  revert n. induction l as [|x l IH]; intros [|n]; simpl; auto. f_equal. apply IH.
Qed.

Lemma putBatch_getBatch ref s : putBatch ref (getBatch ref s) s = s.
Proof.
  unfold putBatch, getBatch. rewrite replaceNth_nth. destruct s; reflexivity.
Qed.

Lemma setEvents_nil s : setEvents (events s ++ []) s = s.
Proof. rewrite app_nil_r. destruct s; reflexivity. Qed.

Lemma advanceChain_penalize_loop attemptOk failed s :
  forEach failed (advanceChain_penalize attemptOk) s
  = (Ok tt, setEvents (events s ++ reportsFor attemptOk failed) s).
Proof.
  revert s. induction failed as [|a failed IH]; intro s; simpl.
  - unfold ret, reportsFor. simpl. rewrite setEvents_nil. reflexivity.
  - unfold bind, advanceChain_penalize, reportsFor. simpl.
    destruct (negb (byteArrayEquals (hash a) (hash attemptOk))); simpl.
    + destruct (String.eqb (peer attemptOk) (peer a)); simpl;
        rewrite IH; simpl; unfold reportsFor; rewrite <- app_assoc; reflexivity.
    + rewrite IH. reflexivity.
Qed.

Lemma getBatch_sameHeap c s ref : sameHeap c s -> getBatch ref s = getBatch ref c.
Proof. intros (Hh & Hc & Ho). unfold getBatch. rewrite Hh, Hc, Ho. reflexivity. Qed.

Lemma advanceChain_visit_kept e c s entry :
  sameHeap c s -> removedBy e c entry = false ->
  advanceChain_visit e entry s = (Ok tt, s).
Proof.
  intros Hs Hr. destruct entry as [k ref]. unfold removedBy in Hr. simpl in Hr.
  unfold advanceChain_visit, bind, gets.
  rewrite (getBatch_sameHeap c s ref Hs), Hr. reflexivity.
Qed.

Lemma advanceChain_visit_validated e c s k ref attemptOk :
  sameHeap c s -> removedBy e c (k, ref) = true ->
  Batch.state (getBatch ref c) = StAwaitingValidation attemptOk ->
  advanceChain_visit e (k, ref) s
  = (Ok tt,
     setEvents
       (events s ++ reportsFor attemptOk (Batch.failedProcessingAttempts (getBatch ref c)))
       (setValidatedEpochs (validatedEpochs s + EPOCHS_PER_BATCH)
          (setBatches (mapDelete (batches s) k) s))).
Proof.
  intros Hs Hr Hst. unfold removedBy in Hr. simpl in Hr.
  unfold advanceChain_visit. unfold bind at 1. unfold gets.
  rewrite (getBatch_sameHeap c s ref Hs), Hr.
  unfold bind at 1. unfold modify at 1. unfold bind at 1. unfold modify at 1.
  unfold bind at 1. unfold onBatch.
  match goal with
  | |- context [getBatch ref ?s1] =>
      assert (Hs1 : sameHeap c s1) by exact Hs;
      rewrite (getBatch_sameHeap c s1 ref Hs1)
  end.
  unfold Batch.validationSuccess. rewrite Hst.
  match goal with
  | |- context [putBatch ref (getBatch ref c) ?s1] =>
      replace (putBatch ref (getBatch ref c) s1) with s1
        by (rewrite <- (getBatch_sameHeap c s1 ref Hs1); symmetry; apply putBatch_getBatch)
  end.
  rewrite advanceChain_penalize_loop. reflexivity.
Qed.

Lemma advanceChain_visit_wrong e c s k ref :
  sameHeap c s -> removedBy e c (k, ref) = true ->
  statusOf (Batch.state (getBatch ref c)) <> AwaitingValidation ->
  fst (advanceChain_visit e (k, ref) s) = Throw (BatchError BatchErrorCode.WRONG_STATUS).
Proof.
  intros Hs Hr Hst. unfold removedBy in Hr. simpl in Hr.
  unfold advanceChain_visit. unfold bind at 1. unfold gets.
  rewrite (getBatch_sameHeap c s ref Hs), Hr.
  unfold bind at 1. unfold modify at 1. unfold bind at 1. unfold modify at 1.
  unfold bind at 1. unfold onBatch.
  match goal with
  | |- context [getBatch ref ?s1] =>
      assert (Hs1 : sameHeap c s1) by exact Hs;
      rewrite (getBatch_sameHeap c s1 ref Hs1)
  end.
  unfold Batch.validationSuccess.
  destruct (Batch.state (getBatch ref c)); simpl in *; try reflexivity.
  contradiction Hst. reflexivity.
Qed.

(** The loop of [advanceChain] when every batch it removes is in
    AwaitingValidation. *)
Lemma advanceChain_loop_validated e c entries :
  forall s,
    sameHeap c s ->
    (forall entry, In entry entries -> removedBy e c entry = true ->
                   statusOf (Batch.state (getBatch (snd entry) c)) = AwaitingValidation) ->
    exists s',
      forEach entries (advanceChain_visit e) s = (Ok tt, s')
      /\ sameHeap c s'
      /\ events s' = events s ++ flat_map (reportsOnRemoval e c) entries
      /\ validatedEpochs s'
         = validatedEpochs s + EPOCHS_PER_BATCH * len (filter (removedBy e c) entries).
Proof.
  induction entries as [|[k ref] entries IH]; intros s Hs Hav.
  - exists s. simpl. unfold ret. rewrite app_nil_r. repeat split; try apply Hs.
    unfold len. simpl. lia.
  - rewrite forEach_cons.
    destruct (removedBy e c (k, ref)) eqn:Hr.
    + pose proof (Hav (k, ref) (or_introl eq_refl) Hr) as Hst. simpl in Hst.
      destruct (Batch.state (getBatch ref c)) as [| | | |attemptOk] eqn:Est;
        try discriminate Hst.
      rewrite (advanceChain_visit_validated e c s k ref attemptOk Hs Hr Est).
      match goal with
      | |- context [forEach entries _ ?s1] =>
          destruct (IH s1) as (s' & E & Hs' & Hev & Hve);
          [exact Hs | intros; apply Hav; auto; right; assumption |]
      end.
      exists s'. split; [exact E|]. split; [exact Hs'|].
      cbn [events validatedEpochs setEvents setValidatedEpochs setBatches] in Hev, Hve.
      split.
      * rewrite Hev. simpl. unfold reportsOnRemoval at 2. rewrite Hr. simpl. rewrite Est.
        rewrite <- app_assoc. reflexivity.
      * rewrite Hve. simpl filter. rewrite Hr. unfold len, EPOCHS_PER_BATCH.
        simpl List.length. lia.
    + rewrite (advanceChain_visit_kept e c s (k, ref) Hs Hr).
      destruct (IH s Hs) as (s' & E & Hs' & Hev & Hve);
        [intros; apply Hav; auto; right; assumption|].
      exists s'. split; [exact E|]. split; [exact Hs'|]. split.
      * rewrite Hev. simpl. unfold reportsOnRemoval at 2. rewrite Hr. reflexivity.
      * rewrite Hve. simpl filter. rewrite Hr. reflexivity.
Qed.

(** The loop of [advanceChain] when a batch it removes is not in
    AwaitingValidation: [validationSuccess] is called on it and throws. *)
Lemma advanceChain_loop_wrong e c entries :
  forall s,
    sameHeap c s ->
    (exists entry, In entry entries /\ removedBy e c entry = true
                   /\ statusOf (Batch.state (getBatch (snd entry) c)) <> AwaitingValidation) ->
    fst (forEach entries (advanceChain_visit e) s)
    = Throw (BatchError BatchErrorCode.WRONG_STATUS).
Proof.
  induction entries as [|[k ref] entries IH]; intros s Hs (entry & Hin & Hr & Hst).
  - contradiction.
  - rewrite forEach_cons.
    destruct (removedBy e c (k, ref)) eqn:Hr0.
    + destruct (Batch.state (getBatch ref c)) as [| | | |attemptOk] eqn:Est.
      5:{ rewrite (advanceChain_visit_validated e c s k ref attemptOk Hs Hr0 Est).
          apply IH; [exact Hs|].
          destruct Hin as [<- | Hin].
          - simpl in Hst. rewrite Est in Hst. contradiction Hst. reflexivity.
          - exists entry. auto. }
      all: pose proof (advanceChain_visit_wrong e c s k ref Hs Hr0) as Hw;
        rewrite Est in Hw;
        destruct (advanceChain_visit e (k, ref) s) as [r s1]; simpl in Hw;
        rewrite Hw by discriminate; reflexivity.
    + rewrite (advanceChain_visit_kept e c s (k, ref) Hs Hr0).
      apply IH; [exact Hs|].
      destruct Hin as [<- | Hin].
      * rewrite Hr in Hr0. discriminate.
      * exists entry. auto.
Qed.

Lemma advanceChain_noop e c : e <= startEpoch c -> advanceChain e c = (Ok tt, c).
Proof.
  intro H. apply Z.leb_le in H. unfold advanceChain, bind, get. cbn beta iota.
  rewrite H. reflexivity.
Qed.

Lemma sameHeap_refl c : sameHeap c c.
Proof. repeat split. Qed.

(** [advanceChain] past the boundary when every batch it removes is in
    AwaitingValidation. *)
Lemma advanceChain_validated e c :
  startEpoch c < e ->
  (forall entry, In entry (batches c) -> removedBy e c entry = true ->
                 statusOf (Batch.state (getBatch (snd entry) c)) = AwaitingValidation) ->
  exists c',
    advanceChain e c = (Ok tt, c')
    /\ startEpoch c' = e
    /\ events c' = events c ++ flat_map (reportsOnRemoval e c) (batches c)
    /\ validatedEpochs c'
       = validatedEpochs c + EPOCHS_PER_BATCH * len (filter (removedBy e c) (batches c))
    /\ heap c' = heap c.
Proof.
  intros Hlt Hav. apply Z.leb_gt in Hlt.
  destruct (advanceChain_loop_validated e c (batches c) c (sameHeap_refl c) Hav)
    as (s' & E & Hs' & Hev & Hve).
  unfold advanceChain, bind, get. cbn beta iota. rewrite Hlt, E.
  eexists. split; [reflexivity|]. simpl. repeat split; auto. apply Hs'.
Qed.

(** [advanceChain] past the boundary when a batch it removes is not in
    AwaitingValidation: it throws and the boundary stays. *)
Lemma advanceChain_wrong e c :
  startEpoch c < e ->
  (exists entry, In entry (batches c) /\ removedBy e c entry = true
                 /\ statusOf (Batch.state (getBatch (snd entry) c)) <> AwaitingValidation) ->
  fst (advanceChain e c) = Throw (BatchError BatchErrorCode.WRONG_STATUS)
  /\ startEpoch (snd (advanceChain e c)) = startEpoch c.
Proof.
  intros Hlt Hbad. apply Z.leb_gt in Hlt.
  pose proof (advanceChain_loop_wrong e c (batches c) c (sameHeap_refl c) Hbad) as Hw.
  pose proof (advanceChain_loop_countsControl e (batches c) c) as Hc.
  unfold advanceChain, bind, get. cbn beta iota. rewrite Hlt.
  destruct (forEach (batches c) (advanceChain_visit e) c) as [r s1].
  simpl in Hw. subst r. simpl. split; [reflexivity|].
  destruct (Hc _ _ eq_refl) as [Hstart _]. exact Hstart.
Qed.

(** ** What every operation of a chain keeps *)

Lemma steady_progress s s' : steady s s' -> progress s s'.
Proof. intros [H _]. exact H. Qed.

Lemma progress_advances s s' : progress s s' -> advances s s'.
Proof. intros [H _]. exact H. Qed.

Lemma advanceChain_steady e : preserves steady (advanceChain e).
Proof.
  eapply preserves_weaken; [apply advancesControl_steady | apply advanceChain_advancesControl].
Qed.

Lemma triggerBatchProcessor_steady : preserves steady triggerBatchProcessor.
Proof. unfold triggerBatchProcessor. apply preserves_modify. intro. frame_leaf. Qed.

Ltac steady_tac HR :=
  repeat (preserves_step HR);
  try (apply preserves_onBatch; intros);
  try (apply preserves_emit; intros);
  lazymatch goal with
  | |- preserves _ _ =>
      first [ apply advanceChain_steady
            | apply triggerBatchProcessor_steady
            | eapply preserves_weaken; [apply steady_running | apply advanceChain_steady]
            | eapply preserves_weaken;
              [apply steady_running | apply triggerBatchProcessor_steady]
            | eapply preserves_weaken; [apply steady_progress | apply advanceChain_steady]
            | idtac ]
  | |- _ => frame_leaf
  end.

Section Steady.
Variable deps : Deps.

Lemma triggerBatchDownloader_steady : preserves steady (triggerBatchDownloader deps).
Proof.
  eapply preserves_weaken; [|apply triggerBatchDownloader_sameControl].
  intros. apply advancesControl_steady, sameControl_advancesControl. assumption.
Qed.

Lemma startSyncing_steady e : preserves steady (startSyncing deps e).
Proof.
  pose proof preorder_steady as HR. unfold startSyncing.
  steady_tac HR; apply triggerBatchDownloader_steady.
Qed.

Lemma stopSyncing_steady : preserves steady stopSyncing.
Proof. unfold stopSyncing. apply preserves_modify. intro. frame_leaf. Qed.

Lemma remove_steady : preserves steady remove.
Proof. unfold remove. apply preserves_modify. intro. frame_leaf. Qed.

Lemma addPeer_progress p t : preserves progress (addPeer deps p t).
Proof.
  pose proof preorder_progress as HR. unfold addPeer, computeTarget.
  steady_tac HR.
  eapply preserves_weaken; [apply steady_progress | apply triggerBatchDownloader_steady].
Qed.

Lemma removePeer_progress p : preserves progress (removePeer deps p).
Proof.
  pose proof preorder_progress as HR. unfold removePeer, computeTarget.
  steady_tac HR.
Qed.

Lemma sendBatch_resume_steady ref res : preserves steady (sendBatch_resume deps ref res).
Proof.
  pose proof preorder_steady as HR. unfold sendBatch_resume.
  steady_tac HR; apply triggerBatchDownloader_steady.
Qed.

Lemma processBatch_start_running ref : preserves running (processBatch_start deps ref).
Proof.
  pose proof preorder_running as HR. unfold processBatch_start.
  steady_tac HR.
Qed.

Lemma processBatch_resume_steady ref blocks res :
  preserves steady (processBatch_resume deps ref blocks res).
Proof.
  pose proof preorder_steady as HR. unfold processBatch_resume.
  steady_tac HR; apply triggerBatchDownloader_steady.
Qed.

Lemma batchProcessor_next_steady : preserves steady batchProcessor_next.
Proof.
  pose proof preorder_steady as HR. unfold batchProcessor_next.
  steady_tac HR.
Qed.

Lemma sync_body_running : preserves running (sync_body deps).
Proof.
  pose proof preorder_running as HR. unfold sync_body.
  steady_tac HR; apply processBatch_start_running.
Qed.

Lemma sync_catch_steady e : preserves steady (sync_catch e).
Proof.
  pose proof preorder_steady as HR. unfold sync_catch.
  steady_tac HR.
Qed.

(** A stretch of [sync] either leaves the loop running, having kept what
    every operation keeps, or settles the promise, which calls [onEnd]
    once. *)
Lemma sync_run_cases (m : M SyncChain LoopExit) :
  preserves running m ->
  forall c r c',
    sync_run m c = (r, c') ->
    running c c'
    \/ (advances c c' /\ peerset c' = peerset c /\ syncLoop c' = Settled
        /\ exists err, onEnds (events c') = onEnds (events c) ++ [OnEnd err]).
Proof.
  intros Hm c r c' E. unfold sync_run in E.
  destruct (m c) as [[[]|e] c1] eqn:Em; pose proof (Hm _ _ _ Em) as H1.
  - inversion E; subst. left. exact H1.
  - right. unfold sync_settle, bind, emit, modify in E. simpl in E.
    inversion E; subst; clear E. simpl.
    destruct H1 as ([? ?] & Hev & Hp & _). repeat split; auto.
    exists None. rewrite onEnds_app. simpl. rewrite Hev. reflexivity.
  - destruct (sync_catch e c1) as [r2 c2] eqn:Ec.
    pose proof (steady_running _ _ (sync_catch_steady e _ _ _ Ec)) as H2.
    right. unfold sync_settle, bind, emit, modify in E. simpl in E.
    inversion E; subst; clear E. simpl.
    pose proof (po_trans _ preorder_running _ _ _ H1 H2) as ([? ?] & Hev & Hp & _).
    repeat split; auto.
    eexists. rewrite onEnds_app. simpl. rewrite Hev. reflexivity.
Qed.

End Steady.

(** ** Steps of a chain *)




Section Steps.
Variable deps : Deps.


Lemma removePeer_peerset p c :
  peerset (snd (removePeer deps p c)) = peerMapDelete (peerset c) p.
Proof. reflexivity. Qed.


Lemma sync_run_advances m c :
  preserves running m -> advances c (snd (sync_run m c)).
Proof.
  intros Hm. destruct (sync_run m c) as [r c'] eqn:E. simpl.
  destruct (sync_run_cases m Hm c r c' E) as [(H & _) | (H & _)]; exact H.
Qed.

Lemma trigger_stretch_running :
  preserves running
    (yielded <- batchProcessor_next ;;
     if (yielded : bool) then sync_body deps else ret LoopContinue).
Proof.
  pose proof preorder_running as HR.
  apply preserves_bind; [exact HR | |].
  - eapply preserves_weaken; [apply steady_running | apply batchProcessor_next_steady].
  - intros []; [apply sync_body_running | apply preserves_ret, HR].
Qed.

Lemma process_stretch_running ref blocks res :
  preserves running (processBatch_resume deps ref blocks res ;; ret LoopContinue).
Proof.
  pose proof preorder_running as HR.
  apply preserves_bind; [exact HR | | intro; apply preserves_ret, HR].
  eapply preserves_weaken; [apply steady_running | apply processBatch_resume_steady].
Qed.

(** Every step of a chain moves the validated boundary and the count of
    validated epochs forward only. *)
Lemma stepChain_advances l c c' : stepChain deps l c = Some c' -> advances c c'.
Proof.
  pose proof preorder_advances as HA.
  assert (Hst : forall s s', steady s s' -> advances s s')
    by (intros; apply progress_advances, steady_progress; assumption).
  destruct l; unfold stepChain; intro H.
  - injection H as <-. apply Hst. apply (preserves_snd steady (startSyncing deps _)).
    apply startSyncing_steady.
  - injection H as <-. apply Hst. apply (preserves_snd steady stopSyncing).
    apply stopSyncing_steady.
  - injection H as <-. apply Hst. apply (preserves_snd steady remove). apply remove_steady.
  - injection H as <-. apply progress_advances.
    apply (preserves_snd progress (addPeer deps _ _)). apply addPeer_progress.
  - injection H as <-. apply progress_advances.
    apply (preserves_snd progress (removePeer deps _)). apply removePeer_progress.
  - destruct (syncLoop c); try discriminate.
    destruct (error (batchProcessor c)), (triggered (batchProcessor c));
      try discriminate; injection H as <-;
      apply sync_run_advances, trigger_stretch_running.
  - destruct (hasRef ref (pendingDownloads c)); try discriminate.
    injection H as <-.
    eapply (po_trans _ HA);
      [|apply Hst; apply (preserves_snd steady (sendBatch_resume deps _ _));
        apply sendBatch_resume_steady].
    frame_leaf.
  - destruct (syncLoop c); try discriminate. injection H as <-.
    eapply (po_trans _ HA); [|apply sync_run_advances, process_stretch_running].
    frame_leaf.
Qed.



Lemma run_advances ls : forall c c', run deps ls c = Some c' -> advances c c'.
Proof.
  induction ls as [|l ls IH]; simpl; intros c c' H.
  - inversion H; subst. apply preorder_advances.
  - destruct (stepChain deps l c) as [c1|] eqn:E; [|discriminate].
    eapply (po_trans _ preorder_advances); [eapply stepChain_advances; exact E | auto].
Qed.



End Steps.

(** ** Claims on [advanceChain] *)

Lemma reportsFor_In attemptOk failed ev :
  In ev (reportsFor attemptOk failed)
  <-> exists attempt,
      In attempt failed
      /\ hash attempt <> hash attemptOk
      /\ ev = if String.eqb (peer attemptOk) (peer attempt)
              then ReportPeer (peer attempt) MidToleranceError "SyncChainInvalidBatchSelf"
              else ReportPeer (peer attempt) LowToleranceError "SyncChainInvalidBatchOther".
Proof.
  unfold reportsFor. rewrite in_map_iff. split.
  - intros (attempt & Hev & Hin). apply filter_In in Hin as [Hin Hne].
    exists attempt. repeat split; auto.
    intro Heq. apply byteArrayEquals_eq in Heq. rewrite Heq in Hne. discriminate.
  - intros (attempt & Hin & Hne & Hev). exists attempt. split; [auto|].
    apply filter_In. split; [exact Hin|].
    destruct (byteArrayEquals (hash attempt) (hash attemptOk)) eqn:E; auto.
    apply byteArrayEquals_eq in E. contradiction.
Qed.

(** C5 (as amended).  [advanceChain] past the boundary calls
    [validationSuccess] on every batch it removes, whatever its state: when a
    removed batch is not in AwaitingValidation the call throws
    WrongBatchState.  When the removed batches are in AwaitingValidation,
    [validationSuccess] yields the winning attempt of each and the peers
    reported are exactly, for each removed batch in the order of the map and
    each entry of its [failedProcessingAttempts] whose hash differs from the
    winning hash, the entry's peer: with MidToleranceError and
    "SyncChainInvalidBatchSelf" if it is the winner's peer, with
    LowToleranceError and "SyncChainInvalidBatchOther" otherwise.  An attempt
    with the winning hash triggers no report. *)
Theorem advanceChain_reports (c : SyncChain) (e : Epoch) :
  startEpoch c < e ->
  ((forall entry, In entry (batches c) -> removedBy e c entry = true ->
                  statusOf (Batch.state (getBatch (snd entry) c)) = AwaitingValidation) ->
   exists c',
     advanceChain e c = (Ok tt, c')
     /\ events c' = events c ++ flat_map (reportsOnRemoval e c) (batches c))
  /\ ((exists entry, In entry (batches c) /\ removedBy e c entry = true
                     /\ statusOf (Batch.state (getBatch (snd entry) c)) <> AwaitingValidation) ->
      fst (advanceChain e c) = Throw (BatchError BatchErrorCode.WRONG_STATUS))
  /\ (forall attemptOk failed ev,
         In ev (reportsFor attemptOk failed)
         <-> exists attempt,
             In attempt failed
             /\ hash attempt <> hash attemptOk
             /\ ev = if String.eqb (peer attemptOk) (peer attempt)
                     then ReportPeer (peer attempt) MidToleranceError
                            "SyncChainInvalidBatchSelf"
                     else ReportPeer (peer attempt) LowToleranceError
                            "SyncChainInvalidBatchOther").
Proof.
  intro Hlt. split; [|split].
  - intro Hav. destruct (advanceChain_validated e c Hlt Hav) as (c' & E & _ & Hev & _).
    exists c'. auto.
  - intro Hbad. apply (advanceChain_wrong e c Hlt Hbad).
  - apply reportsFor_In.
Qed.

Lemma advanceChain_reports_witness :
  let c := Examples.chainAfter Examples.selfCorrected in
  startEpoch c < 2
  /\ Examples.summary c = [(0, AwaitingValidation); (2, Processing); (4, Downloading)]
  /\ exists c',
      advanceChain 2 c = (Ok tt, c')
      /\ events c'
         = events c ++ [ReportPeer "peer1" MidToleranceError "SyncChainInvalidBatchSelf"].
Proof.
  cbv zeta. split; [vm_compute; reflexivity|]. split; [vm_compute; reflexivity|].
  destruct (advanceChain_reports (Examples.chainAfter Examples.selfCorrected) 2)
    as (H & _ & _); [vm_compute; reflexivity|].
  destruct H as (c' & E & Hev).
  - intros entry Hin Hr.
    vm_compute in Hin.
    destruct Hin as [<- | [<- | [<- | []]]];
      [vm_compute; reflexivity | vm_compute in Hr; discriminate Hr
       | vm_compute in Hr; discriminate Hr].
  - exists c'. split; [exact E|]. rewrite Hev. vm_compute. reflexivity.
Defined.

(** C5 as stated fails: on a chain stopped while its batch 0 is in
    Downloading, [advanceChain 2] removes the batch and calls
    [validationSuccess] on it, which throws. *)
Lemma advanceChain_validationSuccess_on_Downloading :
  let c := Examples.chainAfter Examples.stoppedWhileDownloading in
  Examples.summary c = [(0, Downloading)]
  /\ startEpoch c = 0
  /\ fst (advanceChain 2 c) = Throw (BatchError BatchErrorCode.WRONG_STATUS)
  /\ batches (snd (advanceChain 2 c)) = []
  /\ validatedEpochs (snd (advanceChain 2 c)) = 2.
Proof. cbv zeta. repeat split; vm_compute; reflexivity. Qed.

(** C4 (as amended).  [advanceChain e] with [e <= startEpoch] leaves the
    whole state of the chain as it is.  With [e > startEpoch] it sets
    [startEpoch] to [e] when it returns, which it does when every batch below
    [e] is in AwaitingValidation; when one is not, it throws WrongBatchState
    and [startEpoch] is left as it was.  In every case, and across every step
    of a chain, [startEpoch] and [validatedEpochs] do not decrease. *)
Theorem advanceChain_monotone :
  (forall (c : SyncChain) e, e <= startEpoch c -> advanceChain e c = (Ok tt, c))
  /\ (forall (c : SyncChain) e,
         startEpoch c < e ->
         (forall entry, In entry (batches c) -> removedBy e c entry = true ->
                        statusOf (Batch.state (getBatch (snd entry) c)) = AwaitingValidation) ->
         exists c', advanceChain e c = (Ok tt, c') /\ startEpoch c' = e)
  /\ (forall (c : SyncChain) e,
         startEpoch c < e ->
         (exists entry, In entry (batches c) /\ removedBy e c entry = true
                        /\ statusOf (Batch.state (getBatch (snd entry) c))
                           <> AwaitingValidation) ->
         fst (advanceChain e c) = Throw (BatchError BatchErrorCode.WRONG_STATUS)
         /\ startEpoch (snd (advanceChain e c)) = startEpoch c)
  /\ (forall (c : SyncChain) e,
         startEpoch c <= startEpoch (snd (advanceChain e c))
         /\ validatedEpochs c <= validatedEpochs (snd (advanceChain e c)))
  /\ (forall deps l (c c' : SyncChain),
         stepChain deps l c = Some c' ->
         startEpoch c <= startEpoch c' /\ validatedEpochs c <= validatedEpochs c')
  /\ (forall deps ls (c c' : SyncChain),
         run deps ls c = Some c' ->
         startEpoch c <= startEpoch c' /\ validatedEpochs c <= validatedEpochs c').
Proof.
  split; [exact (fun c e => advanceChain_noop e c)|].
  split.
  { intros c e Hlt Hav.
    destruct (advanceChain_validated e c Hlt Hav) as (c' & E & Hs & _). eauto. }
  split; [exact (fun c e => advanceChain_wrong e c)|].
  split.
  { intros c e.
    apply (progress_advances c), steady_progress.
    apply (preserves_snd steady (advanceChain e)). apply advanceChain_steady. }
  split.
  - intros deps l c c' H. exact (stepChain_advances deps l c c' H).
  - intros deps ls c c' H. exact (run_advances deps ls c c' H).
Qed.

Lemma advanceChain_monotone_witness :
  (let c := Examples.chainAfter Examples.selfCorrected in
   advanceChain 0 c = (Ok tt, c)
   /\ exists c', advanceChain 2 c = (Ok tt, c') /\ startEpoch c' = 2)
  /\ (let c := Examples.chainAfter Examples.started in
      let c' := Examples.chainAfter Examples.selfCorrected in
      startEpoch c <= startEpoch c' /\ validatedEpochs c <= validatedEpochs c').
Proof.
  pose proof advanceChain_monotone as (H1 & H2 & _ & _ & _ & H6).
  split; cbv zeta.
  - split.
    + apply H1. vm_compute. intro Hc. discriminate Hc.
    + apply H2; [vm_compute; reflexivity|].
      intros entry Hin Hr. vm_compute in Hin.
      destruct Hin as [<- | [<- | [<- | []]]];
        [vm_compute; reflexivity | vm_compute in Hr; discriminate Hr
         | vm_compute in Hr; discriminate Hr].
  - apply (H6 Examples.deps
             [DownloadSettles 0%nat (Some [Examples.block1]); TriggerSettles;
              ProcessSettles OtherProcessError;
              DownloadSettles 0%nat (Some [Examples.block2]); TriggerSettles;
              ProcessSettles Processed;
              DownloadSettles 1%nat (Some [Examples.block1]); TriggerSettles]).
    vm_compute. reflexivity.
Defined.

(** C4 as stated fails: on a chain stopped with batch 0 in AwaitingProcessing
    and batch 2 in Downloading, [advanceChain 4], with [4 > startEpoch = 0],
    throws and leaves [startEpoch] at 0. *)
Lemma advanceChain_throws_and_keeps_startEpoch :
  let c := Examples.chainAfter Examples.stoppedBeforeProcessing in
  Examples.summary c = [(0, AwaitingProcessing); (2, Downloading)]
  /\ startEpoch c = 0
  /\ fst (advanceChain 4 c) = Throw (BatchError BatchErrorCode.WRONG_STATUS)
  /\ startEpoch (snd (advanceChain 4 c)) = 0.
Proof. cbv zeta. repeat split; vm_compute; reflexivity. Qed.

(** ** Starting and stopping *)

Section StartStop.
Variable deps : Deps.

Lemma startSyncing_Syncing e c :
  status c = SyncChainStatus.Syncing -> startSyncing deps e c = (Ok tt, c).
Proof. intro H. unfold startSyncing, bind, get. cbn beta iota. rewrite H. reflexivity. Qed.

Lemma startSyncing_ended e c :
  status c = SyncChainStatus.Synced \/ status c = SyncChainStatus.Error ->
  startSyncing deps e c
  = (Throw (SyncChainStartError "Attempted to start an ended SyncChain"), c).
Proof.
  intro H. unfold startSyncing, bind, get. cbn beta iota.
  destruct H as [-> | ->]; reflexivity.
Qed.

Lemma startSyncing_Stopped e c :
  status c = SyncChainStatus.Stopped ->
  startSyncing deps e c
  = (advanceChain
       (startEpoch c + (e - startEpoch c) / EPOCHS_PER_BATCH * EPOCHS_PER_BATCH) ;;
     triggerBatchDownloader deps ;;
     triggerBatchProcessor)
      (setStatus SyncChainStatus.Syncing c).
Proof. intro H. unfold startSyncing, bind, get. cbn beta iota. rewrite H. reflexivity. Qed.

Lemma advanceChain_loop_result e c entries :
  forall s,
    sameHeap c s ->
    fst (forEach entries (advanceChain_visit e) s) = Ok tt
    \/ fst (forEach entries (advanceChain_visit e) s)
       = Throw (BatchError BatchErrorCode.WRONG_STATUS).
Proof.
  induction entries as [|[k ref] entries IH]; intros s Hs.
  - left. reflexivity.
  - rewrite forEach_cons.
    destruct (removedBy e c (k, ref)) eqn:Hr.
    + destruct (Batch.state (getBatch ref c)) as [| | | |attemptOk] eqn:Est.
      5:{ rewrite (advanceChain_visit_validated e c s k ref attemptOk Hs Hr Est).
          apply IH. exact Hs. }
      all: right;
        pose proof (advanceChain_visit_wrong e c s k ref Hs Hr) as Hw;
        rewrite Est in Hw;
        destruct (advanceChain_visit e (k, ref) s) as [r s1]; simpl in Hw;
        rewrite Hw by discriminate; reflexivity.
    + rewrite (advanceChain_visit_kept e c s (k, ref) Hs Hr). apply IH. exact Hs.
Qed.

(** [advanceChain] returns or throws WrongBatchState. *)
Lemma advanceChain_result e c :
  fst (advanceChain e c) = Ok tt
  \/ fst (advanceChain e c) = Throw (BatchError BatchErrorCode.WRONG_STATUS).
Proof.
  unfold advanceChain, bind, get. cbn beta iota.
  destruct (e <=? startEpoch c); [left; reflexivity|].
  destruct (advanceChain_loop_result e c (batches c) c (sameHeap_refl c)) as [H|H];
    destruct (forEach (batches c) (advanceChain_visit e) c) as [[[]|err] s1];
    simpl in H; try discriminate H; [left | right]; simpl; auto.
Qed.

Lemma triggerBatchDownloader_keepsStatus : preserves keepsStatus (triggerBatchDownloader deps).
Proof.
  eapply preserves_weaken; [|apply triggerBatchDownloader_sameControl].
  intros. apply advancesControl_keepsStatus, sameControl_advancesControl. assumption.
Qed.

Lemma advanceChain_keepsStatus e : preserves keepsStatus (advanceChain e).
Proof.
  eapply preserves_weaken; [apply advancesControl_keepsStatus|].
  apply advanceChain_advancesControl.
Qed.

(** Started from [Stopped], a chain is [Syncing], and what [startSyncing]
    can throw is the WrongBatchState of [advanceChain]. *)
Lemma startSyncing_Stopped_status e c :
  status c = SyncChainStatus.Stopped ->
  status (snd (startSyncing deps e c)) = SyncChainStatus.Syncing
  /\ (fst (startSyncing deps e c) = Ok tt
      \/ fst (startSyncing deps e c) = Throw (BatchError BatchErrorCode.WRONG_STATUS)).
Proof.
  intro H. rewrite (startSyncing_Stopped e c H).
  set (c1 := setStatus SyncChainStatus.Syncing c).
  set (aligned := startEpoch c + (e - startEpoch c) / EPOCHS_PER_BATCH * EPOCHS_PER_BATCH).
  split.
  - assert (Hk : preserves keepsStatus
                   (advanceChain aligned ;; triggerBatchDownloader deps ;;
                    triggerBatchProcessor)).
    { pose proof preorder_keepsStatus as HR.
      apply preserves_bind; [exact HR | apply advanceChain_keepsStatus | intro].
      apply preserves_bind; [exact HR | apply triggerBatchDownloader_keepsStatus | intro].
      apply preserves_modify. intro. reflexivity. }
    pose proof (preserves_snd keepsStatus _ c1 Hk) as Hs.
    unfold keepsStatus in Hs. rewrite Hs. reflexivity.
  - pose proof (advanceChain_result aligned c1) as Hr.
    unfold bind.
    destruct (advanceChain aligned c1) as [r s1]. simpl in Hr.
    destruct Hr as [-> | ->]; [|right; reflexivity].
    pose proof (triggerBatchDownloader_returns deps s1) as Hd.
    destruct (triggerBatchDownloader deps s1) as [r2 s2]. simpl in Hd. subst r2.
    left. reflexivity.
Qed.

End StartStop.

(** C7: the configured width of a batch is not the one [startSyncing] aligns
    with.  On a chain built with four epochs per batch, anchored at epoch 0
    and stopped, [startSyncing 6] advances the chain to epoch 6, the
    alignment for [EPOCHS_PER_BATCH = 2], while the alignment for four epochs
    per batch is epoch 4. *)
Theorem startSyncing_aligns_with_EPOCHS_PER_BATCH :
  let c := Examples.chainOfFour in
  status c = SyncChainStatus.Stopped
  /\ epochsPerBatch (opts c) = 4
  /\ startEpoch c = 0
  /\ startEpoch c + (6 - startEpoch c) / epochsPerBatch (opts c) * epochsPerBatch (opts c) = 4
  /\ fst (startSyncing Examples.deps 6 c) = Ok tt
  /\ status (snd (startSyncing Examples.deps 6 c)) = SyncChainStatus.Syncing
  /\ startEpoch (snd (startSyncing Examples.deps 6 c)) = 6.
Proof. cbv zeta. repeat split; vm_compute; reflexivity. Qed.

(** C10.  On a chain whose status is [Synced] or [Error], for which
    [isRemovable] holds and [startSyncing] fails, [stopSyncing] sets the
    status to [Stopped]; then [isRemovable] is false and [startSyncing] no
    longer fails with the error of an ended chain: it sets the status to
    [Syncing]. *)
Theorem stopSyncing_revives_ended_chain (deps : Deps) (c : SyncChain) (e : Epoch) :
  status c = SyncChainStatus.Synced \/ status c = SyncChainStatus.Error ->
  isRemovable c = true
  /\ (exists msg, startSyncing deps e c = (Throw (SyncChainStartError msg), c))
  /\ fst (stopSyncing c) = Ok tt
  /\ status (snd (stopSyncing c)) = SyncChainStatus.Stopped
  /\ isRemovable (snd (stopSyncing c)) = false
  /\ (forall msg,
         fst (startSyncing deps e (snd (stopSyncing c))) <> Throw (SyncChainStartError msg))
  /\ status (snd (startSyncing deps e (snd (stopSyncing c)))) = SyncChainStatus.Syncing.
Proof.
  intro H.
  split; [unfold isRemovable; destruct H as [-> | ->]; reflexivity|].
  split; [eexists; apply startSyncing_ended; exact H|].
  split; [reflexivity|]. split; [reflexivity|]. split; [reflexivity|].
  assert (Hst : status (snd (stopSyncing c)) = SyncChainStatus.Stopped) by reflexivity.
  destruct (startSyncing_Stopped_status deps e _ Hst) as [Hs Hr].
  split; [|exact Hs].
  intros msg Habs. destruct Hr as [Hr | Hr]; rewrite Hr in Habs; discriminate.
Qed.

Lemma stopSyncing_revives_ended_chain_witness :
  let c := Examples.chainAfter Examples.endedInError in
  status c = SyncChainStatus.Error
  /\ isRemovable (snd (stopSyncing c)) = false
  /\ status (snd (startSyncing Examples.deps 0 (snd (stopSyncing c))))
     = SyncChainStatus.Syncing.
Proof.
  cbv zeta.
  assert (H : status (Examples.chainAfter Examples.endedInError) = SyncChainStatus.Error)
    by (vm_compute; reflexivity).
  split; [exact H|].
  destruct (stopSyncing_revives_ended_chain Examples.deps
              (Examples.chainAfter Examples.endedInError) 0 (or_intror H))
    as (_ & _ & _ & _ & Hr & _ & Hs).
  split; assumption.
Defined.

(** ** The end of a chain *)

Lemma report_loop ps action name s :
  forEach ps (fun p => reportPeer p action name) s
  = (Ok tt, setEvents (events s ++ map (fun p => ReportPeer p action name) ps) s).
Proof.
  revert s. induction ps as [|p ps IH]; intro s.
  - simpl. unfold ret. rewrite setEvents_nil. reflexivity.
  - rewrite forEach_cons. unfold reportPeer at 1, emit, modify.
    rewrite IH. simpl. rewrite <- app_assoc. reflexivity.
Qed.

Lemma sync_catch_MAX_PROCESSING_ATTEMPTS s :
  sync_catch (BatchError BatchErrorCode.MAX_PROCESSING_ATTEMPTS) s
  = (Throw (BatchError BatchErrorCode.MAX_PROCESSING_ATTEMPTS),
     setEvents
       (events s
        ++ map (fun p => ReportPeer p LowToleranceError "SyncChainMaxProcessingAttempts")
             (getPeers s))
       (setStatus SyncChainStatus.Error s)).
Proof.
  unfold sync_catch. unfold bind at 1. unfold modify at 1.
  unfold bind at 1. unfold bind at 1. unfold gets at 1.
  rewrite report_loop. reflexivity.
Qed.




Lemma onEnds_reports ps action name :
  filter isOnEnd (map (fun p => ReportPeer p action name) ps) = [].
Proof. induction ps; simpl; auto. Qed.


Section EndOfChain.
Variable deps : Deps.

(** Once [sync()] has settled, no step moves it or calls [onEnd]. *)
Lemma stepChain_settled l c c' :
  syncLoop c = Settled -> stepChain deps l c = Some c' -> keepsLoop c c'.
Proof.
  assert (Hst : forall s s', steady s s' -> keepsLoop s s') by (intros s s' [[_ H] _]; exact H).
  intros Hl. destruct l; unfold stepChain; intro H.
  - injection H as <-. apply Hst. apply (preserves_snd steady (startSyncing deps _)).
    apply startSyncing_steady.
  - injection H as <-. apply Hst. apply (preserves_snd steady stopSyncing).
    apply stopSyncing_steady.
  - injection H as <-. apply Hst. apply (preserves_snd steady remove). apply remove_steady.
  - injection H as <-.
    apply (preserves_snd progress (addPeer deps _ _) c (addPeer_progress deps _ _)).
  - injection H as <-.
    apply (preserves_snd progress (removePeer deps _) c (removePeer_progress deps _)).
  - rewrite Hl in H. discriminate.
  - destruct (hasRef ref (pendingDownloads c)); try discriminate.
    injection H as <-.
    eapply (po_trans _ preorder_keepsLoop);
      [|apply Hst; apply (preserves_snd steady (sendBatch_resume deps _ _));
        apply sendBatch_resume_steady].
    frame_leaf.
  - rewrite Hl in H. discriminate.
Qed.

Lemma run_settled ls :
  forall c c', syncLoop c = Settled -> run deps ls c = Some c' -> keepsLoop c c'.
Proof.
  induction ls as [|l ls IH]; simpl; intros c c' Hl H.
  - inversion H; subst. apply preorder_keepsLoop.
  - destruct (stepChain deps l c) as [c1|] eqn:E; [|discriminate].
    pose proof (stepChain_settled l c c1 Hl E) as H1.
    eapply (po_trans _ preorder_keepsLoop); [exact H1|].
    apply IH; [|exact H]. destruct H1 as [_ H1]. congruence.
Qed.


End EndOfChain.

(** ** [sortBy] and the choice of a peer or of a chain *)

Section SortBy.
Context {T : Type}.
Variable conditions : list (T -> Z).

Lemma compareBy_refl a : compareBy conditions a a = Eq.
Proof.
  induction conditions as [|f cs IH]; simpl; auto.
  rewrite Z.compare_refl. exact IH.
Qed.

Lemma compareBy_antisym a b : compareBy conditions b a = CompOpp (compareBy conditions a b).
Proof.
  induction conditions as [|f cs IH]; simpl; auto.
  rewrite (Z.compare_antisym (f a) (f b)).
  destruct (f a ?= f b); simpl; auto.
Qed.

Lemma compareBy_trans a b c :
  compareBy conditions a b <> Gt -> compareBy conditions b c <> Gt ->
  compareBy conditions a c <> Gt.
Proof.
  induction conditions as [|f cs IH]; simpl; auto.
  destruct (Z.compare_spec (f a) (f b)), (Z.compare_spec (f b) (f c)),
    (Z.compare_spec (f a) (f c)); try lia; auto; try discriminate; intros; congruence.
Qed.

Lemma insertBy_In x y l : In y (insertBy conditions x l) <-> y = x \/ In y l.
Proof.
  induction l as [|z l IH]; simpl.
  - intuition.
  - destruct (compareBy conditions x z); simpl; rewrite ?IH; intuition.
Qed.

Lemma sortBy_In l y : In y (sortBy l conditions) <-> In y l.
Proof.
  induction l as [|x l IH]; simpl; [tauto|].
  unfold sortBy in *. simpl. rewrite insertBy_In, IH. intuition.
Qed.

Lemma insertBy_hdMin x l : hdMin conditions l -> hdMin conditions (insertBy conditions x l).
Proof.
  destruct l as [|z l]; simpl.
  - intros _ y [<- | []]. rewrite compareBy_refl. discriminate.
  - intro Hz. destruct (compareBy conditions x z) eqn:E; simpl.
    + intros y [<- | Hy]; [rewrite compareBy_refl; discriminate|].
      apply (compareBy_trans x z y); [rewrite E; discriminate | apply Hz, Hy].
    + intros y [<- | Hy]; [rewrite compareBy_refl; discriminate|].
      apply (compareBy_trans x z y); [rewrite E; discriminate | apply Hz, Hy].
    + intros y [<- | Hy]; [rewrite compareBy_refl; discriminate|].
      apply insertBy_In in Hy as [-> | Hy].
      * rewrite compareBy_antisym, E. discriminate.
      * apply Hz. right. exact Hy.
Qed.

Lemma sortBy_hdMin l : hdMin conditions (sortBy l conditions).
Proof.
  induction l as [|x l IH]; simpl; auto.
  unfold sortBy in *. simpl. apply insertBy_hdMin, IH.
Qed.

(** The first element of [sortBy arr conditions] is an element of [arr] that
    no element of [arr] precedes. *)
Lemma sortBy_first arr h :
  hd_error (sortBy arr conditions) = Some h ->
  In h arr /\ forall y, In y arr -> compareBy conditions h y <> Gt.
Proof.
  intro H. pose proof (sortBy_hdMin arr) as Hm.
  destruct (sortBy arr conditions) as [|h' l] eqn:E; [discriminate|].
  simpl in H. injection H as ->. split.
  - apply sortBy_In. rewrite E. left. reflexivity.
  - intros y Hy. apply Hm. rewrite <- E. apply sortBy_In. exact Hy.
Qed.

Lemma sortBy_nonempty arr : arr <> [] -> exists h, hd_error (sortBy arr conditions) = Some h.
Proof.
  intro H. destruct (sortBy arr conditions) as [|h l] eqn:E.
  - destruct arr as [|x arr]; [contradiction H; reflexivity|].
    assert (Hin : In x (sortBy (x :: arr) conditions)) by (apply sortBy_In; left; reflexivity).
    rewrite E in Hin. contradiction.
  - exists h. reflexivity.
Qed.

End SortBy.



(** The chain that [updateFinalizedChains] selects is one with the fewest
    peers. *)
Lemma updateFinalizedChains_first (finalizedChains : list (ChainRef * SyncChain)) u :
  updateFinalizedChains finalizedChains = Some u ->
  exists newSyncChain,
    In newSyncChain finalizedChains
    /\ (forall c, In c finalizedChains -> peers (snd newSyncChain) <= peers (snd c))
    /\ (toStart u = [fst newSyncChain] \/ toStart u = []).
Proof.
  unfold updateFinalizedChains. intro H.
  destruct (hd_error (sortBy finalizedChains _)) as [new|] eqn:E; [|discriminate].
  apply sortBy_first in E as [Hin Hmin].
  exists new. split; [exact Hin|]. split.
  - intros c Hc. specialize (Hmin c Hc). simpl in Hmin.
    destruct (Z.compare_spec (peers (snd new)) (peers (snd c))); try lia.
    contradiction Hmin. reflexivity.
  - destruct (find _ finalizedChains) as [cur|].
    + destruct (negb _ && _ && _); injection H as <-; simpl; auto.
    + injection H as <-. simpl. auto.
Qed.

(** C9: [updateFinalizedChains] takes the first chain of
    [sortBy(finalizedChains, peers, isSyncing ? 1 : 0)], and [sortBy] puts
    lower values first.  Of two stopped finalized chains, one with one peer
    and one with five, [updateChains] starts the chain with one peer, in
    whatever order they come; and a syncing chain with one peer and more than
    [MIN_FINALIZED_CHAIN_VALIDATED_EPOCHS] validated epochs is kept when a
    chain with five peers exists. *)
Theorem updateChains_selects_fewest_peers :
  let small := Examples.finalizedChain ["peer1"] SyncChainStatus.Stopped 0 in
  let large := Examples.finalizedChain Examples.fivePeers SyncChainStatus.Stopped 0 in
  let current := Examples.finalizedChain ["peer1"] SyncChainStatus.Syncing 20 in
  peers small = 1 /\ peers large = 5
  /\ updateChains [(0%nat, small); (1%nat, large)] = {| toStart := [0%nat]; toStop := [] |}
  /\ updateChains [(1%nat, large); (0%nat, small)] = {| toStart := [0%nat]; toStop := [] |}
  /\ MIN_FINALIZED_CHAIN_VALIDATED_EPOCHS < validatedEpochs current
  /\ updateChains [(0%nat, current); (1%nat, large)] = {| toStart := []; toStop := [] |}.
Proof. cbv zeta. repeat split. Qed.

(* ------------------------------------------------------------------------- *)
(** * Further properties of the sync code *)

(** ** The batch ordering helpers *)

Lemma getNextBatchToProcess_Some {B} (stateOf : B -> BatchState) (batches : list B) (b : B) :
  getNextBatchToProcess stateOf batches = Some b
  <-> exists pre post,
        batches = pre ++ b :: post
        /\ Forall (fun x => statusOf (stateOf x) = AwaitingValidation) pre
        /\ statusOf (stateOf b) = AwaitingProcessing.
Proof.
  split.
  - induction batches as [|x l IH]; simpl; [discriminate|].
    destruct (statusOf (stateOf x)) eqn:Ex; try discriminate.
    + intro H. injection H as <-. exists [], l. repeat split; auto.
    + intro H. destruct (IH H) as (pre & post & -> & Hpre & Hb).
      exists (x :: pre), post. repeat split; auto.
  - intros (pre & post & -> & Hpre & Hb).
    induction Hpre as [|x pre Hx _ IH]; simpl.
    + rewrite Hb. reflexivity.
    + rewrite Hx. exact IH.
Qed.

Lemma getNextBatchToProcess_None {B} (stateOf : B -> BatchState) (batches : list B) :
  getNextBatchToProcess stateOf batches = None
  <-> Forall (fun x => statusOf (stateOf x) = AwaitingValidation) batches
      \/ exists pre b post,
           batches = pre ++ b :: post
           /\ Forall (fun x => statusOf (stateOf x) = AwaitingValidation) pre
           /\ (statusOf (stateOf b) = AwaitingDownload
               \/ statusOf (stateOf b) = Downloading
               \/ statusOf (stateOf b) = Processing).
Proof.
  split.
  - induction batches as [|x l IH]; simpl; [left; constructor|].
    destruct (statusOf (stateOf x)) eqn:Ex; try discriminate; intro H.
    1-3: right; exists [], x, l; repeat split; auto.
    destruct (IH H) as [Hall | (pre & b & post & -> & Hpre & Hb)].
    + left. constructor; assumption.
    + right. exists (x :: pre), b, post. repeat split; auto.
  - intros [Hall | (pre & b & post & -> & Hpre & Hb)].
    + induction Hall as [|x l Hx _ IH]; simpl; [reflexivity|]. rewrite Hx. exact IH.
    + induction Hpre as [|x pre Hx _ IH]; simpl.
      * destruct Hb as [-> | [-> | ->]]; reflexivity.
      * rewrite Hx. exact IH.
Qed.

(** X1.  [getNextBatchToProcess] returns the first batch that is not
    AwaitingValidation when that batch is AwaitingProcessing, and it returns
    nothing otherwise: when every batch is AwaitingValidation (also when there
    is no batch), or when the first batch that is not AwaitingValidation is
    AwaitingDownload, Downloading or Processing, even if a batch in
    AwaitingProcessing follows it. *)
Theorem getNextBatchToProcess_first_unvalidated (batches : list Batch.t) :
  (forall b,
      getNextBatchToProcess Batch.state batches = Some b
      <-> exists pre post,
            batches = pre ++ b :: post
            /\ Forall (fun x => statusOf (Batch.state x) = AwaitingValidation) pre
            /\ statusOf (Batch.state b) = AwaitingProcessing)
  /\ (getNextBatchToProcess Batch.state batches = None
      <-> Forall (fun x => statusOf (Batch.state x) = AwaitingValidation) batches
          \/ exists pre b post,
               batches = pre ++ b :: post
               /\ Forall (fun x => statusOf (Batch.state x) = AwaitingValidation) pre
               /\ (statusOf (Batch.state b) = AwaitingDownload
                   \/ statusOf (Batch.state b) = Downloading
                   \/ statusOf (Batch.state b) = Processing)).
Proof.
  split.
  - intro b. apply getNextBatchToProcess_Some.
  - apply getNextBatchToProcess_None.
Qed.

Lemma fold_left_max_ge xs : forall x, x <= fold_left Z.max xs x.
Proof.
  induction xs as [|y xs IH]; intro x; simpl; [lia|].
  specialize (IH (Z.max x y)). lia.
Qed.

Lemma fold_left_max_upper xs : forall x y, In y xs -> y <= fold_left Z.max xs x.
Proof.
  induction xs as [|z xs IH]; intros x y Hin; simpl; [destruct Hin|].
  destruct Hin as [-> | Hin].
  - pose proof (fold_left_max_ge xs (Z.max x y)). lia.
  - apply IH. exact Hin.
Qed.

Lemma fold_left_max_In xs : forall x, fold_left Z.max xs x = x \/ In (fold_left Z.max xs x) xs.
Proof.
  induction xs as [|z xs IH]; intro x; simpl; [left; reflexivity|].
  destruct (IH (Z.max x z)) as [H | H].
  - rewrite H. destruct (Z.max_spec x z) as [[_ ->] | [_ ->]]; auto.
  - right. right. exact H.
Qed.

Lemma mathMax_upper xs y : In y xs -> y <= mathMax xs.
Proof.
  destruct xs as [|x xs]; simpl; [intros []|].
  intros [-> | Hin]; [apply fold_left_max_ge | apply fold_left_max_upper; exact Hin].
Qed.

Lemma mathMax_In xs : xs <> [] -> In (mathMax xs) xs.
Proof.
  destruct xs as [|x xs]; [congruence|]. intros _. simpl.
  destruct (fold_left_max_In xs x) as [-> | H]; auto.
Qed.

(** X2.  [toBeProcessedStartEpoch] is the start epoch of the chain when no
    batch is AwaitingValidation.  Otherwise it lies [epochsPerBatch] beyond
    the start epoch of one of the batches in AwaitingValidation, and at least
    that far beyond the start epoch of each of them. *)
Theorem toBeProcessedStartEpoch_beyond_validated (batches : list Batch.t)
  (anchor : Epoch) (o : BatchOpts) :
  let validated b := statusOf (Batch.state b) = AwaitingValidation in
  let next := toBeProcessedStartEpoch batches anchor o in
  ((forall b, In b batches -> ~ validated b) /\ next = anchor
   \/ exists b, In b batches /\ validated b /\ next = Batch.startEpoch b + epochsPerBatch o)
  /\ (forall b, In b batches -> validated b -> Batch.startEpoch b + epochsPerBatch o <= next).
Proof.
  cbv zeta. unfold toBeProcessedStartEpoch.
  set (isv := fun batch : Batch.t =>
                BatchStatus_eqb (statusOf (Batch.state batch)) AwaitingValidation).
  assert (Hisv : forall b, isv b = true <-> statusOf (Batch.state b) = AwaitingValidation).
  { intro b. unfold isv. destruct (statusOf (Batch.state b)); simpl; split;
      congruence. }
  destruct (filter isv batches) as [|v vs] eqn:Ef.
  - simpl. split.
    + left. split; [|reflexivity]. intros b Hin Hv.
      assert (Hf : In b (filter isv batches)) by (apply filter_In; split; [|apply Hisv]; auto).
      rewrite Ef in Hf. destruct Hf.
    + intros b Hin Hv.
      assert (Hf : In b (filter isv batches)) by (apply filter_In; split; [|apply Hisv]; auto).
      rewrite Ef in Hf. destruct Hf.
  - assert (Hpos : (0 <? len (map Batch.startEpoch (v :: vs))) = true).
    { apply Z.ltb_lt. unfold len. simpl. lia. }
    rewrite Hpos. split.
    + right.
      assert (Hne : map Batch.startEpoch (v :: vs) <> []) by discriminate.
      destruct (proj1 (in_map_iff _ _ _) (mathMax_In _ Hne)) as (b & Hb & Hin).
      rewrite <- Ef in Hin. apply filter_In in Hin. destruct Hin as [Hin Hv].
      exists b. split; [exact Hin|]. split; [apply Hisv; exact Hv|]. rewrite Hb. reflexivity.
    + intros b Hin Hv.
      assert (Hf : In b (v :: vs)).
      { rewrite <- Ef. apply filter_In. split; [|apply Hisv]; auto. }
      pose proof (mathMax_upper (map Batch.startEpoch (v :: vs)) (Batch.startEpoch b)
                    (in_map _ _ _ Hf)).
      lia.
Qed.

(** ** The batch of asStateMachine/batch.ts *)

Section AsBatch.
Import AsStateMachine.
Variable hashBlocks : IBeaconConfig -> list SignedBeaconBlock -> Root.

(** X3.  Each method of a batch is a transition out of one state: it returns
    when the batch is in that state, and in every other state it throws a
    [WrongStateError] and leaves the batch untouched.  No method of this
    class throws anything else. *)
Theorem batch_methods_guard_their_state (b : Batch.t) (p : PeerId)
  (blocks : list SignedBeaconBlock) :
  Batch.onlyFrom AwaitingDownload (Batch.startDownloading p) b
  /\ Batch.onlyFrom Downloading (Batch.downloadingSuccess blocks) b
  /\ Batch.onlyFrom Downloading Batch.downloadingError b
  /\ Batch.onlyFrom AwaitingProcessing (Batch.startProcessing hashBlocks) b
  /\ Batch.onlyFrom Processing Batch.processingSuccess b
  /\ Batch.onlyFrom Processing Batch.processingError b
  /\ Batch.onlyFrom AwaitingValidation Batch.validationError b.
Proof.
  unfold Batch.onlyFrom, Batch.startDownloading, Batch.downloadingSuccess,
    Batch.downloadingError, Batch.startProcessing, Batch.processingSuccess,
    Batch.processingError, Batch.validationError.
  repeat split; intro H; destruct (Batch.state b); simpl in H;
    try discriminate; try (exfalso; apply H; reflexivity);
    try (eexists; eexists; reflexivity); eexists; reflexivity.
Qed.

(** X4.  A batch that goes through a download and its processing hands to
    the processor the blocks the download returned: from AwaitingDownload,
    [startDownloading p], [downloadingSuccess blocks] and [startProcessing]
    return [blocks], and after [processingSuccess] the batch is
    AwaitingValidation with the attempt of [p] on the hash of these blocks;
    its id, its request and its failed attempts are as they were. *)
Theorem batch_download_process_roundtrip (b : Batch.t) (p : PeerId)
  (blocks : list SignedBeaconBlock) :
  Batch.state b = StAwaitingDownload ->
  exists b',
    (Batch.startDownloading p ;;
     Batch.downloadingSuccess blocks ;;
     processed <- Batch.startProcessing hashBlocks ;;
     Batch.processingSuccess ;;
     ret processed) b
    = (Ok blocks, b')
    /\ Batch.state b'
       = StAwaitingValidation {| peer := p; hash := hashBlocks (Batch.config b) blocks |}
    /\ Batch.id b' = Batch.id b
    /\ Batch.request b' = Batch.request b
    /\ Batch.getFailedPeers b' = Batch.getFailedPeers b.
Proof.
  intro H. eexists. unfold bind, Batch.startDownloading. rewrite H. simpl.
  repeat split.
Qed.

(** X5.  The failed peers of a batch only accumulate: no method drops a peer
    from [getFailedPeers], a failed download adds the peer that was
    downloading, and a failed processing or validation adds the peer of the
    attempt. *)
Theorem getFailedPeers_accumulate (b : Batch.t) (p : PeerId)
  (blocks : list SignedBeaconBlock) :
  (Batch.keepsFailedPeers (Batch.startDownloading p) b
   /\ Batch.keepsFailedPeers (Batch.downloadingSuccess blocks) b
   /\ Batch.keepsFailedPeers Batch.downloadingError b
   /\ Batch.keepsFailedPeers (Batch.startProcessing hashBlocks) b
   /\ Batch.keepsFailedPeers Batch.processingSuccess b
   /\ Batch.keepsFailedPeers Batch.processingError b
   /\ Batch.keepsFailedPeers Batch.validationError b)
  /\ (forall q bs, Batch.state b = StDownloading q bs ->
                   In q (Batch.getFailedPeers (snd (Batch.downloadingError b))))
  /\ (forall a, Batch.state b = StProcessing a ->
                In (peer a) (Batch.getFailedPeers (snd (Batch.processingError b))))
  /\ (forall a, Batch.state b = StAwaitingValidation a ->
                In (peer a) (Batch.getFailedPeers (snd (Batch.validationError b)))).
Proof.
  unfold Batch.keepsFailedPeers, Batch.startDownloading, Batch.downloadingSuccess,
    Batch.downloadingError, Batch.startProcessing, Batch.processingSuccess,
    Batch.processingError, Batch.validationError, Batch.getFailedPeers.
  repeat split.
  1-7: intros q Hq; destruct (Batch.state b); simpl; try exact Hq;
    rewrite ?map_app; apply in_app_iff in Hq; rewrite !in_app_iff; tauto.
  - intros q bs H. rewrite H. simpl. rewrite !in_app_iff. simpl. tauto.
  - intros a H. rewrite H. simpl. rewrite map_app, !in_app_iff. simpl. tauto.
  - intros a H. rewrite H. simpl. rewrite map_app, !in_app_iff. simpl. tauto.
Qed.

End AsBatch.

Lemma batch_download_process_roundtrip_witness :
  let hashBlocks := fun (_ : IBeaconConfig) blocks => List.concat (map blockRoot blocks) in
  let b := AsStateMachine.Batch.newBatch Examples.config32 4 EPOCHS_PER_BATCH in
  exists b',
    (AsStateMachine.Batch.startDownloading "peer1" ;;
     AsStateMachine.Batch.downloadingSuccess [Examples.block1; Examples.block2] ;;
     processed <- AsStateMachine.Batch.startProcessing hashBlocks ;;
     AsStateMachine.Batch.processingSuccess ;;
     ret processed) b
    = (Ok [Examples.block1; Examples.block2], b')
    /\ AsStateMachine.Batch.state b'
       = StAwaitingValidation {| peer := "peer1"; hash := [Byte.x01; Byte.x02] |}.
Proof.
  cbv zeta.
  destruct (batch_download_process_roundtrip
              (fun (_ : IBeaconConfig) blocks => List.concat (map blockRoot blocks))
              (AsStateMachine.Batch.newBatch Examples.config32 4 EPOCHS_PER_BATCH)
              "peer1" [Examples.block1; Examples.block2] eq_refl)
    as (b' & Hrun & Hstate & _).
  exists b'. split; [exact Hrun | exact Hstate].
Defined.

(** ** The chain of asStateMachine/chain.ts *)

Section MapLemmas.
Context {V : Type}.




Lemma mapSet_absent (m : list (Z * V)) k v :
  mapHas m k = false -> mapSet m k v = m ++ [(k, v)].
Proof.
  unfold mapHas. induction m as [|[k0 v0] m IH]; simpl; intro H; [reflexivity|].
  destruct (k0 =? k); [discriminate|]. rewrite (IH H). reflexivity.
Qed.

Lemma mapHas_keys (m : list (Z * V)) k : mapHas m k = true <-> In k (map fst m).
Proof.
  unfold mapHas. induction m as [|[k0 v0] m IH]; simpl.
  - split; [discriminate | intros []].
  - destruct (Z.eqb_spec k0 k) as [-> | Hne].
    + split; auto.
    + rewrite IH. intuition.
Qed.

Lemma mapDelete_filter (m : list (Z * V)) k :
  mapDelete m k = filter (fun kv => negb (fst kv =? k)) m.
Proof. reflexivity. Qed.

End MapLemmas.

Section AsChain.
Import AsStateMachine.

Lemma wmGet_wmSet m k v k' :
  wmGet (wmSet m k v) k' = if String.eqb k k' then Some v else wmGet m k'.
Proof.
  induction m as [|[k0 v0] m IH]; simpl; unfold sameObject in *.
  - reflexivity.
  - destruct (String.eqb_spec k0 k) as [-> | Hne]; simpl; unfold sameObject.
    + destruct (String.eqb k k'); reflexivity.
    + rewrite IH. destruct (String.eqb_spec k0 k') as [-> | Hne'].
      * destruct (String.eqb_spec k k') as [-> | _]; [contradiction Hne; reflexivity|].
        reflexivity.
      * reflexivity.
Qed.

Lemma getActiveRequestsByPeer_fold (p : PeerId) (bs : list Batch.t) :
  forall (done : list Batch.t) (acc : list (PeerId * Z)),
    (forall q, wmGet acc q
               = if len (filter (isDownloadingFrom q) done) =? 0 then None
                 else Some (len (filter (isDownloadingFrom q) done))) ->
    wmGet
      (fold_left
         (fun activeRequestsByPeer batch =>
            match Batch.state batch with
            | StDownloading p' _ =>
                wmSet activeRequestsByPeer p' (nullish (wmGet activeRequestsByPeer p') 0 + 1)
            | _ => activeRequestsByPeer
            end) bs acc) p
    = if len (filter (isDownloadingFrom p) (done ++ bs)) =? 0 then None
      else Some (len (filter (isDownloadingFrom p) (done ++ bs))).
Proof.
  induction bs as [|b bs IH]; intros done acc Hacc.
  - simpl. rewrite app_nil_r. apply Hacc.
  - simpl. replace (done ++ b :: bs) with ((done ++ [b]) ++ bs)
      by (rewrite <- app_assoc; reflexivity).
    apply IH. intro q. rewrite filter_app. simpl. unfold isDownloadingFrom at 2 4.
    destruct (Batch.state b) as [|q' bl| | |] eqn:Eb;
      try (rewrite app_nil_r; apply Hacc).
    rewrite wmGet_wmSet, !Hacc. unfold sameObject.
    destruct (String.eqb_spec q' q) as [-> | Hne].
    + rewrite len_app_one.
      set (n := len (filter (isDownloadingFrom q) done)).
      assert (Hge : 0 <= n) by (unfold n, len; lia).
      destruct (Z.eqb_spec n 0) as [E0 | Hn0].
      * rewrite E0. reflexivity.
      * simpl. destruct (Z.eqb_spec (n + 1) 0) as [Habs | _]; [lia | reflexivity].
    + rewrite app_nil_r. reflexivity.
Qed.

(** X6.  [getActiveRequestsByPeer] counts, for each [PeerId] object, the
    batches of the chain that are being downloaded from it when it is called:
    a peer with such batches is mapped to their number, and a peer with none
    is not in the map, so that [!activeRequestsByPeer.get(peer)] holds of the
    peers with none.  The map is a count of that moment: the downloads
    started after the call are not in it. *)
Theorem getActiveRequestsByPeer_counts_downloads (c : SyncingChain) (p : PeerId) :
  wmGet (getActiveRequestsByPeer c) p
  = (if downloadsFrom p c =? 0 then None else Some (downloadsFrom p c))
  /\ negb (truthy (wmGet (getActiveRequestsByPeer c) p)) = (downloadsFrom p c =? 0).
Proof.
  assert (H : wmGet (getActiveRequestsByPeer c) p
              = if downloadsFrom p c =? 0 then None else Some (downloadsFrom p c)).
  { unfold getActiveRequestsByPeer, downloadsFrom.
    apply (getActiveRequestsByPeer_fold p (mapValues (batches c)) [] []).
    intro q. reflexivity. }
  split; [exact H|]. rewrite H.
  destruct (downloadsFrom p c =? 0) eqn:E; simpl; [reflexivity|]. rewrite E. reflexivity.
Qed.

(** X7.  Two batches that [includeNextBatch] creates one after the other
    request adjacent ranges of slots: the second starts [EPOCHS_PER_BATCH]
    epochs after the first, each requests the slots of [EPOCHS_PER_BATCH]
    epochs from the slot that follows the first slot of its start epoch, and
    the request of the second begins where the request of the first ends. *)
Theorem includeNextBatch_requests_adjacent (c c1 c2 : SyncingChain)
  (t1 t2 : Epoch) (b1 b2 : Batch.t) :
  includeNextBatch t1 c = (Ok (Some b1), c1) ->
  includeNextBatch t2 c1 = (Ok (Some b2), c2) ->
  Batch.id b2 = Batch.id b1 + EPOCHS_PER_BATCH
  /\ startSlot (Batch.request b1)
     = computeStartSlotAtEpoch (SLOTS_PER_EPOCH (config c)) (Batch.id b1) + 1
  /\ count (Batch.request b1) = EPOCHS_PER_BATCH * SLOTS_PER_EPOCH (config c)
  /\ count (Batch.request b2) = EPOCHS_PER_BATCH * SLOTS_PER_EPOCH (config c)
  /\ startSlot (Batch.request b2)
     = startSlot (Batch.request b1) + count (Batch.request b1).
Proof.
  unfold includeNextBatch. intros H1 H2.
  destruct (t1 <? downloaderTarget c); [discriminate|].
  match type of H1 with
  | (if ?x then _ else _) = _ => destruct x; [discriminate|]
  end.
  injection H1 as <- <-.
  destruct (t2 <? _); [discriminate|].
  match type of H2 with
  | (if ?x then _ else _) = _ => destruct x; [discriminate|]
  end.
  injection H2 as <- _.
  unfold Batch.newBatch, computeStartSlotAtEpoch.
  cbn [Batch.id Batch.request startSlot count config setDownloaderTarget setBatches
         downloaderTarget].
  unfold EPOCHS_PER_BATCH. repeat split; lia.
Qed.

Lemma includeNextBatch_requests_adjacent_witness :
  let c := newSyncingChain 10 Examples.config32 in
  let b1 := Batch.newBatch Examples.config32 10 EPOCHS_PER_BATCH in
  let b2 := Batch.newBatch Examples.config32 12 EPOCHS_PER_BATCH in
  fst (includeNextBatch 100 c) = Ok (Some b1)
  /\ fst (includeNextBatch 100 (snd (includeNextBatch 100 c))) = Ok (Some b2)
  /\ Batch.request b1 = {| startSlot := 321; count := 64; step := 1 |}
  /\ startSlot (Batch.request b2) = startSlot (Batch.request b1) + count (Batch.request b1).
Proof.
  cbv zeta.
  split; [vm_compute; reflexivity|]. split; [vm_compute; reflexivity|].
  split; [vm_compute; reflexivity|].
  apply (includeNextBatch_requests_adjacent
           (newSyncingChain 10 Examples.config32)
           (snd (includeNextBatch 100 (newSyncingChain 10 Examples.config32)))
           (snd (includeNextBatch 100
                   (snd (includeNextBatch 100 (newSyncingChain 10 Examples.config32)))))
           100 100).
  - vm_compute. reflexivity.
  - vm_compute. reflexivity.
Defined.

End AsChain.

Section AsDownloader.
Import AsStateMachine.
Variable shuffle : list PeerId -> list PeerId.





End AsDownloader.

Section AsDownloaderExamples.
Import AsStateMachine.


End AsDownloaderExamples.

Section AsAdvanceChain.
Import AsStateMachine.

Lemma filter_filter {A} (f g : A -> bool) (l : list A) :
  filter f (filter g l) = filter (fun x => g x && f x) l.
Proof.
  induction l as [|x l IH]; simpl; [reflexivity|].
  destruct (g x); simpl; [destruct (f x)|]; rewrite IH; reflexivity.
Qed.

Lemma filter_all {A} (f : A -> bool) (l : list A) :
  (forall x, In x l -> f x = true) -> filter f l = l.
Proof.
  induction l as [|x l IH]; simpl; intro H; [reflexivity|].
  rewrite (H x (or_introl eq_refl)), IH; [reflexivity|].
  intros y Hy. apply H. right. exact Hy.
Qed.

(** The deletions of the first loop of [advanceChain], entry after entry. *)
Lemma advanceChain_deletions (v : Z) (entries : list (Z * Batch.t)) :
  forall m : list (Z * Batch.t),
    fold_left (fun m entry => if fst entry <? v then mapDelete m (fst entry) else m) entries m
    = filter
        (fun kv => negb ((fst kv <? v) && existsb (fun entry => fst entry =? fst kv) entries))
        m.
Proof.
  induction entries as [|e entries IH]; intro m; cbn [fold_left existsb].
  - symmetry. apply filter_all. intros x _. rewrite andb_false_r. reflexivity.
  - rewrite IH.
    match goal with
    | |- context [if ?x then _ else _] => destruct x eqn:Ev
    end.
    + unfold mapDelete. rewrite filter_filter. apply filter_ext. intro kv.
      destruct (Z.eqb_spec (fst kv) (fst e)) as [E | Hne]; cbn [negb andb].
      * rewrite E, Ev, Z.eqb_refl. reflexivity.
      * destruct (Z.eqb_spec (fst e) (fst kv)) as [E | _];
          [contradiction Hne; symmetry; exact E | reflexivity].
    + apply filter_ext. intro kv.
      destruct (Z.eqb_spec (fst e) (fst kv)) as [E | _]; cbn [orb]; [|reflexivity].
      rewrite <- E, Ev. reflexivity.
Qed.

Lemma advanceChain_delete_loop (v : Z) (entries : list (Z * Batch.t)) :
  forall c : SyncingChain,
    forEach entries
      (fun entry =>
         if fst entry <? v
         then modify (fun this => setBatches (mapDelete (batches this) (fst entry)) this)
         else ret tt) c
    = (Ok tt,
       setBatches
         (fold_left (fun m entry => if fst entry <? v then mapDelete m (fst entry) else m)
            entries (batches c)) c).
Proof.
  induction entries as [|e entries IH]; intro c.
  - destruct c. reflexivity.
  - rewrite forEach_cons. cbn [fold_left]. destruct (fst e <? v).
    + unfold modify. rewrite IH. reflexivity.
    + unfold ret. rewrite IH. reflexivity.
Qed.

Lemma advanceChain_count_loop {T} (removed : list T) :
  forall c : SyncingChain,
    forEach removed
      (fun _ => modify (fun this => setValidatedBatches (validatedBatches this + 1) this)) c
    = (Ok tt, setValidatedBatches (validatedBatches c + len removed) c).
Proof.
  induction removed as [|x removed IH]; intro c.
  - simpl. unfold ret, len. simpl. rewrite Z.add_0_r. destruct c. reflexivity.
  - rewrite forEach_cons. unfold modify. rewrite IH.
    cbn [validatedBatches setValidatedBatches].
    replace (validatedBatches c + 1 + len removed)
      with (validatedBatches c + len (x :: removed)); [reflexivity|].
    unfold len. cbn [List.length]. lia.
Qed.

Lemma advanceChain_behind (v : Epoch) (c : SyncingChain) :
  v <= startEpoch c -> advanceChain v c = (Ok tt, c).
Proof.
  intro H. unfold advanceChain, bind, get.
  destruct (Z.leb_spec v (startEpoch c)); [reflexivity | lia].
Qed.

(** What [advanceChain] does when it advances. *)
Lemma advanceChain_advancing (v : Epoch) (c : SyncingChain) :
  startEpoch c < v ->
  Z.rem v EPOCHS_PER_BATCH = Z.rem (startEpoch c) EPOCHS_PER_BATCH ->
  exists c',
    advanceChain v c = (Ok tt, c')
    /\ startEpoch c' = v
    /\ batches c' = filter (fun kv => negb (fst kv <? v)) (batches c)
    /\ validatedBatches c'
       = validatedBatches c + len (filter (fun kv => fst kv <? v) (batches c))
    /\ processorTarget c' = Z.max (processorTarget c) v
    /\ (downloaderTarget c' = Z.max (downloaderTarget c) v
        \/ downloaderTarget c' = Z.max (downloaderTarget c) v + EPOCHS_PER_BATCH)
    /\ peerSet c' = peerSet c /\ config c' = config c /\ requests c' = requests c.
Proof.
  intros Hlt Hal. unfold advanceChain. unfold Epoch in *.
  unfold bind at 1. unfold get at 1.
  destruct (Z.leb_spec v (startEpoch c)) as [Hle | _]; [lia|].
  rewrite Hal, Z.eqb_refl. cbn [negb].
  unfold bind at 1. rewrite advanceChain_delete_loop.
  unfold bind at 1. rewrite advanceChain_count_loop.
  rewrite advanceChain_deletions.
  unfold bind, modify, get. cbn [batches setBatches setValidatedBatches setProcessorTarget
    setStartEpoch setDownloaderTarget downloaderTarget validatedBatches processorTarget].
  match goal with
  | |- context [filter ?f ?l] =>
      rewrite (filter_ext_in f (fun kv => negb (fst kv <? v)) l)
        by (intros kv Hin;
            match goal with
            | |- context [existsb ?g ?l'] => replace (existsb g l') with true
            end;
            [rewrite andb_true_r; reflexivity
            |symmetry; apply existsb_exists; exists kv;
             split; [exact Hin | apply Z.eqb_refl]])
  end.
  match goal with
  | |- context [if ?x then _ else _] => destruct x
  end; eexists; (split; [reflexivity|]); cbn; repeat split; auto.
Qed.

(** X9.  [advanceChain] does nothing when the epoch is not beyond the start
    of the chain.  Beyond it, an epoch that is not on a batch boundary of the
    chain is refused with an error that leaves the chain as it was; an epoch
    on a boundary becomes the start of the chain: the batches before it, and
    only these, are dropped and counted as validated, and the processor and
    downloader targets are moved up to it if they were behind. *)
Theorem advanceChain_moves_the_boundaries (c : SyncingChain) (v : Epoch) :
  (v <= startEpoch c -> advanceChain v c = (Ok tt, c))
  /\ (startEpoch c < v ->
      Z.rem v EPOCHS_PER_BATCH <> Z.rem (startEpoch c) EPOCHS_PER_BATCH ->
      advanceChain v c = (Throw (PlainError "Validating Epoch is not aligned"), c))
  /\ (startEpoch c < v ->
      Z.rem v EPOCHS_PER_BATCH = Z.rem (startEpoch c) EPOCHS_PER_BATCH ->
      exists c',
        advanceChain v c = (Ok tt, c')
        /\ startEpoch c' = v
        /\ batches c' = filter (fun kv => negb (fst kv <? v)) (batches c)
        /\ (forall k b, In (k, b) (batches c') -> v <= k)
        /\ validatedBatches c'
           = validatedBatches c + len (filter (fun kv => fst kv <? v) (batches c))
        /\ v <= processorTarget c' /\ processorTarget c <= processorTarget c'
        /\ v <= downloaderTarget c' /\ downloaderTarget c <= downloaderTarget c').
Proof.
  split; [|split].
  - apply advanceChain_behind.
  - intros Hlt Hne. unfold advanceChain, bind, get.
    destruct (Z.leb_spec v (startEpoch c)); [lia|].
    destruct (Z.eqb_spec (Z.rem v EPOCHS_PER_BATCH) (Z.rem (startEpoch c) EPOCHS_PER_BATCH));
      [contradiction | reflexivity].
  - intros Hlt Hal.
    destruct (advanceChain_advancing v c Hlt Hal)
      as (c' & Hrun & Hs & Hb & Hv & Hp & Hd & _).
    exists c'. split; [exact Hrun|]. split; [exact Hs|]. split; [exact Hb|].
    split.
    { intros k b Hin. rewrite Hb in Hin. apply filter_In in Hin. destruct Hin as [_ Hk].
      simpl in Hk. apply negb_true_iff, Z.ltb_ge in Hk. exact Hk. }
    split; [exact Hv|]. unfold EPOCHS_PER_BATCH in Hd. lia.
Qed.

(** X10.  The epoch that [startSyncing] advances the chain to passes the
    boundary check of [advanceChain]: on a chain that starts at a non-negative
    epoch the call returns, the start of the chain does not go back and stays
    on a batch boundary, and when [localFinalizedEpoch] is not behind the
    chain the new start is the last boundary at or before it. *)
Theorem startSyncing_advances_to_a_boundary (c : SyncingChain) (localFinalizedEpoch : Epoch) :
  0 <= startEpoch c ->
  exists c',
    advanceChain (validatingEpoch localFinalizedEpoch c) c = (Ok tt, c')
    /\ startEpoch c <= startEpoch c'
    /\ (exists n, startEpoch c' = startEpoch c + n * EPOCHS_PER_BATCH)
    /\ (startEpoch c <= localFinalizedEpoch ->
        localFinalizedEpoch - EPOCHS_PER_BATCH < startEpoch c' <= localFinalizedEpoch).
Proof.
  intro H0. unfold validatingEpoch.
  set (n := (localFinalizedEpoch - startEpoch c) / EPOCHS_PER_BATCH).
  assert (Hn : EPOCHS_PER_BATCH * n <= localFinalizedEpoch - startEpoch c
               < EPOCHS_PER_BATCH * n + EPOCHS_PER_BATCH).
  { unfold n, EPOCHS_PER_BATCH.
    pose proof (Z.mul_div_le (localFinalizedEpoch - startEpoch c) 2 ltac:(lia)).
    pose proof (Z.mul_succ_div_gt (localFinalizedEpoch - startEpoch c) 2 ltac:(lia)).
    lia. }
  unfold EPOCHS_PER_BATCH in Hn.
  destruct (Z.le_gt_cases (startEpoch c + n * EPOCHS_PER_BATCH) (startEpoch c)) as [Hle | Hgt].
  - exists c. split.
    + apply advanceChain_behind. exact Hle.
    + split; [lia|]. split; [exists 0; lia|]. unfold EPOCHS_PER_BATCH in *. lia.
  - destruct (advanceChain_advancing (startEpoch c + n * EPOCHS_PER_BATCH) c)
      as (c' & Hrun & Hs & _); [lia| |].
    + unfold EPOCHS_PER_BATCH in *. rewrite !Z.rem_mod_nonneg by lia.
      rewrite Z.mod_add by lia. reflexivity.
    + exists c'. split; [exact Hrun|]. rewrite Hs.
      split; [lia|]. split; [exists n; reflexivity|]. unfold EPOCHS_PER_BATCH in *. lia.
Qed.

End AsAdvanceChain.

Section AsAdvanceChainExamples.
Import AsStateMachine.

Lemma startSyncing_advances_to_a_boundary_witness :
  let c := Examples.asHeld [2; 4] 6 in
  startEpoch c = 0
  /\ exists c',
      advanceChain (validatingEpoch 5 c) c = (Ok tt, c')
      /\ startEpoch c' = 4.
Proof.
  cbv zeta. split; [reflexivity|].
  destruct (startSyncing_advances_to_a_boundary (Examples.asHeld [2; 4] 6) 5)
    as (c' & Hrun & _ & [n Hn] & Hnear).
  - simpl. lia.
  - exists c'. split; [exact Hrun|].
    change (startEpoch (Examples.asHeld [2; 4] 6)) with 0 in Hn, Hnear.
    unfold EPOCHS_PER_BATCH in Hn, Hnear. lia.
Defined.

End AsAdvanceChainExamples.

(** ** The choice of the chains to sync (updateChains.ts) *)

Section SortByPermutation.
Context {T : Type}.
Variable conditions : list (T -> Z).

Lemma insertBy_Permutation x l : Permutation (insertBy conditions x l) (x :: l).
Proof.
  induction l as [|y l IH]; simpl; [apply Permutation_refl|].
  destruct (compareBy conditions x y); try apply Permutation_refl.
  eapply perm_trans; [apply perm_skip, IH | apply perm_swap].
Qed.

Lemma sortBy_Permutation l : Permutation (sortBy l conditions) l.
Proof.
  induction l as [|x l IH]; simpl; [apply Permutation_refl|].
  unfold sortBy in *. simpl.
  eapply perm_trans; [apply insertBy_Permutation | apply perm_skip, IH].
Qed.

End SortByPermutation.

Lemma updateHeadChains_loop (sorted : list (ChainRef * SyncChain)) :
  forall acc : ChainUpdate,
    len (toStart acc) <= PARALLEL_HEAD_CHAINS ->
    let u :=
      fold_left
        (fun acc syncChain =>
           if len (toStart acc) <? PARALLEL_HEAD_CHAINS
           then {| toStart := toStart acc ++ [fst syncChain]; toStop := toStop acc |}
           else {| toStart := toStart acc; toStop := toStop acc ++ [fst syncChain] |})
        sorted acc in
    Permutation (toStart u ++ toStop u) (toStart acc ++ toStop acc ++ map fst sorted)
    /\ len (toStart u) = Z.min PARALLEL_HEAD_CHAINS (len (toStart acc) + len sorted).
Proof.
  cbv zeta. induction sorted as [|x sorted IH]; intros acc Hacc.
  - simpl. rewrite !app_nil_r. split; [apply Permutation_refl|].
    unfold len at 3. simpl. lia.
  - cbn [fold_left map].
    destruct (Z.ltb_spec (len (toStart acc)) PARALLEL_HEAD_CHAINS) as [Hlt | Hge].
    + match goal with
      | |- context [fold_left ?f sorted ?a] => destruct (IH a) as [Hp Hl]
      end.
      { cbn [toStart]. rewrite len_app_one. lia. }
      cbn [toStart toStop] in Hp, Hl. split.
      * eapply perm_trans; [exact Hp|]. rewrite <- app_assoc.
        apply Permutation_app_head. simpl. apply Permutation_middle.
      * rewrite Hl, len_app_one. unfold len at 4. cbn [List.length].
        fold (len sorted). unfold len. lia.
    + match goal with
      | |- context [fold_left ?f sorted ?a] => destruct (IH a) as [Hp Hl]
      end.
      { cbn [toStart]. exact Hacc. }
      cbn [toStart toStop] in Hp, Hl. split.
      * eapply perm_trans; [exact Hp|]. rewrite <- !app_assoc. reflexivity.
      * rewrite Hl. unfold len. cbn [List.length]. unfold len in Hge, Hacc. lia.
Qed.

(** X11.  [updateHeadChains] sorts the head chains into the ones to start
    and the ones to stop: each chain of the array is in exactly one of the two
    lists, as many times as it is in the array, and the chains to start are
    [PARALLEL_HEAD_CHAINS] of them, or all of them when they are fewer. *)
Theorem updateHeadChains_partitions (headChains : list (ChainRef * SyncChain)) :
  let u := updateHeadChains headChains in
  Permutation (toStart u ++ toStop u) (map fst headChains)
  /\ len (toStart u) = Z.min PARALLEL_HEAD_CHAINS (len headChains).
Proof.
  cbv zeta. unfold updateHeadChains.
  match goal with
  | |- context [fold_left ?f (sortBy ?l ?conds) ?a] =>
      destruct (updateHeadChains_loop (sortBy l conds) a) as [Hp Hl];
      [unfold len, PARALLEL_HEAD_CHAINS; simpl; lia|];
      pose proof (sortBy_Permutation conds l) as Hs
  end.
  cbn [toStart toStop app] in Hp, Hl. split.
  - eapply perm_trans; [exact Hp|]. apply Permutation_map. exact Hs.
  - rewrite Hl. unfold len at 1. simpl. unfold len.
    rewrite (Permutation_length Hs). reflexivity.
Qed.

Lemma filter_none {A} (f : A -> bool) (l : list A) :
  (forall x, In x l -> f x = false) -> filter f l = [].
Proof.
  induction l as [|x l IH]; simpl; intro H; [reflexivity|].
  rewrite (H x (or_introl eq_refl)). apply IH. intros y Hy. apply H. right. exact Hy.
Qed.

(** X12.  [updateChains] handles the head chains only when no finalized chain
    is left: with a finalized chain in the array, it starts and stops
    finalized chains only, at most one of each; with none, it is
    [updateHeadChains] on the whole array. *)
Theorem updateChains_finalized_chains_first (chains : list (ChainRef * SyncChain)) :
  ((exists c, In c chains /\ syncType (snd c) = Finalized) ->
   let u := updateChains chains in
   (forall ref, In ref (toStart u ++ toStop u) ->
                exists c, In (ref, c) chains /\ syncType c = Finalized)
   /\ (List.length (toStart u) <= 1)%nat /\ (List.length (toStop u) <= 1)%nat)
  /\ ((forall c, In c chains -> syncType (snd c) = Head) ->
      updateChains chains = updateHeadChains chains).
Proof.
  unfold updateChains.
  set (isF := fun c : ChainRef * SyncChain =>
                match syncType (snd c) with Finalized => true | Head => false end).
  set (isH := fun c : ChainRef * SyncChain =>
                match syncType (snd c) with Finalized => false | Head => true end).
  split.
  - intros (c & Hin & Hty). cbv zeta.
    assert (HinF : In c (filter isF chains)).
    { apply filter_In. split; [exact Hin|]. unfold isF. rewrite Hty. reflexivity. }
    assert (Hfin : forall x, In x (filter isF chains) ->
                             In (fst x, snd x) chains /\ syncType (snd x) = Finalized).
    { intros [r x] Hx. apply filter_In in Hx. destruct Hx as [Hx Hf]. split; [exact Hx|].
      unfold isF in Hf. simpl in *. destruct (syncType x); [reflexivity | discriminate]. }
    unfold updateFinalizedChains.
    destruct (hd_error (sortBy (filter isF chains) _)) as [new|] eqn:E.
    + apply sortBy_first in E as [Hnew _].
      destruct (find _ (filter isF chains)) as [cur|] eqn:Ef.
      * apply find_some in Ef as [Hcur _].
        destruct (negb _ && _ && _); cbn [toStart toStop app].
        -- split; [|split; simpl; lia].
           intros ref [<- | [<- | []]]; eexists; apply Hfin; assumption.
        -- split; [|split; simpl; lia]. intros ref [].
      * cbn [toStart toStop app]. split; [|split; simpl; lia].
        intros ref [<- | []]. eexists. apply Hfin. assumption.
    + exfalso.
      destruct (sortBy_nonempty
                  [ (fun syncChain : ChainRef * SyncChain => peers (snd syncChain));
                    (fun syncChain => if isSyncing (snd syncChain) then 1 else 0) ]
                  (filter isF chains)) as [h Hh].
      * intro Hnil. rewrite Hnil in HinF. destruct HinF.
      * rewrite Hh in E. discriminate.
  - intro Hall.
    assert (HF : filter isF chains = []).
    { apply filter_none. intros x Hx. unfold isF. rewrite (Hall x Hx). reflexivity. }
    assert (HH : filter isH chains = chains).
    { apply filter_all. intros x Hx. unfold isH. rewrite (Hall x Hx). reflexivity. }
    rewrite HF, HH. reflexivity.
Qed.

(** X13.  [updateFinalizedChains] never stops a chain.  The chain it selects
    is the first of the chains sorted by their number of peers, so the
    syncing chain never has fewer peers than it, and the switch is not taken:
    when a finalized chain is syncing nothing is started or stopped, and
    when none is the selected chain is started. *)
Theorem updateFinalizedChains_never_stops (finalizedChains : list (ChainRef * SyncChain))
  (u : ChainUpdate) :
  updateFinalizedChains finalizedChains = Some u ->
  toStop u = []
  /\ ((exists c, In c finalizedChains /\ isSyncing (snd c) = true) -> toStart u = [])
  /\ ((forall c, In c finalizedChains -> isSyncing (snd c) = false) ->
      exists new,
        In new finalizedChains /\ toStart u = [fst new]
        /\ forall c, In c finalizedChains -> peers (snd new) <= peers (snd c)).
Proof.
  unfold updateFinalizedChains. intro H.
  destruct (hd_error (sortBy finalizedChains _)) as [new|] eqn:E; [|discriminate].
  apply sortBy_first in E as [Hin Hmin].
  assert (Hle : forall c, In c finalizedChains -> peers (snd new) <= peers (snd c)).
  { intros c Hc. specialize (Hmin c Hc). simpl in Hmin.
    destruct (Z.compare_spec (peers (snd new)) (peers (snd c))); try lia.
    contradiction Hmin. reflexivity. }
  destruct (find _ finalizedChains) as [cur|] eqn:Ef.
  - apply find_some in Ef as [Hcur Hsync].
    assert (Hno : (peers (snd cur) <? peers (snd new)) = false).
    { apply Z.ltb_ge. apply Hle. exact Hcur. }
    rewrite Hno, andb_false_r in H. cbn [andb] in H. injection H as <-.
    cbn [toStart toStop]. split; [reflexivity|]. split; [reflexivity|].
    intro Hnone. rewrite (Hnone cur Hcur) in Hsync. discriminate.
  - injection H as <-. cbn [toStart toStop]. split; [reflexivity|]. split.
    + intros (c & Hc & Hs). pose proof (find_none _ _ Ef c Hc) as Hn.
      simpl in Hn. rewrite Hs in Hn. discriminate.
    + intros _. exists new. split; [exact Hin|]. split; [reflexivity | exact Hle].
Qed.

Lemma updateFinalizedChains_never_stops_witness :
  let current := Examples.finalizedChain ["peer1"] SyncChainStatus.Syncing 20 in
  let large := Examples.finalizedChain Examples.fivePeers SyncChainStatus.Stopped 0 in
  exists u,
    updateFinalizedChains [(0%nat, current); (1%nat, large)] = Some u
    /\ toStop u = [] /\ toStart u = [].
Proof.
  cbv zeta. eexists. split; [reflexivity|].
  destruct (updateFinalizedChains_never_stops
              [(0%nat, Examples.finalizedChain ["peer1"] SyncChainStatus.Syncing 20);
               (1%nat, Examples.finalizedChain Examples.fivePeers SyncChainStatus.Stopped 0)]
              _ eq_refl) as (Hstop & Hstart & _).
  split; [exact Hstop|]. apply Hstart.
  eexists. split; [left; reflexivity | reflexivity].
Defined.

(** ** The sync chain of range/chain.ts *)

Section ChainStatus.
Variable deps : Deps.

Ltac status_tac HR :=
  steady_tac HR;
  try first [ apply advanceChain_keepsStatus
            | apply triggerBatchDownloader_keepsStatus
            | apply preserves_modify; intro; reflexivity ].

Lemma triggerBatchProcessor_keepsStatus : preserves keepsStatus triggerBatchProcessor.
Proof. apply preserves_modify. intro. reflexivity. Qed.

Lemma remove_keepsStatus : preserves keepsStatus remove.
Proof. apply preserves_modify. intro. reflexivity. Qed.

Lemma addPeer_keepsStatus p t : preserves keepsStatus (addPeer deps p t).
Proof.
  pose proof preorder_keepsStatus as HR. unfold addPeer, computeTarget. status_tac HR.
Qed.

Lemma removePeer_keepsStatus p : preserves keepsStatus (removePeer deps p).
Proof.
  pose proof preorder_keepsStatus as HR. unfold removePeer, computeTarget. status_tac HR.
Qed.

Lemma sendBatch_resume_keepsStatus ref res :
  preserves keepsStatus (sendBatch_resume deps ref res).
Proof.
  pose proof preorder_keepsStatus as HR. unfold sendBatch_resume, triggerBatchProcessor.
  status_tac HR.
Qed.

Lemma processBatch_start_keepsStatus ref : preserves keepsStatus (processBatch_start deps ref).
Proof.
  pose proof preorder_keepsStatus as HR. unfold processBatch_start. status_tac HR.
Qed.

Lemma processBatch_resume_keepsStatus ref blocks res :
  preserves keepsStatus (processBatch_resume deps ref blocks res).
Proof.
  pose proof preorder_keepsStatus as HR. unfold processBatch_resume, triggerBatchProcessor.
  status_tac HR.
Qed.

Lemma batchProcessor_next_keepsStatus : preserves keepsStatus batchProcessor_next.
Proof.
  pose proof preorder_keepsStatus as HR. unfold batchProcessor_next. status_tac HR.
Qed.

(** The body of the loop of [sync] leaves the loop only when the chain is
    Syncing, its batches are in order, and the next epoch to process starts
    at or after the slot of the target; it changes nothing then. *)
Lemma sync_body_cases c r c' :
  sync_body deps c = (r, c') ->
  status c' = status c
  /\ (r = Ok LoopBreak ->
      c' = c
      /\ status c = SyncChainStatus.Syncing
      /\ validateBatchesStatus (toArr c) = Ok tt
      /\ exists t,
          target c = Some t
          /\ slot t
             <= computeStartSlotAtEpoch (SLOTS_PER_EPOCH (config c))
                  (toBeProcessedStartEpoch (toArr c) (startEpoch c) (opts c))).
Proof.
  unfold sync_body, bind, get. cbn beta iota. unfold isSyncing.
  destruct (status c) eqn:Est; cbn [negb];
    try (unfold ret; intro H; injection H as <- <-; split; [exact Est | discriminate]).
  destruct (validateBatchesStatus (toArr c)) as [[]|e] eqn:Ev.
  2:{ unfold throw. intro H. injection H as <- <-. split; [exact Est | discriminate]. }
  destruct (target c) as [t|] eqn:Et.
  - destruct (Z.leb_spec (slot t)
                (computeStartSlotAtEpoch (SLOTS_PER_EPOCH (config c))
                   (toBeProcessedStartEpoch (toArr c) (startEpoch c) (opts c))))
      as [Hle | Hgt].
    + unfold ret. intro H. injection H as <- <-. split; [exact Est|]. intros _.
      split; [reflexivity|]. split; [reflexivity|]. split; [reflexivity|].
      exists t. split; [reflexivity | exact Hle].
    + destruct (getNextBatchToProcess _ _) as [ref|].
      * intro H. unfold bind in H.
        destruct (processBatch_start deps ref c) as [[[]|e] c1] eqn:Ep;
          injection H as <- <-;
          (split; [rewrite <- Est; exact (processBatch_start_keepsStatus ref _ _ _ Ep)
                  | discriminate]).
      * unfold ret. intro H. injection H as <- <-. split; [exact Est | discriminate].
  - destruct (getNextBatchToProcess _ _) as [ref|].
    + intro H. unfold bind in H.
      destruct (processBatch_start deps ref c) as [[[]|e] c1] eqn:Ep;
        injection H as <- <-;
        (split; [rewrite <- Est; exact (processBatch_start_keepsStatus ref _ _ _ Ep)
                | discriminate]).
    + unfold ret. intro H. injection H as <- <-. split; [exact Est | discriminate].
Qed.

Lemma sync_catch_status e c r c' :
  sync_catch e c = (r, c') ->
  status c' = status c \/ status c' = SyncChainStatus.Error.
Proof.
  unfold sync_catch. destruct e as [msg|code|msg|msg|].
  5:{ unfold ret. intro H. injection H as <- <-. left. reflexivity. }
  all: intro H; right.
  all: unfold bind at 1 in H; unfold modify at 1 in H.
  2:{ destruct code; unfold bind, ret, throw, gets in H.
      3:{ rewrite report_loop in H. injection H as <- <-. reflexivity. }
      all: injection H as <- <-; reflexivity. }
  all: unfold bind, ret, throw in H; injection H as <- <-; reflexivity.
Qed.

(** A stretch of [sync] that keeps the status leaves the chain Synced only
    by leaving the loop. *)
Lemma sync_run_Synced (m : M SyncChain LoopExit) c r c' :
  preserves keepsStatus m ->
  sync_run m c = (r, c') ->
  status c' = SyncChainStatus.Synced ->
  status c <> SyncChainStatus.Synced ->
  exists c1, m c = (Ok LoopBreak, c1) /\ events c' = events c1 ++ [OnEnd None].
Proof.
  intros Hm E Hs Hn. unfold sync_run in E.
  destruct (m c) as [[[]|e] c1] eqn:Em; pose proof (Hm _ _ _ Em) as H1;
    unfold keepsStatus in H1.
  - injection E as <- <-. congruence.
  - exists c1. split; [reflexivity|].
    unfold sync_settle, bind, emit, modify in E. injection E as <- <-. reflexivity.
  - destruct (sync_catch e c1) as [r2 c2] eqn:Ec.
    apply sync_catch_status in Ec.
    unfold sync_settle, bind, emit, modify in E. injection E as <- <-.
    cbn [status setSyncLoop setEvents] in Hs.
    destruct Ec as [Ec | Ec]; congruence.
Qed.

Lemma Some_inj {A} (a b : A) : Some a = Some b -> a = b.
Proof. intro H. injection H as ->. reflexivity. Qed.

(** X14.  A chain becomes Synced in one way only: it is Syncing, the loop of
    [sync] takes a trigger, the batches are in order, the chain has a target,
    and the epoch of the next batch to process starts at or after the slot of
    the target.  [onEnd] is then called without an error.  No call of a public
    method and no settlement of a download or of the processor makes a chain
    Synced. *)
Theorem chain_becomes_Synced_only_at_target (l : Label) (c c' : SyncChain) :
  stepChain deps l c = Some c' ->
  status c' = SyncChainStatus.Synced ->
  status c <> SyncChainStatus.Synced ->
  l = TriggerSettles
  /\ status c = SyncChainStatus.Syncing
  /\ validateBatchesStatus (toArr c) = Ok tt
  /\ (exists t,
         target c = Some t
         /\ slot t
            <= computeStartSlotAtEpoch (SLOTS_PER_EPOCH (config c))
                 (toBeProcessedStartEpoch (toArr c) (startEpoch c) (opts c)))
  /\ events c' = events c ++ [OnEnd None].
Proof.
  intros Hstep Hs Hn.
  destruct l as [e | | | p t | p | | ref res | res]; unfold stepChain in Hstep.
  - apply Some_inj in Hstep; subst c'. exfalso. destruct (status c) eqn:Est.
    + destruct (startSyncing_Stopped_status deps e c Est) as [H _]. congruence.
    + rewrite (startSyncing_Syncing deps e c Est) in Hs. simpl in Hs. congruence.
    + apply Hn. reflexivity.
    + rewrite (startSyncing_ended deps e c (or_intror Est)) in Hs. simpl in Hs. congruence.
  - apply Some_inj in Hstep; subst c'. simpl in Hs. discriminate.
  - apply Some_inj in Hstep; subst c'. exfalso.
    pose proof (preserves_snd keepsStatus _ c remove_keepsStatus) as H.
    unfold keepsStatus in H. congruence.
  - apply Some_inj in Hstep; subst c'. exfalso.
    pose proof (preserves_snd keepsStatus _ c (addPeer_keepsStatus p t)) as H.
    unfold keepsStatus in H. congruence.
  - apply Some_inj in Hstep; subst c'. exfalso.
    pose proof (preserves_snd keepsStatus _ c (removePeer_keepsStatus p)) as H.
    unfold keepsStatus in H. congruence.
  - split; [reflexivity|].
    destruct (syncLoop c) eqn:Eloop; try discriminate.
    assert (Hm : preserves keepsStatus
                   (yielded <- batchProcessor_next ;;
                    if (yielded : bool) then sync_body deps else ret LoopContinue)).
    { apply preserves_bind;
        [exact preorder_keepsStatus | apply batchProcessor_next_keepsStatus|].
      intros []; [|apply preserves_ret, preorder_keepsStatus].
      intros s r s' E. apply sync_body_cases in E. exact (proj1 E). }
    assert (Hrun : exists r,
               sync_run
                 (yielded <- batchProcessor_next ;;
                  if (yielded : bool) then sync_body deps else ret LoopContinue) c
               = (r, c')).
    { destruct (error (batchProcessor c)), (triggered (batchProcessor c));
        try discriminate; apply Some_inj in Hstep; subst c'; eexists; apply surjective_pairing. }
    destruct Hrun as [r Hrun].
    destruct (sync_run_Synced _ c r c' Hm Hrun Hs Hn) as (c1 & Hbreak & Hev).
    cbv [bind get batchProcessor_next modify ret throw] in Hbreak.
    destruct (error (batchProcessor c)); [discriminate Hbreak|].
    destruct (triggered (batchProcessor c)); [|discriminate Hbreak].
    destruct (sync_body_cases _ _ _ Hbreak) as [_ Hcase].
    destruct (Hcase eq_refl) as (-> & Hst & Hval & t & Ht & Hslot).
    split; [exact Hst|]. split; [exact Hval|]. split; [exists t; split; assumption|].
    exact Hev.
  - exfalso. destruct (hasRef ref (pendingDownloads c)); [|discriminate].
    apply Some_inj in Hstep; subst c'.
    match type of Hs with
    | status (snd (?m ?s)) = _ =>
        pose proof (preserves_snd keepsStatus m s (sendBatch_resume_keepsStatus ref res)) as H
    end.
    unfold keepsStatus in H. cbn [status setPendingDownloads] in H. congruence.
  - exfalso. destruct (syncLoop c) as [|ref blocks|]; try discriminate.
    apply Some_inj in Hstep; subst c'.
    match type of Hs with
    | status (snd (sync_run ?m ?s)) = _ =>
        destruct (sync_run m s) as [r c''] eqn:Erun;
        assert (Hm : preserves keepsStatus m)
    end.
    { apply preserves_bind;
        [exact preorder_keepsStatus | apply processBatch_resume_keepsStatus|].
      intro. apply preserves_ret, preorder_keepsStatus. }
    cbn [snd] in Hs.
    destruct (sync_run_Synced _ _ _ _ Hm Erun Hs) as (c1 & Hbreak & _).
    + cbn [status setSyncLoop]. exact Hn.
    + unfold bind, ret in Hbreak.
      destruct (processBatch_resume deps ref blocks res _) as [[[]|err] c2];
        discriminate Hbreak.
Qed.

End ChainStatus.

Lemma chain_becomes_Synced_only_at_target_witness :
  let c := Examples.chainAfter Examples.startedAtTarget in
  exists c',
    stepChain Examples.deps TriggerSettles c = Some c'
    /\ status c' = SyncChainStatus.Synced
    /\ status c = SyncChainStatus.Syncing
    /\ target c = Some Examples.genesisTarget
    /\ events c' = events c ++ [OnEnd None].
Proof.
  cbv zeta. eexists. split; [vm_compute; reflexivity|].
  split; [vm_compute; reflexivity|].
  match goal with
  | |- status ?c = _ /\ _ /\ events ?c' = _ =>
      destruct (chain_becomes_Synced_only_at_target Examples.deps TriggerSettles c c')
        as (_ & Hst & _ & _ & Hev)
  end.
  - vm_compute. reflexivity.
  - vm_compute. reflexivity.
  - vm_compute. discriminate.
  - split; [exact Hst|]. split; [vm_compute; reflexivity | exact Hev].
Defined.

Section ChainRemoval.
Variable deps : Deps.

(** X15.  [remove] ends a chain without an error.  On a chain whose loop
    waits for its trigger, after [remove] the loop wakes up on the abort,
    which [sync] swallows: the status of the chain is left as it was (it is
    made neither Error nor Synced), [onEnd] is called with no error and
    nothing else is reported, no batch is touched, and the loop is over: no
    trigger and no settlement of the processor is taken any more. *)
Theorem remove_ends_the_chain_without_error (c : SyncChain) :
  syncLoop c = AwaitingTrigger ->
  exists c',
    run deps [CallRemove; TriggerSettles] c = Some c'
    /\ status c' = status c
    /\ events c' = events c ++ [OnEnd None]
    /\ syncLoop c' = Settled
    /\ batches c' = batches c /\ heap c' = heap c
    /\ startEpoch c' = startEpoch c /\ validatedEpochs c' = validatedEpochs c
    /\ stepChain deps TriggerSettles c' = None
    /\ forall res, stepChain deps (ProcessSettles res) c' = None.
Proof.
  intro Hloop. eexists. split.
  - cbn [run stepChain]. unfold remove, modify. cbn [snd].
    cbn [syncLoop batchProcessor_end setBatchProcessor]. rewrite Hloop.
    cbn [error batchProcessor]. reflexivity.
  - cbv [sync_run bind batchProcessor_next get throw sync_catch ret sync_settle emit modify].
    cbn. repeat split.
Qed.

End ChainRemoval.

Lemma remove_ends_the_chain_without_error_witness :
  let c := Examples.chainAfter Examples.started in
  status c = SyncChainStatus.Syncing
  /\ exists c',
      run Examples.deps [CallRemove; TriggerSettles] c = Some c'
      /\ status c' = SyncChainStatus.Syncing
      /\ events c' = events c ++ [OnEnd None].
Proof.
  cbv zeta. split; [vm_compute; reflexivity|].
  destruct (remove_ends_the_chain_without_error Examples.deps
              (Examples.chainAfter Examples.started))
    as (c' & Hrun & Hst & Hev & _).
  - vm_compute. reflexivity.
  - exists c'. split; [exact Hrun|]. split; [|exact Hev].
    rewrite Hst. vm_compute. reflexivity.
Defined.

(** *** A chain that is not syncing *)

Lemma preorder_quiet : preorder quiet.
Proof.
  split.
  - intros s H. split; [exact H | reflexivity].
  - intros a b c Hab Hbc H. destruct (Hab H) as [Hb Eb]. destruct (Hbc Hb) as [Hc Ec].
    split; [exact Hc | congruence].
Qed.

Ltac quiet_leaf :=
  unfold quiet, isSyncing, requestsOf, emit, reportPeer, putBatch, batchProcessor_end,
    batchProcessor_trigger;
  simpl;
  let Hq := fresh "Hq" in
  intro Hq; split;
  [first [exact Hq | reflexivity]
  |rewrite ?filter_app; simpl; rewrite ?app_nil_r; reflexivity].

Ltac quiet_tac HR :=
  repeat (preserves_step HR);
  try (apply preserves_onBatch; intros);
  try (apply preserves_emit; intros);
  lazymatch goal with
  | |- preserves _ _ => idtac
  | |- _ => quiet_leaf
  end.

Section Quiet.
Variable deps : Deps.

(** [requestBatches] returns at once on a chain that is not syncing. *)
Lemma triggerBatchDownloader_not_syncing s :
  isSyncing s = false -> triggerBatchDownloader deps s = (Ok tt, s).
Proof.
  intro H.
  unfold triggerBatchDownloader, tryCatch, bind, gets, requestBatches, requestBatches_body,
    bind, get.
  cbn beta iota. rewrite H. reflexivity.
Qed.

Lemma triggerBatchDownloader_quiet : preserves quiet (triggerBatchDownloader deps).
Proof.
  intros s r s' E H. rewrite (triggerBatchDownloader_not_syncing s H) in E.
  injection E as <- <-. split; [exact H | reflexivity].
Qed.

Lemma advanceChain_quiet e : preserves quiet (advanceChain e).
Proof.
  pose proof preorder_quiet as HR.
  unfold advanceChain. quiet_tac HR.
  destruct x as [batchKey ref]. unfold advanceChain_visit, advanceChain_penalize.
  quiet_tac HR.
Qed.

Lemma triggerBatchProcessor_quiet : preserves quiet triggerBatchProcessor.
Proof. apply preserves_modify. intro. quiet_leaf. Qed.

Ltac quiet_calls :=
  first [ apply triggerBatchDownloader_quiet
        | apply advanceChain_quiet
        | apply triggerBatchProcessor_quiet ].

Lemma addPeer_quiet p t : preserves quiet (addPeer deps p t).
Proof.
  pose proof preorder_quiet as HR. unfold addPeer, computeTarget.
  quiet_tac HR; quiet_calls.
Qed.

Lemma removePeer_quiet p : preserves quiet (removePeer deps p).
Proof.
  pose proof preorder_quiet as HR. unfold removePeer, computeTarget.
  quiet_tac HR; quiet_calls.
Qed.

Lemma sendBatch_resume_quiet ref res : preserves quiet (sendBatch_resume deps ref res).
Proof.
  pose proof preorder_quiet as HR. unfold sendBatch_resume.
  quiet_tac HR; quiet_calls.
Qed.

Lemma processBatch_resume_quiet ref blocks res :
  preserves quiet (processBatch_resume deps ref blocks res).
Proof.
  pose proof preorder_quiet as HR. unfold processBatch_resume.
  quiet_tac HR; quiet_calls.
Qed.

Lemma batchProcessor_next_quiet : preserves quiet batchProcessor_next.
Proof.
  pose proof preorder_quiet as HR. unfold batchProcessor_next.
  quiet_tac HR.
Qed.

(** The body of the loop of [sync] does nothing on a chain that is not
    syncing. *)
Lemma sync_body_quiet : preserves quiet (sync_body deps).
Proof.
  intros s r s' E H. unfold sync_body, bind, get in E. cbn beta iota in E.
  rewrite H in E. unfold ret in E. injection E as <- <-.
  split; [exact H | reflexivity].
Qed.

Lemma sync_catch_quiet e : preserves quiet (sync_catch e).
Proof.
  pose proof preorder_quiet as HR. unfold sync_catch.
  quiet_tac HR.
Qed.

Lemma sync_run_quiet (m : M SyncChain LoopExit) :
  preserves quiet m -> preserves quiet (sync_run m).
Proof.
  intros Hm s r s' E. unfold sync_run in E.
  destruct (m s) as [[[]|e] s1] eqn:Em; pose proof (Hm _ _ _ Em) as H1.
  - injection E as <- <-. exact H1.
  - eapply (po_trans _ preorder_quiet); [exact H1|].
    unfold sync_settle, bind, emit, modify in E. injection E as <- <-. quiet_leaf.
  - destruct (sync_catch e s1) as [r2 s2] eqn:Ec.
    eapply (po_trans _ preorder_quiet); [exact H1|].
    eapply (po_trans _ preorder_quiet); [exact (sync_catch_quiet e _ _ _ Ec)|].
    unfold sync_settle, bind, emit, modify in E. injection E as <- <-. quiet_leaf.
Qed.

Lemma stepChain_quiet l c c' :
  (forall e, l <> CallStartSyncing e) ->
  stepChain deps l c = Some c' -> quiet c c'.
Proof.
  intros Hl Hstep.
  destruct l as [e | | | p t | p | | ref res | res]; unfold stepChain in Hstep.
  - contradiction (Hl e). reflexivity.
  - apply Some_inj in Hstep; subst c'. unfold stopSyncing, modify. quiet_leaf.
  - apply Some_inj in Hstep; subst c'. unfold remove, modify. quiet_leaf.
  - apply Some_inj in Hstep; subst c'. apply preserves_snd, addPeer_quiet.
  - apply Some_inj in Hstep; subst c'. apply preserves_snd, removePeer_quiet.
  - destruct (syncLoop c); try discriminate.
    assert (Hrun : quiet c
                     (snd (sync_run
                             (yielded <- batchProcessor_next ;;
                              if (yielded : bool) then sync_body deps else ret LoopContinue)
                             c))).
    { apply preserves_snd, sync_run_quiet.
      apply preserves_bind; [exact preorder_quiet | apply batchProcessor_next_quiet|].
      intros []; [apply sync_body_quiet | apply preserves_ret, preorder_quiet]. }
    destruct (error (batchProcessor c)), (triggered (batchProcessor c));
      try discriminate; apply Some_inj in Hstep; subst c'; exact Hrun.
  - destruct (hasRef ref (pendingDownloads c)); [|discriminate].
    apply Some_inj in Hstep; subst c'.
    apply (po_trans _ preorder_quiet c
             (setPendingDownloads (removeRef ref (pendingDownloads c)) c));
      [quiet_leaf | apply (preserves_snd quiet _ _ (sendBatch_resume_quiet ref res))].
  - destruct (syncLoop c) as [|ref blocks|]; try discriminate.
    apply Some_inj in Hstep; subst c'.
    apply (po_trans _ preorder_quiet c (setSyncLoop AwaitingTrigger c)); [quiet_leaf|].
    apply preserves_snd, sync_run_quiet.
    apply preserves_bind; [exact preorder_quiet | apply processBatch_resume_quiet|].
    intro. apply preserves_ret, preorder_quiet.
Qed.

(** X16.  A chain that is not syncing makes no request: whatever happens to
    it short of [startSyncing] (calls of [stopSyncing], [remove], [addPeer]
    and [removePeer], downloads and processing that settle, triggers taken by
    the loop), it stays not syncing, starts no download and hands no blocks
    to the processor. *)
Theorem chain_not_syncing_makes_no_request (ls : list Label) (c c' : SyncChain) :
  status c <> SyncChainStatus.Syncing ->
  Forall (fun l => forall e, l <> CallStartSyncing e) ls ->
  run deps ls c = Some c' ->
  status c' <> SyncChainStatus.Syncing
  /\ requestsOf (events c') = requestsOf (events c).
Proof.
  intros Hst Hls. revert c Hst. induction Hls as [|l ls Hl _ IH]; intros c Hst Hrun.
  - injection Hrun as <-. split; [exact Hst | reflexivity].
  - cbn [run] in Hrun. destruct (stepChain deps l c) as [c1|] eqn:Estep; [|discriminate].
    assert (Hns : isSyncing c = false).
    { unfold isSyncing. destruct (status c); try reflexivity. contradiction Hst. reflexivity. }
    destruct (stepChain_quiet l c c1 Hl Estep Hns) as [Hns1 Hreq1].
    assert (Hst1 : status c1 <> SyncChainStatus.Syncing).
    { intro E. unfold isSyncing in Hns1. rewrite E in Hns1. discriminate. }
    destruct (IH c1 Hst1 Hrun) as [Hst' Hreq']. split; [exact Hst' | congruence].
Qed.

End Quiet.

Lemma chain_not_syncing_makes_no_request_witness :
  let c := Examples.chainAfter Examples.stoppedBeforeProcessing in
  let ls := [DownloadSettles 1%nat (Some [Examples.block1]); TriggerSettles;
             CallAddPeer "peer2" Examples.farTarget] in
  status c = SyncChainStatus.Stopped
  /\ exists c',
      run Examples.deps ls c = Some c'
      /\ requestsOf (events c') = requestsOf (events c).
Proof.
  cbv zeta. split; [vm_compute; reflexivity|].
  eexists. split; [vm_compute; reflexivity|].
  match goal with
  | |- requestsOf (events ?c') = requestsOf (events ?c) =>
      apply (chain_not_syncing_makes_no_request Examples.deps
               [DownloadSettles 1%nat (Some [Examples.block1]); TriggerSettles;
                CallAddPeer "peer2" Examples.farTarget] c c')
  end.
  - vm_compute. discriminate.
  - repeat constructor; discriminate.
  - vm_compute. reflexivity.
Defined.

(** *** The order of the batches *)

Lemma replaceNth_length {A} n (x : A) l : List.length (replaceNth n x l) = List.length l.
Proof.
  revert n. induction l as [|y l IH]; intros [|n]; simpl; auto.
Qed.

Lemma nth_replaceNth_same {A} n (x d : A) l :
  (n < List.length l)%nat -> nth n (replaceNth n x l) d = x.
Proof.
  revert n. induction l as [|y l IH]; intros [|n]; simpl; intro H; try lia; auto.
  apply IH. lia.
Qed.

Lemma nth_replaceNth_other {A} n m (x d : A) l :
  n <> m -> nth m (replaceNth n x l) d = nth m l d.
Proof.
  revert n m. induction l as [|y l IH]; intros [|n] [|m]; simpl; intro H; auto.
  contradiction H. reflexivity.
Qed.

Lemma getBatch_putBatch_same ref b s :
  (ref < List.length (heap s))%nat -> getBatch ref (putBatch ref b s) = b.
Proof. intro H. unfold getBatch, putBatch. simpl. apply nth_replaceNth_same, H. Qed.

Lemma getBatch_putBatch_other ref r b s : ref <> r -> getBatch r (putBatch ref b s) = getBatch r s.
Proof. intro H. unfold getBatch, putBatch. simpl. apply nth_replaceNth_other, H. Qed.

(** What a method call on the batch at [ref] does to the batch at [r]. *)
Lemma getBatch_putBatch ref r b s :
  getBatch r (putBatch ref b s) = b \/ getBatch r (putBatch ref b s) = getBatch r s.
Proof.
  destruct (Nat.eq_dec ref r) as [<- | Hne].
  - destruct (Nat.lt_ge_cases ref (List.length (heap s))) as [Hlt | Hge].
    + left. apply getBatch_putBatch_same, Hlt.
    + right. unfold getBatch, putBatch. simpl.
      rewrite !nth_overflow; rewrite ?replaceNth_length; auto.
  - right. apply getBatch_putBatch_other, Hne.
Qed.

Lemma getBatch_alloc r b s :
  (r < List.length (heap s))%nat -> getBatch r (setHeap (heap s ++ [b]) s) = getBatch r s.
Proof. intro H. unfold getBatch. simpl. apply app_nth1, H. Qed.

Lemma getBatch_alloc_new b s :
  getBatch (List.length (heap s)) (setHeap (heap s ++ [b]) s) = b.
Proof. unfold getBatch. simpl. apply nth_length_app. Qed.

(** A sorted list of keys. *)
Lemma StronglySorted_app_one (ks : list Z) (k : Z) :
  StronglySorted Z.lt ks -> Forall (fun x => x < k) ks -> StronglySorted Z.lt (ks ++ [k]).
Proof.
  induction 1 as [|x ks Hs IH Hx]; intro Hall; simpl.
  - constructor; constructor.
  - inversion Hall; subst. constructor; [apply IH; assumption|].
    apply Forall_app. split; [exact Hx | constructor; [assumption | constructor]].
Qed.

Lemma StronglySorted_filter {A} (f : A -> bool) (key : A -> Z) (l : list A) :
  StronglySorted Z.lt (map key l) -> StronglySorted Z.lt (map key (filter f l)).
Proof.
  induction l as [|x l IH]; simpl; intro H; [constructor|].
  inversion H as [|? ? Hs Hx]; subst.
  destruct (f x); simpl; [|apply IH, Hs].
  constructor; [apply IH, Hs|].
  rewrite Forall_forall in *. intros y Hy. apply Hx.
  apply in_map_iff in Hy. destruct Hy as (z & <- & Hz). apply filter_In in Hz.
  apply in_map. apply Hz.
Qed.

Lemma StronglySorted_skipn {A} (key : A -> Z) n (l : list A) :
  StronglySorted Z.lt (map key l) -> StronglySorted Z.lt (map key (skipn n l)).
Proof.
  revert l. induction n as [|n IH]; intros [|x l]; simpl; intro H; auto.
  inversion H; subst. apply IH. assumption.
Qed.

Lemma StronglySorted_NoDup (ks : list Z) : StronglySorted Z.lt ks -> NoDup ks.
Proof.
  induction 1 as [|x ks Hs IH Hx]; constructor; [|exact IH].
  intro Hin. rewrite Forall_forall in Hx. specialize (Hx x Hin). lia.
Qed.

Lemma StronglySorted_snoc_inv (ks : list Z) (k : Z) :
  StronglySorted Z.lt (ks ++ [k]) -> Forall (fun x => x < k) ks.
Proof.
  induction ks as [|x ks IH]; simpl; intro H; [constructor|].
  inversion H as [|? ? Hs Hx]; subst. constructor; [|apply IH, Hs].
  rewrite Forall_forall in Hx. apply Hx. apply in_or_app. right. left. reflexivity.
Qed.

Lemma nth_error_last {A} (l : list A) (x : A) :
  nth_error (l ++ [x]) (List.length (l ++ [x]) - 1) = Some x.
Proof.
  rewrite length_app. simpl.
  replace (List.length l + 1 - 1)%nat with (List.length l) by lia.
  rewrite nth_error_app2 by lia. rewrite Nat.sub_diag. reflexivity.
Qed.

Lemma getBatch_putBatch_cases ref r b s :
  (r = ref /\ getBatch r (putBatch ref b s) = b)
  \/ getBatch r (putBatch ref b s) = getBatch r s.
Proof.
  destruct (Nat.eq_dec ref r) as [<- | Hne].
  - destruct (Nat.lt_ge_cases ref (List.length (heap s))) as [Hlt | Hge].
    + left. split; [reflexivity | apply getBatch_putBatch_same, Hlt].
    + right. unfold getBatch, putBatch. simpl.
      rewrite !nth_overflow; rewrite ?replaceNth_length; auto.
  - right. apply getBatch_putBatch_other, Hne.
Qed.

(** **** The methods of a batch *)

Lemma startDownloading_pendingOnly p : pendingOnly (Batch.startDownloading p).
Proof.
  intros b r b' E. unfold Batch.startDownloading, Batch.wrongStatus, throw in E.
  destruct (Batch.state b) eqn:Es; injection E as <- <-; simpl; rewrite ?Es; auto.
Qed.

Lemma downloadingSuccess_pendingOnly blocks : pendingOnly (Batch.downloadingSuccess blocks).
Proof.
  intros b r b' E. unfold Batch.downloadingSuccess, Batch.wrongStatus, throw in E.
  destruct (Batch.state b) eqn:Es; injection E as <- <-; simpl; rewrite ?Es; auto.
Qed.

Lemma downloadingError_pendingOnly : pendingOnly Batch.downloadingError.
Proof.
  intros b r b' E. unfold Batch.downloadingError, Batch.wrongStatus, throw in E.
  destruct (Batch.state b) eqn:Es; try (injection E as <- <-; simpl; rewrite ?Es; auto).
  destruct (MAX_DOWNLOAD_ATTEMPTS <=? _); injection E as <- <-; simpl; rewrite ?Es; auto.
Qed.

Lemma validationSuccess_pendingOnly : pendingOnly Batch.validationSuccess.
Proof.
  intros b r b' E. unfold Batch.validationSuccess, Batch.wrongStatus, throw in E.
  destruct (Batch.state b) eqn:Es; injection E as <- <-; auto.
Qed.

Lemma pendingOnly_keepsStartEpoch {A} (m : M Batch.t A) : pendingOnly m -> keepsStartEpoch m.
Proof. intros H b r b' E. apply (H b r b' E). Qed.

Lemma startProcessing_keepsStartEpoch hashBlocks_ :
  keepsStartEpoch (Batch.startProcessing hashBlocks_).
Proof.
  intros b r b' E. unfold Batch.startProcessing, Batch.wrongStatus, throw in E.
  destruct (Batch.state b); injection E as <- <-; reflexivity.
Qed.

Lemma processingSuccess_keepsStartEpoch : keepsStartEpoch Batch.processingSuccess.
Proof.
  intros b r b' E. unfold Batch.processingSuccess, Batch.wrongStatus, throw in E.
  destruct (Batch.state b); injection E as <- <-; reflexivity.
Qed.

Lemma onProcessingError_keepsStartEpoch a : keepsStartEpoch (Batch.onProcessingError a).
Proof.
  intros b r b' E. unfold Batch.onProcessingError in E.
  destruct (MAX_PROCESSING_ATTEMPTS <=? _); injection E as <- <-; reflexivity.
Qed.

Lemma processingError_keepsStartEpoch : keepsStartEpoch Batch.processingError.
Proof.
  intros b r b' E. unfold Batch.processingError, Batch.wrongStatus, throw in E.
  destruct (Batch.state b); try (injection E as <- <-; reflexivity).
  exact (onProcessingError_keepsStartEpoch _ _ _ _ E).
Qed.

Lemma validationError_keepsStartEpoch : keepsStartEpoch Batch.validationError.
Proof.
  intros b r b' E. unfold Batch.validationError, Batch.wrongStatus, throw in E.
  destruct (Batch.state b); try (injection E as <- <-; reflexivity).
  exact (onProcessingError_keepsStartEpoch _ _ _ _ E).
Qed.

(** **** The layout of the batch map is kept *)

Lemma preorder_keepsLayout : preorder keepsLayout.
Proof. split; unfold keepsLayout; auto. Qed.

Lemma laidOut_fields s s' :
  batches s' = batches s -> heap s' = heap s -> config s' = config s -> opts s' = opts s ->
  laidOut s -> laidOut s'.
Proof.
  intros Hb Hh Hc Ho (Hepb & Hsorted & Hent). unfold laidOut, getBatch.
  rewrite Hb, Hh, Hc, Ho. split; [exact Hepb|]. split; [exact Hsorted|].
  intros k ref Hin. exact (Hent k ref Hin).
Qed.

Lemma keepsLayout_fields s s' :
  batches s' = batches s -> heap s' = heap s -> config s' = config s -> opts s' = opts s ->
  keepsLayout s s'.
Proof. intros. intro. eapply laidOut_fields; eauto. Qed.

Lemma keepsLayout_onBatch {A} ref (m : M Batch.t A) :
  keepsStartEpoch m -> preserves keepsLayout (onBatch ref m).
Proof.
  intros Hm s r s' E (Hepb & Hsorted & Hent). unfold onBatch in E.
  destruct (m (getBatch ref s)) as [r0 b'] eqn:Em. injection E as <- <-.
  split; [exact Hepb|]. split; [exact Hsorted|].
  intros k r Hin. destruct (Hent k r Hin) as [Hlt Hk]. split.
  - unfold putBatch. simpl. rewrite replaceNth_length. exact Hlt.
  - destruct (getBatch_putBatch_cases ref r b' s) as [[-> ->] | ->]; [|exact Hk].
    rewrite (Hm _ _ _ Em). exact Hk.
Qed.

Lemma keepsLayout_delete k s : keepsLayout s (setBatches (mapDelete (batches s) k) s).
Proof.
  intros (Hepb & Hsorted & Hent). split; [exact Hepb|]. split.
  - cbn [batches setBatches]. apply StronglySorted_filter, Hsorted.
  - intros k0 r Hin. cbn [batches setBatches] in Hin. apply filter_In in Hin.
    apply (Hent k0 r), Hin.
Qed.

Lemma toBeDownloadedStartEpoch_last (l : list (Epoch * BatchRef)) kl rl s anchor o :
  toBeDownloadedStartEpoch (map (fun kv => getBatch (snd kv) s) (l ++ [(kl, rl)])) anchor o
  = Batch.startEpoch (getBatch rl s) + epochsPerBatch o.
Proof.
  unfold toBeDownloadedStartEpoch. rewrite map_app.
  change (map (fun kv : Epoch * BatchRef => getBatch (snd kv) s) [(kl, rl)])
    with [getBatch rl s].
  rewrite nth_error_last. reflexivity.
Qed.

Lemma toBeDownloadedStartEpoch_above s :
  laidOut s -> Forall (fun k => k < nextStartEpoch s) (map fst (batches s)).
Proof.
  intros (Hepb & Hsorted & Hent). unfold nextStartEpoch, toArr.
  destruct (batches s) as [|e0 l0] eqn:Eb; [constructor|].
  destruct (exists_last (l := e0 :: l0)) as (l & [kl rl] & El); [discriminate|].
  rewrite El in *. rewrite toBeDownloadedStartEpoch_last.
  destruct (Hent kl rl) as [_ Hk]; [apply in_or_app; right; left; reflexivity|].
  rewrite Hk. rewrite map_app in Hsorted |- *.
  change (map fst [(kl, rl)]) with [kl] in Hsorted |- *.
  apply Forall_app. split.
  - apply StronglySorted_snoc_inv in Hsorted.
    eapply Forall_impl; [|exact Hsorted]. simpl. intros. lia.
  - constructor; [lia | constructor].
Qed.

Lemma includeNextBatch_keepsLayout : preserves keepsLayout includeNextBatch.
Proof.
  intros s r s' E HL. unfold includeNextBatch, bind, get in E. cbn beta iota in E.
  destruct (BATCH_BUFFER_SIZE <? _); [injection E as <- <-; exact HL|].
  destruct (match target s with Some t => _ | None => false end);
    [injection E as <- <-; exact HL|].
  fold (nextStartEpoch s) in E.
  destruct (mapHas (batches s) (nextStartEpoch s)) eqn:Ehas; [injection E as <- <-; exact HL|].
  unfold allocBatch, modify, ret in E. cbn beta iota in E. injection E as <- <-.
  pose proof (toBeDownloadedStartEpoch_above s HL) as Habove.
  destruct HL as (Hepb & Hsorted & Hent).
  cbn [batches setBatches setHeap heap]. rewrite (mapSet_absent _ _ _ Ehas).
  split; [exact Hepb|]. split.
  - cbn [batches setBatches]. rewrite map_app. simpl.
    apply StronglySorted_app_one; assumption.
  - intros k r Hin. cbn [batches setBatches heap setHeap] in *.
    rewrite length_app. simpl.
    apply in_app_or in Hin. destruct Hin as [Hin | [Hin | []]].
    + destruct (Hent k r Hin) as [Hlt Hk]. split; [lia|].
      rewrite <- Hk. unfold getBatch. cbn [heap config opts setBatches setHeap].
      rewrite app_nth1 by exact Hlt. reflexivity.
    + injection Hin as <- <-. split; [lia|].
      unfold getBatch. cbn [heap config opts setBatches setHeap].
      rewrite nth_length_app. reflexivity.
Qed.

Ltac pending_method :=
  first [ apply startDownloading_pendingOnly
        | apply downloadingSuccess_pendingOnly
        | apply downloadingError_pendingOnly
        | apply validationSuccess_pendingOnly ].

(** What the downloader and the public methods keep, for a relation [R]
    that the batch map, the batch objects and the configuration determine,
    that survives the changes of state before processing, and that
    [includeNextBatch] and [advanceChain] keep. *)
Section KeptByDownloads.
Variable deps : Deps.
Variable R : SyncChain -> SyncChain -> Prop.
Hypothesis HR : preorder R.
Hypothesis R_fields :
  forall s s',
    batches s' = batches s -> heap s' = heap s -> config s' = config s ->
    opts s' = opts s -> R s s'.
Hypothesis R_onBatch :
  forall A ref (m : M Batch.t A), pendingOnly m -> preserves R (onBatch ref m).
Hypothesis R_include : preserves R includeNextBatch.
Hypothesis R_advance : forall e, preserves R (advanceChain e).

Ltac kept_tac :=
  repeat (preserves_step HR);
  try (apply preserves_emit; intros);
  lazymatch goal with
  | |- preserves _ (onBatch _ _) => apply R_onBatch; pending_method
  | |- preserves _ _ => idtac
  | |- _ => apply R_fields; reflexivity
  end.

Lemma sendBatch_start_kept trig ref p :
  preserves R trig -> preserves R (sendBatch_start trig ref p).
Proof. intro Htrig. unfold sendBatch_start. kept_tac. exact Htrig. Qed.

Lemma requestBatches_body_kept trig peers_ :
  preserves R trig -> preserves R (requestBatches_body deps trig peers_).
Proof.
  intro Htrig. unfold requestBatches_body, requestBatches_retry, requestBatches_fill.
  kept_tac; first [apply sendBatch_start_kept; exact Htrig | exact R_include].
Qed.

Lemma requestBatches_kept fuel : forall peers_, preserves R (requestBatches deps fuel peers_).
Proof.
  induction fuel as [|fuel IH]; intro peers_; simpl.
  - apply preserves_ret, HR.
  - apply requestBatches_body_kept. kept_tac. apply IH.
Qed.

Lemma triggerBatchDownloader_kept : preserves R (triggerBatchDownloader deps).
Proof. unfold triggerBatchDownloader. kept_tac. apply requestBatches_kept. Qed.

Lemma triggerBatchProcessor_kept : preserves R triggerBatchProcessor.
Proof. unfold triggerBatchProcessor. kept_tac. Qed.

Lemma sendBatch_resume_kept ref res : preserves R (sendBatch_resume deps ref res).
Proof.
  unfold sendBatch_resume.
  kept_tac; first [apply triggerBatchDownloader_kept | apply triggerBatchProcessor_kept].
Qed.

Lemma addPeer_kept p t : preserves R (addPeer deps p t).
Proof. unfold addPeer, computeTarget. kept_tac. apply triggerBatchDownloader_kept. Qed.

Lemma removePeer_kept p : preserves R (removePeer deps p).
Proof. unfold removePeer, computeTarget. kept_tac. Qed.

Lemma stopSyncing_kept : preserves R stopSyncing.
Proof. unfold stopSyncing. kept_tac. Qed.

Lemma remove_kept : preserves R remove.
Proof. unfold remove. kept_tac. Qed.

Lemma startSyncing_kept e : preserves R (startSyncing deps e).
Proof.
  unfold startSyncing.
  kept_tac;
    first [apply R_advance | apply triggerBatchDownloader_kept | apply triggerBatchProcessor_kept].
Qed.

Lemma batchProcessor_next_kept : preserves R batchProcessor_next.
Proof. unfold batchProcessor_next. kept_tac. Qed.

Lemma sync_catch_kept e : preserves R (sync_catch e).
Proof. unfold sync_catch. kept_tac. Qed.

Lemma sync_settle_kept r : preserves R (sync_settle r).
Proof. unfold sync_settle. kept_tac. Qed.

End KeptByDownloads.

Lemma advanceChain_keepsLayout e : preserves keepsLayout (advanceChain e).
Proof.
  pose proof preorder_keepsLayout as HR. unfold advanceChain.
  repeat (preserves_step HR); try (apply keepsLayout_fields; reflexivity).
  destruct x as [batchKey ref]. unfold advanceChain_visit, advanceChain_penalize.
  repeat (preserves_step HR);
    try (apply preserves_emit; intros);
    try (apply keepsLayout_fields; reflexivity).
  - apply keepsLayout_delete.
  - apply keepsLayout_onBatch, pendingOnly_keepsStartEpoch, validationSuccess_pendingOnly.
Qed.

Section Layout.
Variable deps : Deps.

Lemma keepsLayout_pending A ref (m : M Batch.t A) :
  pendingOnly m -> preserves keepsLayout (onBatch ref m).
Proof. intro H. apply keepsLayout_onBatch, pendingOnly_keepsStartEpoch, H. Qed.

Lemma triggerBatchDownloader_keepsLayout : preserves keepsLayout (triggerBatchDownloader deps).
Proof.
  eapply triggerBatchDownloader_kept;
    [exact preorder_keepsLayout | exact keepsLayout_fields | exact keepsLayout_pending
    |exact includeNextBatch_keepsLayout].
Qed.

Lemma processBatch_start_keepsLayout ref : preserves keepsLayout (processBatch_start deps ref).
Proof.
  pose proof preorder_keepsLayout as HR. unfold processBatch_start.
  repeat (preserves_step HR);
    try (apply preserves_emit; intros);
    try (apply keepsLayout_fields; reflexivity).
  apply keepsLayout_onBatch, startProcessing_keepsStartEpoch.
Qed.

Lemma processBatch_resume_keepsLayout ref blocks res :
  preserves keepsLayout (processBatch_resume deps ref blocks res).
Proof.
  pose proof preorder_keepsLayout as HR. unfold processBatch_resume, triggerBatchProcessor.
  repeat (preserves_step HR);
    try (apply preserves_emit; intros);
    try (apply keepsLayout_fields; reflexivity);
    first [ apply advanceChain_keepsLayout
          | apply triggerBatchDownloader_keepsLayout
          | apply keepsLayout_onBatch;
            first [ apply processingSuccess_keepsStartEpoch
                  | apply processingError_keepsStartEpoch
                  | apply validationError_keepsStartEpoch ] ].
Qed.

Lemma sync_body_keepsLayout : preserves keepsLayout (sync_body deps).
Proof.
  pose proof preorder_keepsLayout as HR. unfold sync_body.
  repeat (preserves_step HR). apply processBatch_start_keepsLayout.
Qed.

Lemma sync_run_keepsLayout (m : M SyncChain LoopExit) :
  preserves keepsLayout m -> preserves keepsLayout (sync_run m).
Proof.
  intros Hm s r s' E. unfold sync_run in E.
  destruct (m s) as [[[]|e] s1] eqn:Em; pose proof (Hm _ _ _ Em) as H1.
  - injection E as <- <-. exact H1.
  - eapply (po_trans _ preorder_keepsLayout); [exact H1|].
    eapply (po_trans _ preorder_keepsLayout);
      [|eapply sync_settle_kept;
        [exact preorder_keepsLayout | exact keepsLayout_fields | exact E]].
    apply keepsLayout_fields; reflexivity.
  - destruct (sync_catch e s1) as [r2 s2] eqn:Ec.
    eapply (po_trans _ preorder_keepsLayout); [exact H1|].
    eapply (po_trans _ preorder_keepsLayout);
      [eapply sync_catch_kept;
       [exact preorder_keepsLayout | exact keepsLayout_fields | exact Ec]|].
    eapply sync_settle_kept; [exact preorder_keepsLayout | exact keepsLayout_fields | exact E].
Qed.

Lemma stepChain_keepsLayout l c c' : stepChain deps l c = Some c' -> keepsLayout c c'.
Proof.
  pose proof preorder_keepsLayout as HR.
  pose proof keepsLayout_fields as HF.
  pose proof keepsLayout_pending as HO.
  pose proof includeNextBatch_keepsLayout as HI.
  pose proof advanceChain_keepsLayout as HA.
  intro Hstep.
  destruct l as [e | | | p t | p | | ref res | res]; unfold stepChain in Hstep.
  - apply Some_inj in Hstep; subst c'.
    apply preserves_snd. eapply startSyncing_kept; eassumption.
  - apply Some_inj in Hstep; subst c'. apply preserves_snd. eapply stopSyncing_kept; eassumption.
  - apply Some_inj in Hstep; subst c'. apply preserves_snd. eapply remove_kept; eassumption.
  - apply Some_inj in Hstep; subst c'.
    apply preserves_snd. eapply addPeer_kept; eassumption.
  - apply Some_inj in Hstep; subst c'. apply preserves_snd. eapply removePeer_kept; eassumption.
  - destruct (syncLoop c); try discriminate.
    assert (Hrun : keepsLayout c
                     (snd (sync_run
                             (yielded <- batchProcessor_next ;;
                              if (yielded : bool) then sync_body deps else ret LoopContinue)
                             c))).
    { apply preserves_snd, sync_run_keepsLayout.
      apply preserves_bind; [exact HR | eapply batchProcessor_next_kept; eassumption|].
      intros []; [apply sync_body_keepsLayout | apply preserves_ret, HR]. }
    destruct (error (batchProcessor c)), (triggered (batchProcessor c));
      try discriminate; apply Some_inj in Hstep; subst c'; exact Hrun.
  - destruct (hasRef ref (pendingDownloads c)); [|discriminate].
    apply Some_inj in Hstep; subst c'.
    apply (po_trans _ HR c (setPendingDownloads (removeRef ref (pendingDownloads c)) c));
      [apply HF; reflexivity|].
    apply preserves_snd. eapply sendBatch_resume_kept; eassumption.
  - destruct (syncLoop c) as [|ref blocks|]; try discriminate.
    apply Some_inj in Hstep; subst c'.
    apply (po_trans _ HR c (setSyncLoop AwaitingTrigger c)); [apply HF; reflexivity|].
    apply preserves_snd, sync_run_keepsLayout.
    apply preserves_bind; [exact HR | apply processBatch_resume_keepsLayout|].
    intro. apply preserves_ret, HR.
Qed.

End Layout.

(** **** The order of the statuses is kept *)

Lemma preorder_keepsOrder ph : preorder (keepsOrder ph).
Proof. split; unfold keepsOrder; auto. Qed.

Lemma laidOut_NoDup_refs s : laidOut s -> NoDup (map snd (batches s)).
Proof.
  intros (_ & Hsorted & Hent). apply StronglySorted_NoDup in Hsorted.
  induction (batches s) as [|[k r] l IH]; simpl; [constructor|].
  simpl in Hsorted. inversion Hsorted as [|? ? Hnin Hnd]; subst.
  constructor.
  - intro Hin. apply in_map_iff in Hin. destruct Hin as ([k' r'] & Hr & Hin).
    simpl in Hr. subst r'. apply Hnin.
    destruct (Hent k r (or_introl eq_refl)) as [_ Hk].
    destruct (Hent k' r (or_intror Hin)) as [_ Hk'].
    rewrite <- Hk, Hk'. apply (in_map fst) in Hin. exact Hin.
  - apply IH; [exact Hnd|]. intros k0 r0 Hin. apply Hent. right. exact Hin.
Qed.

Lemma getBatch_Processing_valid ref s :
  statusOf (Batch.state (getBatch ref s)) = Processing -> (ref < List.length (heap s))%nat.
Proof.
  intro H. destruct (Nat.lt_ge_cases ref (List.length (heap s))) as [Hlt | Hge]; [exact Hlt|].
  unfold getBatch in H. rewrite nth_overflow in H by exact Hge. discriminate H.
Qed.

(** The order of the statuses depends on the entries and on the class of
    the status of each batch. *)
Lemma inOrder_pending ph s s' :
  batches s' = batches s ->
  (forall r,
      Batch.state (getBatch r s') = Batch.state (getBatch r s)
      \/ (isPreProcessing (statusOf (Batch.state (getBatch r s))) = true
          /\ isPreProcessing (statusOf (Batch.state (getBatch r s'))) = true)) ->
  inOrder ph s -> inOrder ph s'.
Proof.
  intros Hb Hst.
  assert (Hv : forall E, allStatus isAwaitingValidation E s -> allStatus isAwaitingValidation E s').
  { intros E H k r Hin. specialize (H k r Hin).
    destruct (Hst r) as [-> | [Hp _]]; [exact H|].
    destruct (statusOf (Batch.state (getBatch r s))); discriminate. }
  assert (Hp : forall E, allStatus isPreProcessing E s -> allStatus isPreProcessing E s').
  { intros E H k r Hin. specialize (H k r Hin).
    destruct (Hst r) as [-> | [_ Hp]]; assumption. }
  destruct ph as [ref|]; simpl.
  - intros [Hproc Hshape]. split.
    + destruct (Hst ref) as [-> | [Hpre _]]; [exact Hproc|].
      rewrite Hproc in Hpre. discriminate.
    + rewrite Hb. destruct Hshape as [(V & k & P & Hbs & HV & HP) | [Hnin HP]].
      * left. exists V, k, P. auto.
      * right. auto.
  - intros (V & P & Hbs & HV & HP). exists V, P. rewrite Hb. auto.
Qed.

Lemma keepsOrder_fields ph s s' :
  batches s' = batches s -> heap s' = heap s -> config s' = config s -> opts s' = opts s ->
  keepsOrder ph s s'.
Proof.
  intros Hb Hh Hc Ho [HL HO]. split; [eapply laidOut_fields; eauto|].
  apply (inOrder_pending ph s s' Hb); [|exact HO].
  intro r. left. unfold getBatch. rewrite Hh, Hc, Ho. reflexivity.
Qed.

Lemma keepsOrder_onBatch ph A ref (m : M Batch.t A) :
  pendingOnly m -> preserves (keepsOrder ph) (onBatch ref m).
Proof.
  intros Hm s r s' E [HL HO]. split.
  - exact (keepsLayout_onBatch ref m (pendingOnly_keepsStartEpoch m Hm) s r s' E HL).
  - unfold onBatch in E.
    destruct (m (getBatch ref s)) as [r0 b'] eqn:Em. injection E as <- <-.
    apply (inOrder_pending ph s (putBatch ref b' s)); [reflexivity | | exact HO].
    intro r. destruct (getBatch_putBatch_cases ref r b' s) as [[-> ->] | ->].
    + exact (proj2 (Hm _ _ _ Em)).
    + left. reflexivity.
Qed.

Lemma allStatus_alloc cls E b k s :
  (forall k r, In (k, r) E -> (r < List.length (heap s))%nat) ->
  allStatus cls E s ->
  allStatus cls E
    (setBatches (batches s ++ [(k, List.length (heap s))]) (setHeap (heap s ++ [b]) s)).
Proof.
  intros Hvalid H k0 r Hin. specialize (H k0 r Hin).
  unfold getBatch in *. cbn [heap config opts setBatches setHeap].
  rewrite app_nth1 by exact (Hvalid k0 r Hin). exact H.
Qed.

Lemma includeNextBatch_keepsOrder ph : preserves (keepsOrder ph) includeNextBatch.
Proof.
  intros s r s' E [HL HO]. split; [exact (includeNextBatch_keepsLayout s r s' E HL)|].
  unfold includeNextBatch, bind, get in E. cbn beta iota in E.
  destruct (BATCH_BUFFER_SIZE <? _); [injection E as <- <-; exact HO|].
  destruct (match target s with Some t => _ | None => false end);
    [injection E as <- <-; exact HO|].
  fold (nextStartEpoch s) in E.
  destruct (mapHas (batches s) (nextStartEpoch s)) eqn:Ehas; [injection E as <- <-; exact HO|].
  unfold allocBatch, modify, ret in E. cbn beta iota in E. injection E as <- <-.
  cbn [batches setBatches setHeap heap]. rewrite (mapSet_absent _ _ _ Ehas).
  destruct HL as (_ & _ & Hent).
  assert (Hvalid : forall E, incl E (batches s) ->
                             forall k r, In (k, r) E -> (r < List.length (heap s))%nat).
  { intros E Hincl k r Hin. apply (Hent k r). apply Hincl, Hin. }
  set (nb := Batch.newBatch (nextStartEpoch s) (config s) (opts s)).
  assert (Hnew : allStatus isPreProcessing [(nextStartEpoch s, List.length (heap s))]
                   (setBatches (batches s ++ [(nextStartEpoch s, List.length (heap s))])
                      (setHeap (heap s ++ [nb]) s))).
  { intros k r [Hin | []]. injection Hin as <- <-.
    unfold getBatch. cbn [heap config opts setBatches setHeap].
    rewrite nth_length_app. reflexivity. }
  destruct ph as [ref|]; simpl in *.
  - destruct HO as [Hproc Hshape].
    pose proof (getBatch_Processing_valid ref s Hproc) as Href. split.
    + unfold getBatch in *. cbn [heap config opts setBatches setHeap].
      rewrite app_nth1 by exact Href. exact Hproc.
    + destruct Hshape as [(V & k & P & Hbs & HV & HP) | [Hnin HP]].
      * left. exists V, k, (P ++ [(nextStartEpoch s, List.length (heap s))]).
        split; [rewrite Hbs, <- app_assoc; reflexivity|]. split.
        -- apply allStatus_alloc; [|exact HV].
           apply Hvalid. rewrite Hbs. intros x Hx. apply in_or_app. left. exact Hx.
        -- intros k0 r Hin. apply in_app_or in Hin. destruct Hin as [Hin | Hin].
           ++ revert k0 r Hin. apply allStatus_alloc; [|exact HP].
              apply Hvalid. rewrite Hbs. intros x Hx. apply in_or_app. right. right. exact Hx.
           ++ exact (Hnew k0 r Hin).
      * right. split.
        -- rewrite map_app. intro Hin. apply in_app_or in Hin.
           destruct Hin as [Hin | [Hin | []]]; [exact (Hnin Hin)|]. simpl in Hin. lia.
        -- intros k0 r Hin. apply in_app_or in Hin. destruct Hin as [Hin | Hin].
           ++ revert k0 r Hin. apply allStatus_alloc; [|exact HP].
              apply Hvalid. intros x Hx. exact Hx.
           ++ exact (Hnew k0 r Hin).
  - destruct HO as (V & P & Hbs & HV & HP).
    exists V, (P ++ [(nextStartEpoch s, List.length (heap s))]).
    split; [rewrite Hbs, <- app_assoc; reflexivity|]. split.
    + apply allStatus_alloc; [|exact HV].
      apply Hvalid. rewrite Hbs. intros x Hx. apply in_or_app. left. exact Hx.
    + intros k0 r Hin. apply in_app_or in Hin. destruct Hin as [Hin | Hin].
      * revert k0 r Hin. apply allStatus_alloc; [|exact HP].
        apply Hvalid. rewrite Hbs. intros x Hx. apply in_or_app. right. exact Hx.
      * exact (Hnew k0 r Hin).
Qed.

(** [advanceChain] on a batch that is not in AwaitingValidation: the entry is
    deleted and counted before [validationSuccess] throws. *)
Lemma advanceChain_visit_wrong_state e c s k ref :
  sameHeap c s -> removedBy e c (k, ref) = true ->
  statusOf (Batch.state (getBatch ref c)) <> AwaitingValidation ->
  advanceChain_visit e (k, ref) s
  = (Throw (BatchError BatchErrorCode.WRONG_STATUS),
     setValidatedEpochs (validatedEpochs s + EPOCHS_PER_BATCH)
       (setBatches (mapDelete (batches s) k) s)).
Proof.
  intros Hs Hr Hst. unfold removedBy in Hr. simpl in Hr.
  unfold advanceChain_visit. unfold bind at 1. unfold gets.
  rewrite (getBatch_sameHeap c s ref Hs), Hr.
  unfold bind at 1. unfold modify at 1. unfold bind at 1. unfold modify at 1.
  unfold bind at 1. unfold onBatch.
  match goal with
  | |- context [getBatch ref ?s1] =>
      assert (Hs1 : sameHeap c s1) by exact Hs;
      rewrite (getBatch_sameHeap c s1 ref Hs1)
  end.
  unfold Batch.validationSuccess, Batch.wrongStatus, throw.
  destruct (Batch.state (getBatch ref c)); simpl in *;
    try (match goal with
         | |- context [putBatch ref (getBatch ref c) ?s1] =>
             replace (putBatch ref (getBatch ref c) s1) with s1
               by (rewrite <- (getBatch_sameHeap c s1 ref Hs1); symmetry;
                   apply putBatch_getBatch)
         end; reflexivity).
  contradiction Hst. reflexivity.
Qed.

Lemma advanceChain_loop_kept e c entries :
  forall s,
    sameHeap c s ->
    (forall entry, In entry entries -> removedBy e c entry = false) ->
    forEach entries (advanceChain_visit e) s = (Ok tt, s).
Proof.
  induction entries as [|entry entries IH]; intros s Hs Hkept; [reflexivity|].
  rewrite forEach_cons.
  rewrite (advanceChain_visit_kept e c s entry Hs (Hkept entry (or_introl eq_refl))).
  apply IH; [exact Hs|]. intros x Hx. apply Hkept. right. exact Hx.
Qed.

Lemma mapDelete_head {V} (k : Z) (v : V) (rest : list (Z * V)) :
  Forall (Z.lt k) (map fst rest) -> mapDelete ((k, v) :: rest) k = rest.
Proof.
  intro H. unfold mapDelete. simpl. rewrite Z.eqb_refl. simpl.
  apply filter_all. intros [k' v'] Hin. rewrite Forall_forall in H.
  specialize (H k' (in_map fst _ _ Hin)). simpl.
  destruct (Z.eqb_spec k' k); [lia | reflexivity].
Qed.

(** The loop of [advanceChain] deletes the entries it visits, from the first
    one on, up to the first one that is not before the new start or that is
    not in AwaitingValidation. *)
Lemma advanceChain_loop_skipn e c entries :
  forall s r s',
    sameHeap c s ->
    batches s = entries ->
    StronglySorted Z.lt (map fst entries) ->
    (forall k ref, In (k, ref) entries -> Batch.startEpoch (getBatch ref c) = k) ->
    forEach entries (advanceChain_visit e) s = (r, s') ->
    sameHeap c s' /\ exists n, batches s' = skipn n entries.
Proof.
  induction entries as [|[k ref] rest IH]; intros s r s' Hs Hb Hsorted Hkeys E.
  - injection E as <- <-. split; [exact Hs|]. exists 0%nat. exact Hb.
  - inversion Hsorted as [|? ? Hsorted' Hlt]; subst.
    destruct (removedBy e c (k, ref)) eqn:Hr.
    + assert (Hdel : mapDelete (batches s) k = rest)
        by (rewrite Hb; apply mapDelete_head, Hlt).
      rewrite forEach_cons in E.
      destruct (Batch.state (getBatch ref c)) as [| | | |attemptOk] eqn:Est.
      5:{ rewrite (advanceChain_visit_validated e c s k ref attemptOk Hs Hr Est) in E.
          match type of E with
          | forEach rest _ ?s1 = _ => destruct (IH s1 r s') as [Hs' [n Hn]]
          end; auto.
          - intros k0 r0 Hin. apply Hkeys. right. exact Hin.
          - split; [exact Hs'|]. exists (S n). exact Hn. }
      all: rewrite (advanceChain_visit_wrong_state e c s k ref Hs Hr) in E
          by (rewrite Est; discriminate);
        injection E as <- <-; split; [exact Hs|]; exists 1%nat; exact Hdel.
    + rewrite (advanceChain_loop_kept e c ((k, ref) :: rest) s Hs) in E.
      * injection E as <- <-. split; [exact Hs|]. exists 0%nat. exact Hb.
      * intros [k' r'] [Hin | Hin]; [injection Hin as <- <-; exact Hr|].
        unfold removedBy in *. simpl in *.
        rewrite (Hkeys k ref (or_introl eq_refl)) in Hr.
        rewrite (Hkeys k' r' (or_intror Hin)).
        rewrite Forall_forall in Hlt. specialize (Hlt k' (in_map fst _ _ Hin)). simpl in Hlt.
        apply Z.ltb_ge in Hr. apply Z.ltb_ge. lia.
Qed.

Lemma advanceChain_skipn e s r s' :
  laidOut s ->
  advanceChain e s = (r, s') ->
  sameHeap s s' /\ exists n, batches s' = skipn n (batches s).
Proof.
  intros (_ & Hsorted & Hent) E. unfold advanceChain, bind, get in E. cbn beta iota in E.
  destruct (e <=? startEpoch s).
  - injection E as <- <-. split; [apply sameHeap_refl|]. exists 0%nat. reflexivity.
  - destruct (forEach (batches s) (advanceChain_visit e) s) as [r1 s1] eqn:Eloop.
    destruct (advanceChain_loop_skipn e s (batches s) s r1 s1 (sameHeap_refl s) eq_refl
                Hsorted (fun k ref Hin => proj2 (Hent k ref Hin)) Eloop) as [Hs1 [n Hn]].
    destruct r1 as [[]|err].
    + unfold modify in E. injection E as <- <-. split; [exact Hs1|]. exists n. exact Hn.
    + injection E as <- <-. split; [exact Hs1|]. exists n. exact Hn.
Qed.

Lemma allStatus_incl cls E E' s s' :
  sameHeap s s' -> incl E' E -> allStatus cls E s -> allStatus cls E' s'.
Proof.
  intros Hs Hincl H k r Hin. rewrite (getBatch_sameHeap s s' r Hs).
  apply (H k r). apply Hincl, Hin.
Qed.

Lemma incl_skipn {A} n (l : list A) : incl (skipn n l) l.
Proof.
  revert l. induction n as [|n IH]; intros [|x l]; simpl; intros y Hy; auto.
  right. apply IH, Hy.
Qed.

(** Dropping entries from the front keeps the order of the statuses. *)
Lemma inOrder_skipn ph n s s' :
  laidOut s -> sameHeap s s' -> batches s' = skipn n (batches s) ->
  inOrder ph s -> inOrder ph s'.
Proof.
  intros HL Hs Hb. pose proof (laidOut_NoDup_refs s HL) as Hnd.
  destruct ph as [ref|]; simpl.
  - intros [Hproc Hshape]. split; [rewrite (getBatch_sameHeap s s' ref Hs); exact Hproc|].
    rewrite Hb. destruct Hshape as [(V & k & P & Hbs & HV & HP) | [Hnin HP]].
    + rewrite Hbs in *. rewrite skipn_app.
      destruct (Nat.le_gt_cases n (List.length V)) as [Hle | Hgt].
      * left. exists (skipn n V), k, P.
        replace (n - List.length V)%nat with 0%nat by lia. split; [reflexivity|]. split.
        -- eapply allStatus_incl; [exact Hs | apply incl_skipn | exact HV].
        -- eapply allStatus_incl; [exact Hs | apply incl_refl | exact HP].
      * right. rewrite (skipn_all2 V) by lia. simpl.
        destruct (n - List.length V)%nat as [|m] eqn:Em; [lia|]. simpl.
        rewrite map_app in Hnd. simpl in Hnd. apply NoDup_remove_2 in Hnd.
        split.
        -- intro Hin. apply Hnd. apply in_or_app. right.
           apply in_map_iff in Hin. destruct Hin as (x & Hx & Hin).
           apply in_map_iff. exists x. split; [exact Hx | apply (incl_skipn m P), Hin].
        -- eapply allStatus_incl; [exact Hs | apply incl_skipn | exact HP].
    + right. split.
      * intro Hin. apply Hnin. apply in_map_iff in Hin. destruct Hin as (x & Hx & Hin).
        apply in_map_iff. exists x. split; [exact Hx | apply (incl_skipn n _), Hin].
      * eapply allStatus_incl; [exact Hs | apply incl_skipn | exact HP].
  - intros (V & P & Hbs & HV & HP). rewrite Hb, Hbs, skipn_app.
    exists (skipn n V), (skipn (n - List.length V) P). split; [reflexivity|]. split.
    + eapply allStatus_incl; [exact Hs | apply incl_skipn | exact HV].
    + eapply allStatus_incl; [exact Hs | apply incl_skipn | exact HP].
Qed.

Lemma advanceChain_keepsOrder ph e : preserves (keepsOrder ph) (advanceChain e).
Proof.
  intros s r s' E [HL HO]. split; [exact (advanceChain_keepsLayout e s r s' E HL)|].
  destruct (advanceChain_skipn e s r s' HL E) as [Hs [n Hn]].
  exact (inOrder_skipn ph n s s' HL Hs Hn HO).
Qed.

Lemma bind_Ok {S A B} (m : M S A) (k : A -> M S B) s b s' :
  bind m k s = (Ok b, s') -> exists a s1, m s = (Ok a, s1) /\ k a s1 = (Ok b, s').
Proof. unfold bind. destruct (m s) as [[a|e] s1]; [eauto | discriminate]. Qed.

Lemma app_split_after {A} (V P pre post : list A) (x : A) :
  V ++ P = pre ++ x :: post -> ~ In x V -> incl post P.
Proof.
  revert pre. induction V as [|v V IH]; intros pre E Hnin.
  - simpl in E. subst P. intros y Hy. apply in_or_app. right. right. exact Hy.
  - destruct pre as [|p pre]; simpl in E; injection E as E1 E2.
    + subst. exfalso. apply Hnin. left. reflexivity.
    + eapply IH; [exact E2|]. intro H. apply Hnin. right. exact H.
Qed.

Lemma onBatch_result {A} ref (m : M Batch.t A) s r s' :
  onBatch ref m s = (r, s') ->
  exists b', m (getBatch ref s) = (r, b') /\ s' = putBatch ref b' s.
Proof.
  unfold onBatch. destruct (m (getBatch ref s)) as [r0 b'].
  intro E. injection E as <- <-. exists b'. split; reflexivity.
Qed.

Lemma processingSuccess_Ok b x b' :
  Batch.processingSuccess b = (Ok x, b') ->
  statusOf (Batch.state b') = AwaitingValidation.
Proof.
  unfold Batch.processingSuccess, Batch.wrongStatus, throw.
  destruct (Batch.state b); intro E; try discriminate E. injection E as _ <-. reflexivity.
Qed.

Lemma onProcessingError_Ok a b x b' :
  Batch.onProcessingError a b = (Ok x, b') -> Batch.state b' = StAwaitingDownload.
Proof.
  unfold Batch.onProcessingError.
  destruct (MAX_PROCESSING_ATTEMPTS <=? _); intro E; [discriminate E|].
  injection E as _ <-. reflexivity.
Qed.

Lemma processingError_Ok b x b' :
  Batch.processingError b = (Ok x, b') -> Batch.state b' = StAwaitingDownload.
Proof.
  unfold Batch.processingError, Batch.wrongStatus, throw.
  destruct (Batch.state b); intro E; try discriminate E.
  eapply onProcessingError_Ok. exact E.
Qed.

Lemma validationError_Ok b x b' :
  Batch.validationError b = (Ok x, b') ->
  statusOf (Batch.state b) = AwaitingValidation /\ Batch.state b' = StAwaitingDownload.
Proof.
  unfold Batch.validationError, Batch.wrongStatus, throw.
  destruct (Batch.state b); intro E; try discriminate E.
  split; [reflexivity | eapply onProcessingError_Ok; exact E].
Qed.

(** The batch that is given to the processor: from the order of a chain
    whose processor is idle to the order around the batch in processing. *)
Lemma inOrder_startProcessing ref s s' preE k postE :
  laidOut s -> inOrder None s ->
  batches s = preE ++ (k, ref) :: postE ->
  statusOf (Batch.state (getBatch ref s)) = AwaitingProcessing ->
  allStatus isAwaitingValidation preE s ->
  batches s' = batches s ->
  (forall r, r = ref \/ Batch.state (getBatch r s') = Batch.state (getBatch r s)) ->
  statusOf (Batch.state (getBatch ref s')) = Processing ->
  inOrder (Some ref) s'.
Proof.
  intros HL (V & P & Hbs & HV & HP) HB Href Hpre Hb' Hsame Hproc.
  pose proof (laidOut_NoDup_refs s HL) as Hnd.
  rewrite HB, map_app in Hnd. simpl in Hnd. apply NoDup_remove_2 in Hnd.
  split; [exact Hproc|]. left. exists preE, k, postE. rewrite Hb'. split; [exact HB|].
  split.
  - intros k0 r Hin. destruct (Hsame r) as [-> | ->]; [|exact (Hpre k0 r Hin)].
    specialize (Hpre k0 ref Hin). rewrite Href in Hpre. discriminate Hpre.
  - assert (Hincl : incl postE P).
    { apply (app_split_after V P preE postE (k, ref)); [rewrite <- Hbs; exact HB|].
      intro Hin. specialize (HV k ref Hin). rewrite Href in HV. discriminate HV. }
    intros k0 r Hin. destruct (Hsame r) as [-> | ->]; [|exact (HP k0 r (Hincl _ Hin))].
    exfalso. apply Hnd. apply in_or_app. right.
    apply in_map_iff. exists (k0, ref). split; [reflexivity | exact Hin].
Qed.

(** The batch in processing becomes AwaitingValidation. *)
Lemma inOrder_processingSuccess ref s s' :
  inOrder (Some ref) s ->
  batches s' = batches s ->
  (forall r, r = ref \/ Batch.state (getBatch r s') = Batch.state (getBatch r s)) ->
  statusOf (Batch.state (getBatch ref s')) = AwaitingValidation ->
  inOrder None s'.
Proof.
  intros [Hproc Hshape] Hb' Hsame Hav.
  assert (Hpre : forall E, allStatus isPreProcessing E s -> allStatus isPreProcessing E s').
  { intros E H k r Hin. specialize (H k r Hin). destruct (Hsame r) as [-> | ->]; [|exact H].
    rewrite Hproc in H. discriminate H. }
  simpl. rewrite Hb'. destruct Hshape as [(V & k & P & Hbs & HV & HP) | [Hnin HP]].
  - exists (V ++ [(k, ref)]), P. split; [rewrite Hbs, <- app_assoc; reflexivity|].
    split; [|apply Hpre, HP].
    intros k0 r Hin. apply in_app_or in Hin. destruct Hin as [Hin | [Hin | []]].
    + destruct (Hsame r) as [-> | ->]; [rewrite Hav; reflexivity | exact (HV k0 r Hin)].
    + injection Hin as <- <-. rewrite Hav. reflexivity.
  - exists [], (batches s). split; [reflexivity|]. split; [intros ? ? []|apply Hpre, HP].
Qed.

(** The batch in processing goes back to AwaitingDownload: the batches in
    AwaitingValidation are the ones before it. *)
Lemma inOrder_processingError ref s s' :
  laidOut s -> inOrder (Some ref) s ->
  batches s' = batches s ->
  (forall r, r = ref \/ Batch.state (getBatch r s') = Batch.state (getBatch r s)) ->
  isPreProcessing (statusOf (Batch.state (getBatch ref s'))) = true ->
  inOrder None s'
  /\ forall k r, In (k, r) (batches s') ->
       isPreProcessing (statusOf (Batch.state (getBatch r s'))) = true
       \/ (statusOf (Batch.state (getBatch r s')) = AwaitingValidation
           /\ k < Batch.startEpoch (getBatch ref s)).
Proof.
  intros (_ & Hsorted & Hent) [Hproc Hshape] Hb' Hsame Hnow.
  assert (Hpre : forall E, allStatus isPreProcessing E s -> allStatus isPreProcessing E s').
  { intros E H k r Hin. specialize (H k r Hin). destruct (Hsame r) as [-> | ->]; [|exact H].
    exact Hnow. }
  assert (Hval : forall E, allStatus isAwaitingValidation E s ->
                           allStatus isAwaitingValidation E s').
  { intros E H k r Hin. specialize (H k r Hin). destruct (Hsame r) as [-> | ->]; [|exact H].
    rewrite Hproc in H. discriminate H. }
  simpl. rewrite Hb'. destruct Hshape as [(V & k & P & Hbs & HV & HP) | [Hnin HP]].
  - assert (HP' : allStatus isPreProcessing ((k, ref) :: P) s').
    { intros k0 r [Hin | Hin]; [injection Hin as <- <-; exact Hnow | exact (Hpre P HP k0 r Hin)]. }
    split.
    + exists V, ((k, ref) :: P). split; [exact Hbs|]. split; [apply Hval, HV | exact HP'].
    + intros k0 r Hin. rewrite Hbs in Hin. apply in_app_or in Hin.
      destruct Hin as [Hin | Hin]; [right | left; exact (HP' k0 r Hin)].
      split.
      * specialize (Hval V HV k0 r Hin). unfold isAwaitingValidation in Hval.
        destruct (statusOf (Batch.state (getBatch r s'))); try discriminate Hval. reflexivity.
      * assert (In (k, ref) (batches s)) as Hk by (rewrite Hbs; apply in_elt).
        rewrite (proj2 (Hent k ref Hk)).
        rewrite Hbs, map_app in Hsorted. simpl in Hsorted.
        clear - Hsorted Hin. induction V as [|v V IH]; [destruct Hin|].
        simpl in Hsorted. inversion Hsorted as [|? ? Hs Hlt]; subst.
        destruct Hin as [-> | Hin]; [|exact (IH Hs Hin)].
        rewrite Forall_forall in Hlt. apply Hlt. apply in_or_app. right. left. reflexivity.
  - split.
    + exists [], (batches s). split; [reflexivity|]. split; [intros ? ? []|apply Hpre, HP].
    + intros k0 r Hin. left. exact (Hpre _ HP k0 r Hin).
Qed.

Section Order.
Variable deps : Deps.

Lemma triggerBatchDownloader_keepsOrder ph :
  preserves (keepsOrder ph) (triggerBatchDownloader deps).
Proof.
  eapply triggerBatchDownloader_kept;
    [apply preorder_keepsOrder | apply keepsOrder_fields | apply keepsOrder_onBatch
    |apply includeNextBatch_keepsOrder].
Qed.

Lemma processBatch_start_ordered ref s s' :
  laidOut s -> inOrder None s ->
  getNextBatchToProcess (fun ref => Batch.state (getBatch ref s)) (mapValues (batches s))
  = Some ref ->
  processBatch_start deps ref s = (Ok tt, s') ->
  ordered s'.
Proof.
  intros HL HO Hnext E.
  pose proof (processBatch_start_keepsLayout deps ref s (Ok tt) s' E HL) as HL'.
  apply getNextBatchToProcess_Some in Hnext.
  destruct Hnext as (pre & post & Hvals & Hpre & Href).
  unfold mapValues in Hvals. apply map_eq_app in Hvals.
  destruct Hvals as (preE & restE & HB & Hpre' & Hrest).
  destruct restE as [|[k r] postE]; [discriminate Hrest|].
  simpl in Hrest. injection Hrest as -> Hpost.
  assert (Hin : In (k, ref) (batches s)) by (rewrite HB; apply in_elt).
  destruct HL as (Hpos & Hsorted & Hent). destruct (Hent k ref Hin) as [Hvalid Hk].
  assert (HpreE : allStatus isAwaitingValidation preE s).
  { intros k0 r Hr. rewrite Forall_forall in Hpre.
    unfold isAwaitingValidation. rewrite (Hpre r); [reflexivity|].
    rewrite <- Hpre'. apply in_map_iff. exists (k0, r). split; [reflexivity | exact Hr]. }
  unfold processBatch_start in E.
  apply bind_Ok in E. destruct E as (blocks & s1 & E1 & E).
  apply onBatch_result in E1. destruct E1 as (b' & Em & ->).
  unfold emit, bind, modify in E. injection E as <-.
  assert (Hb' : statusOf (Batch.state b') = Processing).
  { unfold Batch.startProcessing, Batch.wrongStatus, throw in Em.
    destruct (Batch.state (getBatch ref s)); try discriminate Em.
    injection Em as _ <-. reflexivity. }
  split; [exact HL'|]. unfold processingRef. cbn [syncLoop setSyncLoop].
  apply (inOrder_startProcessing ref s _ preE k postE); auto.
  - split; [exact Hpos|]. split; [exact Hsorted | exact Hent].
  - intro r. destruct (getBatch_putBatch_cases ref r b' s) as [[-> _] | Hr]; [left; reflexivity|].
    right. rewrite <- Hr. reflexivity.
  - change (statusOf (Batch.state (getBatch ref (putBatch ref b' s))) = Processing).
    rewrite getBatch_putBatch_same by exact Hvalid. exact Hb'.
Qed.

(** One turn of the loop of [sync] that goes on. *)
Lemma sync_body_ordered s s' :
  ordered s -> syncLoop s = AwaitingTrigger ->
  sync_body deps s = (Ok LoopContinue, s') ->
  ordered s'.
Proof.
  intros Hord Hloop E. pose proof Hord as [HL HO].
  unfold processingRef in HO. rewrite Hloop in HO.
  unfold sync_body, bind, get in E. cbn beta iota in E.
  destruct (negb (isSyncing s)); [injection E as <-; exact Hord|].
  destruct (validateBatchesStatus (toArr s)); [|discriminate E].
  destruct (match target s with Some t => _ | None => false end); [discriminate E|].
  destruct (getNextBatchToProcess _ _) as [ref|] eqn:Hnext;
    [|injection E as <-; exact Hord].
  destruct (processBatch_start deps ref s) as [[[]|e] s1] eqn:Es; [|discriminate E].
  injection E as <-. exact (processBatch_start_ordered ref s s1 HL HO Hnext Es).
Qed.

(** One turn of the loop of [processBatch] that marks the validated batches
    for retry, when it returns. *)
Lemma retry_visit e k0 r0 s s1 :
  laidOut s -> In (k0, r0) (batches s) ->
  (isPreProcessing (statusOf (Batch.state (getBatch r0 s))) = true
   \/ (statusOf (Batch.state (getBatch r0 s)) = AwaitingValidation /\ k0 < e)) ->
  (pendingBatch <- gets (getBatch r0) ;;
   if Batch.startEpoch pendingBatch <? e
   then onBatch r0 Batch.validationError
   else ret tt) s = (Ok tt, s1) ->
  laidOut s1 /\ batches s1 = batches s
  /\ isPreProcessing (statusOf (Batch.state (getBatch r0 s1))) = true
  /\ forall r, r = r0 \/ Batch.state (getBatch r s1) = Batch.state (getBatch r s).
Proof.
  intros HL Hin Hinv E. unfold bind at 1, gets in E.
  destruct (proj2 (proj2 HL) k0 r0 Hin) as [Hvalid Hk]. rewrite Hk in E.
  destruct (k0 <? e) eqn:Elt.
  - pose proof (keepsLayout_onBatch r0 _ validationError_keepsStartEpoch s _ s1 E HL) as HL1.
    apply onBatch_result in E. destruct E as (b' & Em & ->).
    apply validationError_Ok in Em. destruct Em as [_ Hb'].
    split; [exact HL1|]. split; [reflexivity|]. split.
    + rewrite getBatch_putBatch_same by exact Hvalid. rewrite Hb'. reflexivity.
    + intro r. destruct (getBatch_putBatch_cases r0 r b' s) as [[-> _] | ->]; auto.
  - injection E as <-. apply Z.ltb_ge in Elt.
    split; [exact HL|]. split; [reflexivity|]. split; [|intro r; right; reflexivity].
    destruct Hinv as [Hpre | [_ Hlt]]; [exact Hpre | lia].
Qed.

(** The loop of [processBatch] that marks the validated batches for retry,
    when it returns: the batches it visited are before processing. *)
Lemma retry_loop_pending e todo :
  forall s s',
    laidOut s -> incl todo (batches s) ->
    (forall k r, In (k, r) (batches s) ->
       isPreProcessing (statusOf (Batch.state (getBatch r s))) = true
       \/ (statusOf (Batch.state (getBatch r s)) = AwaitingValidation /\ k < e)) ->
    forEach (map snd todo)
      (fun pendingRef =>
         pendingBatch <- gets (getBatch pendingRef) ;;
         if Batch.startEpoch pendingBatch <? e
         then onBatch pendingRef Batch.validationError
         else ret tt) s = (Ok tt, s') ->
    batches s' = batches s
    /\ forall k r, In (k, r) (batches s) ->
         (isPreProcessing (statusOf (Batch.state (getBatch r s))) = true ->
          isPreProcessing (statusOf (Batch.state (getBatch r s'))) = true)
         /\ (In (k, r) todo ->
             isPreProcessing (statusOf (Batch.state (getBatch r s'))) = true).
Proof.
  induction todo as [|[k0 r0] todo IH]; intros s s' HL Hincl Hinv E.
  - injection E as <-. split; [reflexivity|]. intros k r Hin. split; [auto | intros []].
  - simpl map in E. rewrite forEach_cons in E.
    match type of E with
    | match ?visit with _ => _ end = _ => destruct visit as [[[]|err] s1] eqn:Ev
    end; [|discriminate E].
    assert (Hin0 : In (k0, r0) (batches s)) by (apply Hincl; left; reflexivity).
    destruct (retry_visit e k0 r0 s s1 HL Hin0 (Hinv k0 r0 Hin0) Ev)
      as (HL1 & Hb1 & Hpre0 & Hsame).
    assert (Hstep : forall r,
               isPreProcessing (statusOf (Batch.state (getBatch r s))) = true ->
               isPreProcessing (statusOf (Batch.state (getBatch r s1))) = true).
    { intros r Hr. destruct (Hsame r) as [-> | ->]; auto. }
    destruct (IH s1 s' HL1) as [Hb' Hall]; auto.
    + rewrite Hb1. intros x Hx. apply Hincl. right. exact Hx.
    + rewrite Hb1. intros k r Hin. destruct (Hsame r) as [-> | Hr]; [left; exact Hpre0|].
      rewrite Hr. exact (Hinv k r Hin).
    + split; [congruence|]. intros k r Hin. rewrite <- Hb1 in Hin.
      destruct (Hall k r Hin) as [Hkeep Hdone]. split.
      * intro Hr. apply Hkeep, Hstep, Hr.
      * intros [Heq | Ht]; [injection Heq as <- <-; apply Hkeep, Hpre0 | exact (Hdone Ht)].
Qed.

(** [processBatch] after an error of [processChainSegment], when it
    returns; [mid] is what runs between [processingError] and the loop. *)
Lemma processBatch_error_inOrder ref (mid : M SyncChain unit) s s4 :
  (forall s r s',
      laidOut s -> mid s = (r, s') ->
      laidOut s' /\ sameHeap s s' /\ exists n, batches s' = skipn n (batches s)) ->
  laidOut s -> inOrder (Some ref) s ->
  (onBatch ref Batch.processingError ;;
   mid ;;
   pending <- gets (fun this => mapValues (batches this)) ;;
   forEach pending
     (fun pendingRef =>
        pendingBatch <- gets (getBatch pendingRef) ;;
        if Batch.startEpoch pendingBatch <? Batch.startEpoch (getBatch ref s)
        then onBatch pendingRef Batch.validationError
        else ret tt)) s = (Ok tt, s4) ->
  inOrder None s4.
Proof.
  intros Hmid HL HO E.
  apply bind_Ok in E. destruct E as (u1 & s1 & E1 & E).
  apply bind_Ok in E. destruct E as (u2 & s2 & E2 & E).
  apply bind_Ok in E. destruct E as (pending & s3 & E3 & E).
  unfold gets in E3. injection E3 as <- <-.
  pose proof (keepsLayout_onBatch ref _ processingError_keepsStartEpoch s _ s1 E1 HL) as HL1.
  apply onBatch_result in E1. destruct E1 as (b' & Em & ->).
  apply processingError_Ok in Em.
  pose proof (getBatch_Processing_valid ref s (proj1 HO)) as Hvalid.
  destruct (inOrder_processingError ref s (putBatch ref b' s) HL HO) as [_ Hbelow].
  { reflexivity. }
  { intro r. destruct (getBatch_putBatch_cases ref r b' s) as [[-> _] | ->]; auto. }
  { rewrite getBatch_putBatch_same by exact Hvalid. rewrite Em. reflexivity. }
  destruct (Hmid _ _ _ HL1 E2) as (HL2 & Hheap & n & Hn).
  unfold mapValues in E.
  destruct (retry_loop_pending (Batch.startEpoch (getBatch ref s)) (batches s2) s2 s4 HL2)
    as [Hb4 Hall]; [apply incl_refl | | exact E |].
  - intros k r Hin. rewrite (getBatch_sameHeap _ _ r Hheap). apply Hbelow.
    rewrite Hn in Hin. exact (incl_skipn n _ _ Hin).
  - exists [], (batches s4). split; [reflexivity|]. split; [intros ? ? []|].
    intros k r Hin. rewrite Hb4 in Hin. exact (proj2 (Hall k r Hin) Hin).
Qed.

Lemma advanceChain_if_skipn (b : bool) e s r s' :
  laidOut s -> (if b then advanceChain e else ret tt) s = (r, s') ->
  laidOut s' /\ sameHeap s s' /\ exists n, batches s' = skipn n (batches s).
Proof.
  intros HL E. destruct b.
  - split; [exact (advanceChain_keepsLayout e s r s' E HL)|].
    exact (advanceChain_skipn e s r s' HL E).
  - injection E as _ <-. split; [exact HL|]. split; [apply sameHeap_refl|].
    exists 0%nat. reflexivity.
Qed.

(** [processBatch] from the settlement of [processChainSegment] on, when it
    returns: no batch is left in processing. *)
Lemma processBatch_resume_inOrder ref blocks res s s' :
  laidOut s -> inOrder (Some ref) s ->
  processBatch_resume deps ref blocks res s = (Ok tt, s') ->
  laidOut s' /\ inOrder None s'.
Proof.
  intros HL HO E. unfold processBatch_resume in E.
  apply bind_Ok in E. destruct E as (e & s0 & E0 & E).
  unfold gets in E0. injection E0 as <- <-.
  apply bind_Ok in E. destruct E as ([] & s4 & Em & Etd).
  apply (triggerBatchDownloader_keepsOrder None s4 _ s' Etd).
  destruct res as [|importedBlocks|]; cbv beta iota in Em.
  - apply bind_Ok in Em. destruct Em as (u1 & s1 & E1 & Em).
    apply bind_Ok in Em. destruct Em as (u2 & s2 & E2 & E3).
    pose proof (keepsLayout_onBatch ref _ processingSuccess_keepsStartEpoch s _ s1 E1 HL) as HL1.
    apply onBatch_result in E1. destruct E1 as (b' & Eb & ->).
    apply processingSuccess_Ok in Eb.
    pose proof (getBatch_Processing_valid ref s (proj1 HO)) as Hvalid.
    assert (HO1 : inOrder None (putBatch ref b' s)).
    { apply (inOrder_processingSuccess ref s); [exact HO | reflexivity | |].
      - intro r. destruct (getBatch_putBatch_cases ref r b' s) as [[-> _] | ->]; auto.
      - rewrite getBatch_putBatch_same by exact Hvalid. exact Eb. }
    assert (H2 : laidOut s2 /\ inOrder None s2).
    { destruct (0 <? len blocks).
      - exact (advanceChain_keepsOrder None _ _ _ _ E2 (conj HL1 HO1)).
      - injection E2 as _ <-. split; assumption. }
    assert (Hk : preserves (keepsOrder None) triggerBatchProcessor)
      by (eapply triggerBatchProcessor_kept;
          first [apply preorder_keepsOrder | apply keepsOrder_fields]).
    exact (Hk _ _ _ E3 H2).
  - split; [|eapply processBatch_error_inOrder; [|exact HL|exact HO|exact Em]].
    + pose proof preorder_keepsLayout as HR.
      assert (Hk : preserves keepsLayout
                     (onBatch ref Batch.processingError ;;
                      (if 0 <? importedBlocks
                       then advanceChain (Batch.startEpoch (getBatch ref s))
                       else ret tt) ;;
                      pending <- gets (fun this => mapValues (batches this)) ;;
                      forEach pending
                        (fun pendingRef =>
                           pendingBatch <- gets (getBatch pendingRef) ;;
                           if Batch.startEpoch pendingBatch
                              <? Batch.startEpoch (getBatch ref s)
                           then onBatch pendingRef Batch.validationError
                           else ret tt))).
      { repeat (preserves_step HR);
          first [ apply advanceChain_keepsLayout
                | apply keepsLayout_onBatch;
                  first [ apply processingError_keepsStartEpoch
                        | apply validationError_keepsStartEpoch ] ]. }
      exact (Hk _ _ _ Em HL).
    + intros. eapply advanceChain_if_skipn; eauto.
  - split; [|eapply processBatch_error_inOrder; [|exact HL|exact HO|exact Em]].
    + pose proof preorder_keepsLayout as HR.
      assert (Hk : preserves keepsLayout
                     (onBatch ref Batch.processingError ;;
                      ret tt ;;
                      pending <- gets (fun this => mapValues (batches this)) ;;
                      forEach pending
                        (fun pendingRef =>
                           pendingBatch <- gets (getBatch pendingRef) ;;
                           if Batch.startEpoch pendingBatch
                              <? Batch.startEpoch (getBatch ref s)
                           then onBatch pendingRef Batch.validationError
                           else ret tt))).
      { repeat (preserves_step HR);
          apply keepsLayout_onBatch;
          first [ apply processingError_keepsStartEpoch
                | apply validationError_keepsStartEpoch ]. }
      exact (Hk _ _ _ Em HL).
    + intros s1 r1 s1' HL1 E1. injection E1 as _ <-.
      split; [exact HL1|]. split; [apply sameHeap_refl|]. exists 0%nat. reflexivity.
Qed.

Lemma sync_run_result (m : M SyncChain LoopExit) c r c' :
  sync_run m c = (r, c') -> m c = (Ok LoopContinue, c') \/ syncLoop c' = Settled.
Proof.
  unfold sync_run. destruct (m c) as [[[]|e] c1].
  - intro E. injection E as _ <-. left. reflexivity.
  - unfold sync_settle, bind, emit, modify. intro E. injection E as _ <-. right. reflexivity.
  - destruct (sync_catch e c1) as [r2 c2].
    unfold sync_settle, bind, emit, modify. intro E. injection E as _ <-. right. reflexivity.
Qed.

Lemma ordered_settled c : laidOut c -> syncLoop c = Settled -> ordered c.
Proof. intros HL Hs. split; [exact HL|]. unfold processingRef. rewrite Hs. exact I. Qed.

Lemma ordered_kept c c' :
  syncLoop c' = syncLoop c -> (forall ph, keepsOrder ph c c') -> keepsLayout c c' ->
  ordered c -> ordered c'.
Proof.
  intros Hl Hk HL [HLc HO]. split; [exact (HL HLc)|].
  unfold processingRef in *. rewrite Hl.
  destruct (syncLoop c) as [|ref blocks|]; [| |exact I].
  - exact (proj2 (Hk None (conj HLc HO))).
  - exact (proj2 (Hk (Some ref) (conj HLc HO))).
Qed.

Lemma steady_syncLoop s s' : steady s s' -> syncLoop s' = syncLoop s.
Proof. intros [[_ [_ H]] _]. exact H. Qed.

Lemma progress_syncLoop s s' : progress s s' -> syncLoop s' = syncLoop s.
Proof. intros [_ [_ H]]. exact H. Qed.

(** Every step of a chain keeps the layout of the batch map and, while the
    promise of [sync()] has not settled, the order of the statuses. *)
Lemma stepChain_ordered l c c' : stepChain deps l c = Some c' -> ordered c -> ordered c'.
Proof.
  intros Hstep Hord.
  pose proof (stepChain_keepsLayout deps l c c' Hstep) as HLstep.
  assert (Hcall : forall A (m : M SyncChain A),
             (forall ph, preserves (keepsOrder ph) m) ->
             syncLoop (snd (m c)) = syncLoop c ->
             c' = snd (m c) -> ordered c').
  { intros A m Hm Hl ->. apply (ordered_kept c); auto.
    intro ph. apply preserves_snd, Hm. }
  assert (Hkept : forall ph,
             preorder (keepsOrder ph)
             /\ (forall s s', batches s' = batches s -> heap s' = heap s ->
                              config s' = config s -> opts s' = opts s ->
                              keepsOrder ph s s')
             /\ (forall A ref (m : M Batch.t A),
                    pendingOnly m -> preserves (keepsOrder ph) (onBatch ref m))
             /\ preserves (keepsOrder ph) includeNextBatch
             /\ (forall e, preserves (keepsOrder ph) (advanceChain e))).
  { intro ph. split; [apply preorder_keepsOrder|]. split; [apply keepsOrder_fields|].
    split; [intros; apply keepsOrder_onBatch; assumption|].
    split; [apply includeNextBatch_keepsOrder | intro; apply advanceChain_keepsOrder]. }
  destruct l as [e | | | p t | p | | ref res | res]; unfold stepChain in Hstep.
  - apply Some_inj in Hstep. apply (Hcall _ (startSyncing deps e)); [| |auto].
    + intro ph. destruct (Hkept ph) as (HR & HF & HO & HI & HA).
      eapply startSyncing_kept; eassumption.
    + apply steady_syncLoop.
      exact (startSyncing_steady deps e c _ _ (surjective_pairing _)).
  - apply Some_inj in Hstep. apply (Hcall _ stopSyncing); [| |auto].
    + intro ph. destruct (Hkept ph) as (HR & HF & HO & HI & HA).
      eapply stopSyncing_kept; eassumption.
    + apply steady_syncLoop. exact (stopSyncing_steady c _ _ (surjective_pairing _)).
  - apply Some_inj in Hstep. apply (Hcall _ remove); [| |auto].
    + intro ph. destruct (Hkept ph) as (HR & HF & HO & HI & HA).
      eapply remove_kept; eassumption.
    + apply steady_syncLoop. exact (remove_steady c _ _ (surjective_pairing _)).
  - apply Some_inj in Hstep. apply (Hcall _ (addPeer deps p t)); [| |auto].
    + intro ph. destruct (Hkept ph) as (HR & HF & HO & HI & HA).
      eapply addPeer_kept; eassumption.
    + apply progress_syncLoop.
      exact (addPeer_progress deps p t c _ _ (surjective_pairing _)).
  - apply Some_inj in Hstep. apply (Hcall _ (removePeer deps p)); [| |auto].
    + intro ph. destruct (Hkept ph) as (HR & HF & HO & HI & HA).
      eapply removePeer_kept; eassumption.
    + apply progress_syncLoop.
      exact (removePeer_progress deps p c _ _ (surjective_pairing _)).
  - destruct (syncLoop c) eqn:Hloop; try discriminate Hstep.
    assert (Hrun : forall r c1,
               sync_run
                 (yielded <- batchProcessor_next ;;
                  if (yielded : bool) then sync_body deps else ret LoopContinue) c
               = (r, c1) -> ordered c1 \/ syncLoop c1 = Settled).
    { intros r c1 Er. apply sync_run_result in Er. destruct Er as [Em | Hs]; [left | right; exact Hs].
      apply bind_Ok in Em. destruct Em as (yielded & s1 & E1 & E2).
      assert (Hord1 : ordered s1).
      { apply (ordered_kept c); [| | |exact Hord].
        - apply steady_syncLoop. exact (batchProcessor_next_steady c _ _ E1).
        - intro ph. destruct (Hkept ph) as (HR & HF & HO & HI & HA).
          eapply batchProcessor_next_kept; eassumption.
        - eapply batchProcessor_next_kept;
            [exact preorder_keepsLayout | exact keepsLayout_fields | exact E1]. }
      destruct yielded.
      - apply (sync_body_ordered s1); [exact Hord1 | | exact E2].
        rewrite (steady_syncLoop _ _ (batchProcessor_next_steady c _ _ E1)). exact Hloop.
      - injection E2 as <-. exact Hord1. }
    destruct (error (batchProcessor c)), (triggered (batchProcessor c));
      try discriminate Hstep; apply Some_inj in Hstep;
      (destruct (Hrun _ _ (surjective_pairing _)) as [H | H];
       [rewrite <- Hstep; exact H
       |rewrite <- Hstep; apply ordered_settled; [rewrite Hstep; exact (HLstep (proj1 Hord)) | exact H]]).
  - destruct (hasRef ref (pendingDownloads c)); [|discriminate Hstep].
    apply Some_inj in Hstep.
    assert (Hord0 : ordered (setPendingDownloads (removeRef ref (pendingDownloads c)) c)).
    { apply (ordered_kept c); [reflexivity | | |exact Hord].
      - intro ph. apply keepsOrder_fields; reflexivity.
      - apply keepsLayout_fields; reflexivity. }
    rewrite <- Hstep.
    apply (ordered_kept (setPendingDownloads (removeRef ref (pendingDownloads c)) c));
      [| | |exact Hord0].
    + apply steady_syncLoop.
      exact (sendBatch_resume_steady deps ref res _ _ _ (surjective_pairing _)).
    + intro ph. destruct (Hkept ph) as (HR & HF & HO & HI & HA).
      apply preserves_snd. eapply sendBatch_resume_kept; eassumption.
    + destruct (Hkept None) as (HR & HF & HO & HI & HA).
      apply preserves_snd. eapply sendBatch_resume_kept;
        [exact preorder_keepsLayout | exact keepsLayout_fields | exact keepsLayout_pending
        |exact includeNextBatch_keepsLayout].
  - destruct (syncLoop c) as [|ref blocks|] eqn:Hloop; try discriminate Hstep.
    apply Some_inj in Hstep.
    destruct (sync_run (processBatch_resume deps ref blocks res ;; ret LoopContinue)
                (setSyncLoop AwaitingTrigger c)) as [r c1] eqn:Er.
    simpl in Hstep. subst c1.
    apply sync_run_result in Er. destruct Er as [Em | Hs];
      [|apply ordered_settled; [exact (HLstep (proj1 Hord)) | exact Hs]].
    apply bind_Ok in Em. destruct Em as ([] & s1 & E1 & E2). injection E2 as <-.
    destruct Hord as [HL HO]. unfold processingRef in HO. rewrite Hloop in HO.
    destruct (processBatch_resume_inOrder ref blocks res (setSyncLoop AwaitingTrigger c) s1)
      as [HL1 HO1]; [| |exact E1|].
    + exact (keepsLayout_fields c _ eq_refl eq_refl eq_refl eq_refl HL).
    + exact (proj2 (keepsOrder_fields (Some ref) c _ eq_refl eq_refl eq_refl eq_refl
                      (conj HL HO))).
    + split; [exact HL1|]. unfold processingRef.
      rewrite (steady_syncLoop _ _ (processBatch_resume_steady deps ref blocks res _ _ _ E1)).
      exact HO1.
Qed.

Lemma run_ordered ls : forall c c', run deps ls c = Some c' -> ordered c -> ordered c'.
Proof.
  induction ls as [|l ls IH]; intros c c' Hrun Hord; simpl in Hrun.
  - injection Hrun as <-. exact Hord.
  - destruct (stepChain deps l c) as [c1|] eqn:Hstep; [|discriminate Hrun].
    exact (IH c1 c' Hrun (stepChain_ordered l c c1 Hstep Hord)).
Qed.

End Order.

Lemma newSyncChain_ordered anchor ty cfg o :
  0 < epochsPerBatch (opts (newSyncChain anchor ty cfg o)) ->
  ordered (newSyncChain anchor ty cfg o).
Proof.
  intro Hpos. split.
  - split; [exact Hpos|]. split; [constructor | intros k ref []].
  - simpl. exists [], []. split; [reflexivity|]. split; intros k ref [].
Qed.

Lemma orderedb_validated (V : list BatchStatus) l :
  Forall (fun st => st = AwaitingValidation) V -> orderedb (V ++ l) = orderedb l.
Proof. induction 1 as [|st V -> _ IH]; simpl; [reflexivity | exact IH]. Qed.

Lemma allStatus_Forall cls E s :
  allStatus cls E s ->
  Forall (fun st => cls st = true)
    (map (fun kv => statusOf (Batch.state (getBatch (snd kv) s))) E).
Proof.
  intro H. apply Forall_forall. intros st Hin. apply in_map_iff in Hin.
  destruct Hin as ([k r] & <- & Hin). exact (H k r Hin).
Qed.

Lemma statuses_toArr s :
  statuses (toArr s) = map (fun kv => statusOf (Batch.state (getBatch (snd kv) s))) (batches s).
Proof. unfold statuses, toArr. rewrite map_map. reflexivity. Qed.

(** The order of the statuses is the one [validateBatchesStatus] accepts. *)
Lemma inOrder_validateBatchesStatus ph s :
  inOrder ph s -> validateBatchesStatus (toArr s) = Ok tt.
Proof.
  intro HO. unfold validateBatchesStatus.
  apply (validateBatchesStatus_from_spec 0 0 (toArr s)); [lia | lia|]. simpl.
  rewrite statuses_toArr.
  assert (Hav : forall E, allStatus isAwaitingValidation E s ->
                 Forall (fun st => st = AwaitingValidation)
                   (map (fun kv => statusOf (Batch.state (getBatch (snd kv) s))) E)).
  { intros E H. eapply Forall_impl; [|exact (allStatus_Forall _ E s H)].
    intros st Hst. destruct st; try discriminate Hst. reflexivity. }
  assert (Hpre : forall E, allStatus isPreProcessing E s ->
                 forallb isPreProcessing
                   (map (fun kv => statusOf (Batch.state (getBatch (snd kv) s))) E) = true).
  { intros E H. apply forallb_forall. apply Forall_forall. exact (allStatus_Forall _ E s H). }
  destruct ph as [ref|]; simpl in HO.
  - destruct HO as [Hproc [(V & k & P & Hbs & HV & HP) | [_ HP]]].
    + rewrite Hbs, map_app, orderedb_validated by exact (Hav V HV).
      simpl. rewrite Hproc. exact (Hpre P HP).
    + apply forallb_pre_orderedb. exact (Hpre _ HP).
  - destruct HO as (V & P & Hbs & HV & HP).
    rewrite Hbs, map_app, orderedb_validated by exact (Hav V HV).
    apply forallb_pre_orderedb. exact (Hpre P HP).
Qed.

(** X17.  The loop of [sync] never finds the batches of its chain out of
    order.  On a chain built by the constructor with a positive
    [epochsPerBatch], after any sequence of calls of its public methods and
    of settlements of its downloads, of its trigger and of
    [processChainSegment], and for as long as the promise of [sync()] has not
    settled, [validateBatchesStatus (toArr batches)] returns: the batches
    are, by start epoch, validated ones, then at most one in processing,
    then the ones before processing. *)
Theorem sync_finds_the_batches_in_order (deps : Deps) anchor ty cfg o
  (ls : list Label) (c : SyncChain) :
  0 < epochsPerBatch (opts (newSyncChain anchor ty cfg o)) ->
  run deps ls (newSyncChain anchor ty cfg o) = Some c ->
  syncLoop c <> Settled ->
  validateBatchesStatus (toArr c) = Ok tt.
Proof.
  intros Hpos Hrun Hloop.
  destruct (run_ordered deps ls _ c Hrun (newSyncChain_ordered anchor ty cfg o Hpos))
    as [_ HO].
  unfold processingRef in HO. destruct (syncLoop c) as [|ref blocks|].
  - exact (inOrder_validateBatchesStatus None c HO).
  - exact (inOrder_validateBatchesStatus (Some ref) c HO).
  - contradiction Hloop. reflexivity.
Qed.

Lemma sync_finds_the_batches_in_order_witness :
  let ls := Examples.twoFailedProcessings ++ [ProcessSettles Processed] in
  let c := Examples.chainAfter ls in
  Examples.summary c = [(0, AwaitingValidation); (2, Downloading)]
  /\ syncLoop c = AwaitingTrigger
  /\ validateBatchesStatus (toArr c) = Ok tt.
Proof.
  cbv zeta. split; [vm_compute; reflexivity|]. split; [vm_compute; reflexivity|].
  apply (sync_finds_the_batches_in_order Examples.deps 0 Finalized Examples.config32 None
           (Examples.twoFailedProcessings ++ [ProcessSettles Processed])).
  - vm_compute. reflexivity.
  - vm_compute. reflexivity.
  - vm_compute. discriminate.
Defined.

(** X18.  Batches are processed one at a time.  On a chain built with a
    positive [epochsPerBatch], after any sequence of steps: while [sync]
    awaits [processChainSegment] for a batch, that batch is in Processing;
    and a batch of the map is in Processing only if [sync] awaits
    [processChainSegment] for that very batch, or if the promise of [sync()]
    has settled. *)
Theorem batches_are_processed_one_at_a_time (deps : Deps) anchor ty cfg o
  (ls : list Label) (c : SyncChain) :
  0 < epochsPerBatch (opts (newSyncChain anchor ty cfg o)) ->
  run deps ls (newSyncChain anchor ty cfg o) = Some c ->
  (forall ref blocks,
      syncLoop c = AwaitingProcessChainSegment ref blocks ->
      statusOf (Batch.state (getBatch ref c)) = Processing)
  /\ (forall k r,
         In (k, r) (batches c) ->
         statusOf (Batch.state (getBatch r c)) = Processing ->
         syncLoop c = Settled
         \/ exists blocks, syncLoop c = AwaitingProcessChainSegment r blocks).
Proof.
  intros Hpos Hrun.
  destruct (run_ordered deps ls _ c Hrun (newSyncChain_ordered anchor ty cfg o Hpos))
    as [HL HO].
  unfold processingRef in HO. split.
  - intros ref blocks Hloop. rewrite Hloop in HO. exact (proj1 HO).
  - intros k r Hin Hproc. destruct (syncLoop c) as [|ref blocks|]; [| |left; reflexivity].
    + exfalso. destruct HO as (V & P & Hbs & HV & HP).
      rewrite Hbs in Hin. apply in_app_or in Hin. destruct Hin as [Hin | Hin].
      * specialize (HV k r Hin). rewrite Hproc in HV. discriminate HV.
      * specialize (HP k r Hin). rewrite Hproc in HP. discriminate HP.
    + right. exists blocks.
      destruct HO as [_ [(V & k0 & P & Hbs & HV & HP) | [_ HP]]].
      * rewrite Hbs in Hin. apply in_app_or in Hin. destruct Hin as [Hin | [Hin | Hin]].
        -- specialize (HV k r Hin). rewrite Hproc in HV. discriminate HV.
        -- injection Hin as _ <-. reflexivity.
        -- specialize (HP k r Hin). rewrite Hproc in HP. discriminate HP.
      * specialize (HP k r Hin). rewrite Hproc in HP. discriminate HP.
Qed.

Lemma batches_are_processed_one_at_a_time_witness :
  let c := Examples.chainAfter Examples.selfCorrected in
  Examples.summary c = [(0, AwaitingValidation); (2, Processing); (4, Downloading)]
  /\ statusOf (Batch.state (getBatch 1%nat c)) = Processing
  /\ forall k r,
      In (k, r) (batches c) ->
      statusOf (Batch.state (getBatch r c)) = Processing -> r = 1%nat.
Proof.
  cbv zeta. split; [vm_compute; reflexivity|].
  destruct (batches_are_processed_one_at_a_time Examples.deps 0 Finalized Examples.config32
              None Examples.selfCorrected (Examples.chainAfter Examples.selfCorrected))
    as [Hawaited Honly].
  - vm_compute. reflexivity.
  - vm_compute. reflexivity.
  - split.
    + apply (Hawaited 1%nat [Examples.block1]). vm_compute. reflexivity.
    + intros k r Hin Hproc. destruct (Honly k r Hin Hproc) as [Hs | [blocks Hb]].
      * vm_compute in Hs. discriminate Hs.
      * vm_compute in Hb. injection Hb as <- _. reflexivity.
Defined.

(** X19.  The batch map holds each batch once, under its start epoch, by
    increasing start epoch.  On a chain built with a positive
    [epochsPerBatch], after any sequence of steps (the promise of [sync()]
    settled or not): the keys of the map are strictly increasing in the order
    of insertion, [toArr] reads the batches by ascending start epoch, every
    batch is under the key of its start epoch, and the start epoch of the
    next batch to download is beyond every key, so that [includeNextBatch]
    does not find an existing batch under it. *)
Theorem batch_map_is_in_ascending_epoch_order (deps : Deps) anchor ty cfg o
  (ls : list Label) (c : SyncChain) :
  0 < epochsPerBatch (opts (newSyncChain anchor ty cfg o)) ->
  run deps ls (newSyncChain anchor ty cfg o) = Some c ->
  StronglySorted Z.lt (map fst (batches c))
  /\ map Batch.startEpoch (toArr c) = map fst (batches c)
  /\ Forall (fun k => k < nextStartEpoch c) (map fst (batches c))
  /\ mapHas (batches c) (nextStartEpoch c) = false.
Proof.
  intros Hpos Hrun.
  destruct (run_ordered deps ls _ c Hrun (newSyncChain_ordered anchor ty cfg o Hpos))
    as [HL _].
  pose proof (toBeDownloadedStartEpoch_above c HL) as Habove.
  destruct HL as (_ & Hsorted & Hent).
  split; [exact Hsorted|]. split; [|split; [exact Habove|]].
  - unfold toArr. rewrite map_map. apply map_ext_in.
    intros [k r] Hin. exact (proj2 (Hent k r Hin)).
  - destruct (mapHas (batches c) (nextStartEpoch c)) eqn:Ehas; [|reflexivity].
    apply mapHas_keys in Ehas. rewrite Forall_forall in Habove.
    specialize (Habove _ Ehas). lia.
Qed.

Lemma batch_map_is_in_ascending_epoch_order_witness :
  let c := Examples.chainAfter (Examples.heldOnBatch0 [1%nat; 2%nat]) in
  map fst (batches c) = [0; 2; 4; 6]
  /\ nextStartEpoch c = 8
  /\ map Batch.startEpoch (toArr c) = map fst (batches c)
  /\ mapHas (batches c) (nextStartEpoch c) = false.
Proof.
  cbv zeta. split; [vm_compute; reflexivity|]. split; [vm_compute; reflexivity|].
  destruct (batch_map_is_in_ascending_epoch_order Examples.deps 0 Finalized Examples.config32
              None (Examples.heldOnBatch0 [1%nat; 2%nat])
              (Examples.chainAfter (Examples.heldOnBatch0 [1%nat; 2%nat])))
    as (_ & Hkeys & _ & Hhas).
  - vm_compute. reflexivity.
  - vm_compute. reflexivity.
  - split; [exact Hkeys | exact Hhas].
Defined.

(** ** Requests for batches do not fail *)

(** X20.  Requesting batches never fails and never ends the chain.  On any
    chain, [triggerBatchDownloader] returns: [requestBatches] does not throw,
    so the [catch] that would end the trigger with the error is not taken.
    It leaves the trigger, the status, the target, the peers, the validated
    boundary and the count of validated epochs as they were, and the loop of
    [sync] where it was.  [addPeer], which calls it, returns as well. *)
Theorem triggerBatchDownloader_never_fails (deps : Deps) (c : SyncChain) :
  (exists c',
      triggerBatchDownloader deps c = (Ok tt, c')
      /\ batchProcessor c' = batchProcessor c
      /\ status c' = status c
      /\ target c' = target c
      /\ peerset c' = peerset c
      /\ startEpoch c' = startEpoch c
      /\ validatedEpochs c' = validatedEpochs c
      /\ syncLoop c' = syncLoop c)
  /\ forall p t, fst (addPeer deps p t c) = Ok tt.
Proof.
  split.
  - pose proof (triggerBatchDownloader_returns deps c) as Hok.
    pose proof (triggerBatchDownloader_sameControl deps c) as Hctl.
    destruct (triggerBatchDownloader deps c) as [r c'].
    simpl in Hok. subst r. specialize (Hctl _ _ eq_refl).
    destruct Hctl as (He & Hv & _ & Ht & Hst & Hbp & Hp & _ & _ & Hloop & _).
    exists c'. repeat split; auto.
  - intros p t. unfold addPeer, computeTarget, bind, modify.
    apply triggerBatchDownloader_returns.
Qed.

(* ------------------------------------------------------------------------- *)
(** * The end of a chain on an error *)

(** ** The processing retry cap *)



Section ProcessingCap.
Variable deps : Deps.



End ProcessingCap.



(** ** Errors that end the trigger *)

Section ThrowsOnly.
Context {S : Type} (P : Error -> Prop).

Lemma throwsOnly_ret {A} (a : A) : throwsOnly P (@ret S A a).
Proof. intros s e s' E. discriminate E. Qed.

Lemma throwsOnly_get : throwsOnly P (@get S).
Proof. intros s e s' E. discriminate E. Qed.

Lemma throwsOnly_gets {A} (f : S -> A) : throwsOnly P (gets f).
Proof. intros s e s' E. discriminate E. Qed.

Lemma throwsOnly_modify (f : S -> S) : throwsOnly P (modify f).
Proof. intros s e s' E. discriminate E. Qed.

Lemma throwsOnly_bind {A B} (m : M S A) (k : A -> M S B) :
  throwsOnly P m -> (forall a, throwsOnly P (k a)) -> throwsOnly P (bind m k).
Proof.
  intros Hm Hk s e s' E. unfold bind in E.
  destruct (m s) as [[a|e1] s1] eqn:Em.
  - exact (Hk a _ _ _ E).
  - injection E as <- <-. exact (Hm _ _ _ Em).
Qed.

Lemma throwsOnly_forEach {T} (l : list T) (body : T -> M S unit) :
  (forall x, throwsOnly P (body x)) -> throwsOnly P (forEach l body).
Proof.
  intro Hb. induction l as [|x l IH]; simpl.
  - apply throwsOnly_ret.
  - apply throwsOnly_bind; [apply Hb | intro; exact IH].
Qed.

End ThrowsOnly.

Lemma throwsOnly_onBatch {A} P ref (method : M Batch.t A) :
  throwsOnly P method -> throwsOnly P (onBatch ref method).
Proof.
  intros Hm s e s' E. unfold onBatch in E.
  destruct (method (getBatch ref s)) as [r b'] eqn:Em.
  injection E as -> _. exact (Hm _ _ _ Em).
Qed.

Ltac throws_step :=
  match goal with
  | |- throwsOnly _ (bind _ _) => apply throwsOnly_bind; [ | intro]
  | |- throwsOnly _ (ret _) => apply throwsOnly_ret
  | |- throwsOnly _ (gets _) => apply throwsOnly_gets
  | |- throwsOnly _ get => apply throwsOnly_get
  | |- throwsOnly _ (modify _) => apply throwsOnly_modify
  | |- throwsOnly _ (forEach _ _) => apply throwsOnly_forEach; intro
  | |- throwsOnly _ (onBatch _ _) => apply throwsOnly_onBatch
  | |- throwsOnly _ (if ?b then _ else _) => destruct b
  | |- throwsOnly _ (match ?x with _ => _ end) => destruct x
  end.

(** The methods of a batch throw errors of the batch. *)
Ltac batch_throws :=
  let s := fresh "s" in
  let e := fresh "e" in
  let s' := fresh "s'" in
  let E := fresh "E" in
  intros s e s' E;
  unfold Batch.downloadingSuccess, Batch.downloadingError, Batch.processingSuccess,
    Batch.processingError, Batch.validationError, Batch.validationSuccess,
    Batch.onProcessingError, Batch.wrongStatus, throw in E;
  destruct (Batch.state s);
  repeat match type of E with
         | context [if ?b then _ else _] => destruct b
         end;
  first [discriminate E | injection E as <- _; eexists; reflexivity].

Lemma downloadingSuccess_throws blocks :
  throwsOnly isBatchError (Batch.downloadingSuccess blocks).
Proof. batch_throws. Qed.

Lemma downloadingError_throws : throwsOnly isBatchError Batch.downloadingError.
Proof. batch_throws. Qed.

Lemma processingSuccess_throws : throwsOnly isBatchError Batch.processingSuccess.
Proof. batch_throws. Qed.

Lemma processingError_throws : throwsOnly isBatchError Batch.processingError.
Proof. batch_throws. Qed.

Lemma validationError_throwsOnly : throwsOnly isBatchError Batch.validationError.
Proof. batch_throws. Qed.

Lemma validationSuccess_throws : throwsOnly isBatchError Batch.validationSuccess.
Proof. batch_throws. Qed.

Lemma advanceChain_throws e : throwsOnly isBatchError (advanceChain e).
Proof.
  unfold advanceChain. repeat throws_step.
  destruct x as [batchKey ref]. unfold advanceChain_visit, advanceChain_penalize, reportPeer, emit.
  repeat throws_step. apply validationSuccess_throws.
Qed.

Lemma preorder_keepsError : preorder keepsError.
Proof. split; unfold keepsError; intros; congruence. Qed.

Lemma advanceChain_keepsError e : preserves keepsError (advanceChain e).
Proof.
  eapply preserves_weaken; [|apply advanceChain_advancesControl].
  intros s s' (_ & _ & _ & _ & _ & Hbp & _). unfold keepsError. rewrite Hbp. reflexivity.
Qed.

Lemma triggerBatchProcessor_keepsError : preserves keepsError triggerBatchProcessor.
Proof. apply preserves_modify. intro. reflexivity. Qed.

Section TriggerError.
Variable deps : Deps.

Lemma triggerBatchDownloader_keepsError : preserves keepsError (triggerBatchDownloader deps).
Proof.
  eapply preserves_weaken; [|apply triggerBatchDownloader_sameControl].
  intros s s' (_ & _ & _ & _ & _ & Hbp & _). unfold keepsError. rewrite Hbp. reflexivity.
Qed.

Lemma triggerBatchDownloader_throws P : throwsOnly P (triggerBatchDownloader deps).
Proof.
  intros s e s' E. pose proof (triggerBatchDownloader_returns deps s) as H.
  rewrite E in H. discriminate H.
Qed.

Ltac error_tac HR :=
  repeat (preserves_step HR);
  try (apply preserves_onBatch; intros);
  try (apply preserves_emit; intros);
  lazymatch goal with
  | |- preserves _ _ =>
      first [ apply advanceChain_keepsError
            | apply triggerBatchDownloader_keepsError
            | apply triggerBatchProcessor_keepsError ]
  | |- _ => reflexivity
  end.

Lemma startSyncing_keepsError e : preserves keepsError (startSyncing deps e).
Proof. pose proof preorder_keepsError as HR. unfold startSyncing. error_tac HR. Qed.

Lemma stopSyncing_keepsError : preserves keepsError stopSyncing.
Proof. apply preserves_modify. intro. reflexivity. Qed.

Lemma addPeer_keepsError p t : preserves keepsError (addPeer deps p t).
Proof. pose proof preorder_keepsError as HR. unfold addPeer, computeTarget. error_tac HR. Qed.

Lemma removePeer_keepsError p : preserves keepsError (removePeer deps p).
Proof.
  pose proof preorder_keepsError as HR. unfold removePeer, computeTarget. error_tac HR.
Qed.

Lemma processBatch_resume_keepsError ref blocks res :
  preserves keepsError (processBatch_resume deps ref blocks res).
Proof.
  pose proof preorder_keepsError as HR. unfold processBatch_resume. error_tac HR.
Qed.

Lemma processBatch_resume_throws ref blocks res :
  throwsOnly isBatchError (processBatch_resume deps ref blocks res).
Proof.
  unfold processBatch_resume, triggerBatchProcessor.
  repeat throws_step;
    first [ apply processingSuccess_throws
          | apply processingError_throws
          | apply validationError_throwsOnly
          | apply advanceChain_throws
          | apply triggerBatchDownloader_throws ].
Qed.

Lemma failing_keepsError s s' : keepsError s s' -> failing s -> failing s'.
Proof. intros H (e & He & Hne). exists e. unfold keepsError in H. rewrite H. auto. Qed.

Lemma isBatchError_not_aborted e : isBatchError e -> e <> ErrorAborted.
Proof. intros [code ->]. discriminate. Qed.

(** A download that settles leaves an error in a trigger that held one. *)
Lemma sendBatch_resume_failing ref res s :
  failing s -> failing (snd (sendBatch_resume deps ref res s)).
Proof.
  intro Hf. unfold sendBatch_resume. unfold bind at 1. unfold tryCatch.
  set (body := match res with
               | Some blocks =>
                   onBatch ref (Batch.downloadingSuccess blocks) ;; triggerBatchProcessor
               | None => onBatch ref Batch.downloadingError
               end ;; triggerBatchDownloader deps).
  assert (Hkeep : preserves keepsError body).
  { pose proof preorder_keepsError as HR. unfold body. error_tac HR. }
  assert (Hthrows : throwsOnly isBatchError body).
  { unfold body, triggerBatchProcessor.
    repeat throws_step;
      first [ apply downloadingSuccess_throws
            | apply downloadingError_throws
            | apply triggerBatchDownloader_throws ]. }
  destruct (body s) as [[[]|e] s1] eqn:Eb.
  - apply (failing_keepsError s1); [apply preserves_snd, triggerBatchDownloader_keepsError|].
    exact (failing_keepsError s s1 (Hkeep _ _ _ Eb) Hf).
  - unfold modify.
    apply (failing_keepsError (batchProcessor_end e s1));
      [apply preserves_snd, triggerBatchDownloader_keepsError|].
    exists e. split; [reflexivity|]. apply isBatchError_not_aborted. exact (Hthrows _ _ _ Eb).
Qed.

(** The [catch] of [sync] on an error that is not an abort. *)
Lemma sync_catch_error e s :
  e <> ErrorAborted ->
  exists s',
    sync_catch e s = (Throw e, s')
    /\ status s' = SyncChainStatus.Error
    /\ onEnds (events s') = onEnds (events s).
Proof.
  intro Hne.
  destruct e as [msg|code|msg|msg|]; [| | | |contradiction Hne; reflexivity];
    try (eexists; split; [reflexivity|]; split; reflexivity).
  destruct code; try (eexists; split; [reflexivity|]; split; reflexivity).
  rewrite sync_catch_MAX_PROCESSING_ATTEMPTS. eexists. split; [reflexivity|].
  split; [reflexivity|]. cbn [events setEvents setStatus].
  unfold onEnds. rewrite filter_app. fold (onEnds (events s)).
  match goal with
  | |- _ ++ filter isOnEnd (map ?f ?l) = _ =>
      change (filter isOnEnd (map f l)) with (onEnds (map f l))
  end.
  rewrite onEnds_reports. apply app_nil_r.
Qed.

(** A stretch of [sync] that throws an error that is not an abort ends the
    chain in [Error], and [onEnd] gets the error. *)
Lemma sync_run_throw (m : M SyncChain LoopExit) c e c1 :
  m c = (Throw e, c1) -> e <> ErrorAborted ->
  status (snd (sync_run m c)) = SyncChainStatus.Error
  /\ syncLoop (snd (sync_run m c)) = Settled
  /\ onEnds (events (snd (sync_run m c))) = onEnds (events c1) ++ [OnEnd (Some e)].
Proof.
  intros Em Hne. unfold sync_run. rewrite Em.
  destruct (sync_catch_error e c1 Hne) as (c2 & Ec & Hst & Hev). rewrite Ec.
  unfold sync_settle, bind, emit, modify. cbn [snd status syncLoop events setSyncLoop setEvents].
  split; [exact Hst|]. split; [reflexivity|].
  rewrite onEnds_app. simpl. rewrite Hev. reflexivity.
Qed.

(** The loop of [sync] that takes a trigger ended with an error. *)
Lemma failing_trigger_ends c e :
  syncLoop c = AwaitingTrigger ->
  error (batchProcessor c) = Some e ->
  e <> ErrorAborted ->
  exists c',
    stepChain deps TriggerSettles c = Some c'
    /\ status c' = SyncChainStatus.Error
    /\ syncLoop c' = Settled
    /\ onEnds (events c') = onEnds (events c) ++ [OnEnd (Some e)].
Proof.
  intros Hloop Herr Hne. unfold stepChain. rewrite Hloop, Herr.
  eexists. split; [reflexivity|].
  apply sync_run_throw; [|exact Hne].
  unfold batchProcessor_next. unfold bind, get. cbn beta iota. rewrite Herr. reflexivity.
Qed.

(** A step of a chain whose trigger holds an error, short of [remove]: the
    loop of [sync] has not ended and the trigger still holds an error, or the
    loop has ended, the chain is in [Error] and [onEnd] got an error. *)
Lemma stepChain_failing l c c' :
  l <> CallRemove ->
  syncLoop c <> Settled -> failing c ->
  stepChain deps l c = Some c' ->
  (syncLoop c' <> Settled /\ failing c' /\ onEnds (events c') = onEnds (events c))
  \/ (syncLoop c' = Settled
      /\ status c' = SyncChainStatus.Error
      /\ exists e, e <> ErrorAborted
                   /\ onEnds (events c') = onEnds (events c) ++ [OnEnd (Some e)]).
Proof.
  intros Hl Hloop Hf Hstep.
  assert (Hcall : forall A (m : M SyncChain A),
             preserves keepsError m -> keepsLoop c (snd (m c)) -> c' = snd (m c) ->
             syncLoop c' <> Settled /\ failing c'
             /\ onEnds (events c') = onEnds (events c)).
  { intros A m Hk [Hev Hsl] ->. split; [rewrite Hsl; exact Hloop|].
    split; [|exact Hev]. apply (failing_keepsError c); [apply preserves_snd, Hk | exact Hf]. }
  assert (Hsteady : forall s s', steady s s' -> keepsLoop s s')
    by (intros s s' [[_ H] _]; exact H).
  destruct l as [e | | | p t | p | | ref res | res]; unfold stepChain in Hstep.
  - apply Some_inj in Hstep. left.
    apply (Hcall _ (startSyncing deps e)); [apply startSyncing_keepsError | | auto].
    apply Hsteady. exact (startSyncing_steady deps e c _ _ (surjective_pairing _)).
  - apply Some_inj in Hstep. left.
    apply (Hcall _ stopSyncing); [apply stopSyncing_keepsError | | auto].
    apply Hsteady. exact (stopSyncing_steady c _ _ (surjective_pairing _)).
  - contradiction Hl. reflexivity.
  - apply Some_inj in Hstep. left.
    apply (Hcall _ (addPeer deps p t)); [apply addPeer_keepsError | | auto].
    exact (proj2 (addPeer_progress deps p t c _ _ (surjective_pairing _))).
  - apply Some_inj in Hstep. left.
    apply (Hcall _ (removePeer deps p)); [apply removePeer_keepsError | | auto].
    exact (proj2 (removePeer_progress deps p c _ _ (surjective_pairing _))).
  - destruct (syncLoop c) eqn:El; try discriminate Hstep.
    destruct Hf as (e & He & Hne).
    destruct (failing_trigger_ends c e El He Hne) as (c2 & Hs2 & Hst & Hsl & Hev).
    unfold stepChain in Hs2. rewrite El in Hs2. rewrite Hs2 in Hstep.
    apply Some_inj in Hstep. subst c2.
    right. split; [exact Hsl|]. split; [exact Hst|]. exists e. split; assumption.
  - destruct (hasRef ref (pendingDownloads c)); [|discriminate Hstep].
    apply Some_inj in Hstep. subst c'. left.
    set (c0 := setPendingDownloads (removeRef ref (pendingDownloads c)) c).
    destruct (Hsteady _ _ (sendBatch_resume_steady deps ref res c0 _ _ (surjective_pairing _)))
      as [Hev Hsl].
    split; [rewrite Hsl; exact Hloop|]. split; [|exact Hev].
    apply sendBatch_resume_failing. exact Hf.
  - destruct (syncLoop c) as [|ref blocks|] eqn:El; try discriminate Hstep.
    apply Some_inj in Hstep. subst c'.
    set (c0 := setSyncLoop AwaitingTrigger c).
    set (m := processBatch_resume deps ref blocks res ;; ret LoopContinue).
    destruct (processBatch_resume deps ref blocks res c0) as [r c1] eqn:E1.
    destruct (Hsteady _ _ (processBatch_resume_steady deps ref blocks res c0 _ _ E1))
      as [Hev Hsl].
    pose proof (processBatch_resume_keepsError ref blocks res c0 _ _ E1) as Hk.
    destruct r as [[]|e].
    + left. assert (Em : sync_run m c0 = (Ok tt, c1)).
      { unfold sync_run, m, bind. rewrite E1. reflexivity. }
      rewrite Em. cbn [snd]. split; [rewrite Hsl; discriminate|].
      split; [exact (failing_keepsError c0 c1 Hk Hf) | exact Hev].
    + right. assert (Em : m c0 = (Throw e, c1)).
      { unfold m, bind. rewrite E1. reflexivity. }
      assert (Hne : e <> ErrorAborted).
      { apply isBatchError_not_aborted.
        exact (processBatch_resume_throws ref blocks res _ _ _ E1). }
      destruct (sync_run_throw m c0 e c1 Em Hne) as (Hst & Hs & Hends).
      split; [exact Hs|]. split; [exact Hst|]. exists e. split; [exact Hne|].
      rewrite Hends, Hev. reflexivity.
Qed.

(** A chain whose trigger holds an error, from then on and short of
    [remove]. *)
Lemma run_failing ls :
  forall c c',
    Forall (fun l => l <> CallRemove) ls ->
    syncLoop c <> Settled -> failing c ->
    run deps ls c = Some c' ->
    (syncLoop c' <> Settled /\ failing c' /\ onEnds (events c') = onEnds (events c))
    \/ (syncLoop c' = Settled
        /\ exists e, e <> ErrorAborted
                     /\ onEnds (events c') = onEnds (events c) ++ [OnEnd (Some e)]).
Proof.
  induction ls as [|l ls IH]; intros c c' Hls Hloop Hf Hrun; simpl in Hrun.
  - injection Hrun as <-. left. auto.
  - inversion Hls as [|? ? Hl Hls']; subst.
    destruct (stepChain deps l c) as [c1|] eqn:Hstep; [|discriminate Hrun].
    destruct (stepChain_failing l c c1 Hl Hloop Hf Hstep)
      as [(Hloop1 & Hf1 & Hev1) | (Hs1 & _ & e & Hne & Hev1)].
    + destruct (IH c1 c' Hls' Hloop1 Hf1 Hrun) as [(H1 & H2 & H3) | (H1 & e & Hne & H3)].
      * left. split; [exact H1|]. split; [exact H2 | congruence].
      * right. split; [exact H1|]. exists e. split; [exact Hne | congruence].
    + right. destruct (run_settled deps ls c1 c' Hs1 Hrun) as [Hev Hsl].
      split; [congruence|]. exists e. split; [exact Hne | congruence].
Qed.

End TriggerError.

(** C2 (as amended).  In asStateMachine/batch.ts, [downloadingError] on a
    batch in Downloading appends the downloading peer to
    [failedDownloadAttempts] and returns the batch to AwaitingDownload,
    whatever the number of failed attempts: it never fails with
    MaxDownloadAttempts.  In a [SyncChain] whose loop of [sync] has not ended,
    when the failed download that settles makes the number of failed download
    attempts of its batch reach [MAX_DOWNLOAD_ATTEMPTS], [sendBatch] ends the
    trigger with the MaxDownloadAttempts error, whatever the loop is waiting
    for.  From then on and short of a call of [remove]: for as long as the
    loop has not ended the trigger holds an error that is not an abort (that
    one, or the one of a later download) and [onEnd] is not called; when the
    loop waits for the trigger it can take it, and then moves the chain to
    [Error] and hands the error of the trigger to [onEnd]; every step that
    ends the loop leaves the chain in [Error]; and once the loop has ended,
    [onEnd] has been called once, with an error. *)
Theorem downloadingError_retry_and_chain_error :
  (forall (b : AsStateMachine.Batch.t) p blocks,
      AsStateMachine.Batch.state b = StDownloading p blocks ->
      let (r, b') := AsStateMachine.Batch.downloadingError b in
      r = Ok tt
      /\ AsStateMachine.Batch.failedDownloadAttempts b'
         = AsStateMachine.Batch.failedDownloadAttempts b ++ [p]
      /\ AsStateMachine.Batch.state b' = StAwaitingDownload
      /\ AsStateMachine.Batch.id b' = AsStateMachine.Batch.id b
      /\ AsStateMachine.Batch.failedProcessingAttempts b'
         = AsStateMachine.Batch.failedProcessingAttempts b)
  /\ (forall deps (c : SyncChain) ref p blocks,
         hasRef ref (pendingDownloads c) = true ->
         Batch.state (getBatch ref c) = StDownloading p blocks ->
         MAX_DOWNLOAD_ATTEMPTS <= len (Batch.failedDownloadAttempts (getBatch ref c)) + 1 ->
         syncLoop c <> Settled ->
         exists c1,
           stepChain deps (DownloadSettles ref None) c = Some c1
           /\ error (batchProcessor c1)
              = Some (BatchError BatchErrorCode.MAX_DOWNLOAD_ATTEMPTS)
           /\ status c1 = status c
           /\ syncLoop c1 = syncLoop c
           /\ onEnds (events c1) = onEnds (events c)
           /\ forall ls c2,
               Forall (fun l => l <> CallRemove) ls ->
               run deps ls c1 = Some c2 ->
               (syncLoop c2 <> Settled ->
                failing c2 /\ onEnds (events c2) = onEnds (events c1))
               /\ (syncLoop c2 = AwaitingTrigger ->
                   exists e c3,
                     error (batchProcessor c2) = Some e
                     /\ stepChain deps TriggerSettles c2 = Some c3
                     /\ status c3 = SyncChainStatus.Error
                     /\ syncLoop c3 = Settled
                     /\ onEnds (events c3) = onEnds (events c2) ++ [OnEnd (Some e)])
               /\ (forall l c3,
                      l <> CallRemove -> syncLoop c2 <> Settled ->
                      stepChain deps l c2 = Some c3 -> syncLoop c3 = Settled ->
                      status c3 = SyncChainStatus.Error)
               /\ (syncLoop c2 = Settled ->
                   exists e,
                     e <> ErrorAborted
                     /\ onEnds (events c2) = onEnds (events c1) ++ [OnEnd (Some e)])).
Proof.
  split.
  - intros b p blocks H. unfold AsStateMachine.Batch.downloadingError. rewrite H.
    simpl. auto.
  - intros deps c ref p blocks Hpend Hst Hmax Hloop.
    set (c0 := setPendingDownloads (removeRef ref (pendingDownloads c)) c).
    assert (Hthrow : fst (Batch.downloadingError (getBatch ref c0))
                     = Throw (BatchError BatchErrorCode.MAX_DOWNLOAD_ATTEMPTS)).
    { unfold c0. rewrite getBatch_setPendingDownloads.
      unfold Batch.downloadingError. rewrite Hst. simpl.
      rewrite len_app_one.
      destruct (MAX_DOWNLOAD_ATTEMPTS <=? _) eqn:E; [reflexivity|].
      apply Z.leb_gt in E. lia. }
    destruct (sendBatch_resume_throws deps ref _ c0 Hthrow) as (c1 & E1 & Herr & Hs1 & Hl1).
    destruct (sendBatch_resume_steady deps ref None c0 _ _ E1) as [[_ [Hev1 _]] _].
    exists c1.
    split; [unfold stepChain; rewrite Hpend; fold c0; rewrite E1; reflexivity|].
    split; [exact Herr|]. split; [exact Hs1|]. split; [exact Hl1|]. split; [exact Hev1|].
    intros ls c2 Hls Hrun.
    assert (Hf1 : failing c1) by (eexists; split; [exact Herr | discriminate]).
    assert (Hloop1 : syncLoop c1 <> Settled) by (rewrite Hl1; exact Hloop).
    pose proof (run_failing deps ls c1 c2 Hls Hloop1 Hf1 Hrun) as Hinv.
    split; [|split; [|split]].
    + intro Hl2. destruct Hinv as [(_ & Hf2 & Hev2) | (Hs2 & _)]; [auto | contradiction].
    + intro Hl2. destruct Hinv as [(_ & (e & He & Hne) & _) | (Hs2 & _)];
        [|rewrite Hl2 in Hs2; discriminate Hs2].
      destruct (failing_trigger_ends deps c2 e Hl2 He Hne) as (c3 & H3).
      exists e, c3. split; [exact He | exact H3].
    + intros l c3 Hl Hl2 Hstep Hs3.
      destruct Hinv as [(_ & Hf2 & _) | (Hs2 & _)]; [|contradiction].
      destruct (stepChain_failing deps l c2 c3 Hl Hl2 Hf2 Hstep)
        as [(Hn3 & _) | (_ & Hst3 & _)]; [contradiction | exact Hst3].
    + intro Hl2. destruct Hinv as [(Hn2 & _) | (_ & He)]; [contradiction | exact He].
Qed.

Lemma downloadingError_retry_and_chain_error_witness :
  (let (r, b') := AsStateMachine.Batch.downloadingError Examples.asBatchFourFailures in
   r = Ok tt
   /\ AsStateMachine.Batch.failedDownloadAttempts b'
      = ["peer1"; "peer2"; "peer1"; "peer2"; "peer1"]
   /\ AsStateMachine.Batch.state b' = StAwaitingDownload
   /\ AsStateMachine.Batch.id b' = 0
   /\ AsStateMachine.Batch.failedProcessingAttempts b' = [])
  /\ (let c := Examples.chainAfter Examples.fourFailedWhileProcessing in
      syncLoop c = AwaitingProcessChainSegment 0%nat [Examples.block1]
      /\ exists c1 c2 c3,
          stepChain Examples.deps (DownloadSettles 1%nat None) c = Some c1
          /\ error (batchProcessor c1)
             = Some (BatchError BatchErrorCode.MAX_DOWNLOAD_ATTEMPTS)
          /\ run Examples.deps [ProcessSettles Processed] c1 = Some c2
          /\ syncLoop c2 = AwaitingTrigger
          /\ stepChain Examples.deps TriggerSettles c2 = Some c3
          /\ status c3 = SyncChainStatus.Error
          /\ syncLoop c3 = Settled
          /\ onEnds (events c3)
             = [OnEnd (Some (BatchError BatchErrorCode.MAX_DOWNLOAD_ATTEMPTS))]).
Proof.
  split.
  - apply (proj1 downloadingError_retry_and_chain_error
             Examples.asBatchFourFailures "peer1" []).
    reflexivity.
  - cbv zeta. split; [vm_compute; reflexivity|].
    destruct (proj2 downloadingError_retry_and_chain_error Examples.deps
                (Examples.chainAfter Examples.fourFailedWhileProcessing) 1%nat "peer1" [])
      as (c1 & Hstep & Herr & _ & _ & _ & Hnext).
    + vm_compute. reflexivity.
    + vm_compute. reflexivity.
    + vm_compute. intro Hc. discriminate Hc.
    + vm_compute. discriminate.
    + destruct (run Examples.deps [ProcessSettles Processed] c1) as [c2|] eqn:Hrun.
      2:{ vm_compute in Hstep. injection Hstep as <-. vm_compute in Hrun. discriminate Hrun. }
      assert (Hl2 : syncLoop c2 = AwaitingTrigger).
      { vm_compute in Hstep. injection Hstep as <-. vm_compute in Hrun.
        injection Hrun as <-. reflexivity. }
      assert (Hends : onEnds (events c2) = []
                      /\ error (batchProcessor c2)
                         = Some (BatchError BatchErrorCode.MAX_DOWNLOAD_ATTEMPTS)).
      { vm_compute in Hstep. injection Hstep as <-. vm_compute in Hrun.
        injection Hrun as <-. split; reflexivity. }
      destruct (Hnext [ProcessSettles Processed] c2) as (_ & Htrigger & _).
      * constructor; [discriminate | constructor].
      * exact Hrun.
      * destruct (Htrigger Hl2) as (e & c3 & He & Hstep3 & Hst3 & Hs3 & Hev3).
        destruct Hends as [Hev2 Herr2]. rewrite Herr2 in He. injection He as <-.
        exists c1, c2, c3. rewrite Hev2 in Hev3.
        repeat split; assumption.
Defined.

(* ------------------------------------------------------------------------- *)
(** * The peer a batch is retried with *)

Section AsRetry.
Import AsStateMachine.
Variable shuffle : list PeerId -> list PeerId.





End AsRetry.

Section RangeRetry.
Variable deps : Deps.








End RangeRetry.



(** The downloads are counted once, when [requestBatches] starts: two batches
    that wait for a download are both retried with peer1, although peer2 has
    no download when the second one is retried. *)
Lemma requestBatches_retries_two_batches_with_one_peer :
  let ps := {| AsStateMachine.peers := ["peer1"; "peer2"];
               AsStateMachine.targetEpoch := 0 |} in
  map (fun kv => statusOf (AsStateMachine.Batch.state (snd kv)))
    (AsStateMachine.batches Examples.asTwoWaiting)
  = [AwaitingDownload; AwaitingDownload]
  /\ map fst
       (AsStateMachine.requests
          (snd (AsStateMachine.requestBatches (fun l => l) ps Examples.asTwoWaiting)))
     = ["peer1"; "peer1"].
Proof. cbv zeta. split; vm_compute; reflexivity. Qed.
